(** * The quiz solver: chain driver, LLM JSON acquisition, submit discovery

    A shallow embedding of [app/llm.py], [app/solver.py] and [app/main.py].

    Python text is a sequence of Unicode code points; Python values that
    travel through the program (parsed JSON, step records, the trace) are
    the constructors of [pyval].  Everything that talks to the outside
    (the completion endpoint, the browser, the quiz server, the clock,
    the encoding of stdout) is
    an oracle of the environment record [env]; the [world] is the history
    of the interactions so far, and an oracle answers from that history,
    so that two identical requests may receive different answers. *)

From Stdlib Require Import Ascii String.
From Stdlib Require Import List Permutation ZArith NArith Bool Lia.
Import ListNotations.
Local Open Scope list_scope.
Set Warnings "-register-all".

(* ================================================================== *)
(** * Python text and values *)
(* ================================================================== *)

Module Py.

(** A character is a code point, a [str] a list of them. *)
Definition char := N.
Definition str := list char.

Local Open Scope N_scope.

(** Literals are written as ASCII strings and converted. *)
Definition py (x : string) : str :=
  map N_of_ascii (list_ascii_of_string x).

(** The double quote and the apostrophe, and text in double quotes. *)
Definition DQ : char := 34.
Definition SQ : char := 39.
Definition quoted (x : str) : str := DQ :: x ++ [DQ].

Definition ch (a : ascii) : char := N_of_ascii a.

Definition in_range (lo hi c : char) : bool := (N.leb lo c && N.leb c hi)%bool.

Fixpoint str_eqb (a b : str) : bool :=
  match a, b with
  | [], [] => true
  | x :: a', y :: b' => (N.eqb x y && str_eqb a' b')%bool
  | _, _ => false
  end.

(** [str.isspace] on one code point: the characters [str.strip] removes
    and the pattern [\s] matches on text. *)
Definition isspace (c : char) : bool :=
  (in_range 9 13 c || in_range 28 32 c || N.eqb c 133 || N.eqb c 160
   || N.eqb c 5760 || in_range 8192 8202 c || N.eqb c 8232 || N.eqb c 8233
   || N.eqb c 8239 || N.eqb c 8287 || N.eqb c 12288)%bool.

Fixpoint lstrip (x : str) : str :=
  match x with
  | c :: x' => if isspace c then lstrip x' else x
  | [] => []
  end.

Definition rstrip (x : str) : str := rev (lstrip (rev x)).

(** [x.strip()] *)
Definition strip (x : str) : str := rstrip (lstrip x).

(** [x.lower()].  The ASCII capitals are lowered.  Python also lowers the
    capitals outside ASCII, to characters outside ASCII (U+0130 becomes
    [i] followed by U+0307); the program only asks whether the ASCII word
    [submit] occurs in the lowered text, and that answer is the same. *)
Definition lower_char (c : char) : char :=
  if in_range 65 90 c then c + 32 else c.
Definition lower (x : str) : str := map lower_char x.

(** [x.startswith(p)] *)
Fixpoint startswith (p x : str) : bool :=
  match p, x with
  | [], _ => true
  | a :: p', b :: x' => (N.eqb a b && startswith p' x')%bool
  | _ :: _, [] => false
  end.

(** [needle in hay] on text *)
Fixpoint contains (needle hay : str) : bool :=
  (startswith needle hay ||
   match hay with
   | [] => false
   | _ :: hay' => contains needle hay'
   end)%bool.

(** A float is kept as the literal that denotes it: the double nearest to
    [coeff * 10 ^ exp10], with its sign.  No arithmetic is done on floats
    here; only their truth value is ever observed. *)
Inductive pyfloat :=
| FNan
| FInf (neg : bool)
| FDec (neg : bool) (coeff : N) (exp10 : Z).

(** A decimal rounds to the double zero exactly when it is at most half
    the smallest subnormal, [2 ^ -1075] (the tie goes to the even
    neighbour, which is zero). *)
Definition float_nonzero (f : pyfloat) : bool :=
  match f with
  | FNan | FInf _ => true
  | FDec _ c e =>
      if (0 <=? e)%Z then negb (N.eqb c 0)
      else (10 ^ (- e) <? Z.of_N c * 2 ^ 1075)%Z
  end.

Inductive pyval :=
| PNone
| PBool (b : bool)
| PInt (z : Z)
| PFloat (f : pyfloat)
| PStr (x : str)
| PList (l : list pyval)
| PDict (d : list (str * pyval)).

(** A dict is the list of its items in insertion order, keys distinct
    when built by [dict_set]. *)
Definition dict := list (str * pyval).

Fixpoint dict_get (d : dict) (k : str) : option pyval :=
  match d with
  | [] => None
  | (k', v) :: d' => if str_eqb k' k then Some v else dict_get d' k
  end.

Definition dict_has (d : dict) (k : str) : bool :=
  match dict_get d k with Some _ => true | None => false end.

(** [d[k] = v]: an existing key keeps its place. *)
Fixpoint dict_set (d : dict) (k : str) (v : pyval) : dict :=
  match d with
  | [] => [(k, v)]
  | (k', v') :: d' =>
      if str_eqb k' k then (k', v) :: d' else (k', v') :: dict_set d' k v
  end.


(** [bool(v)] *)
Definition truthy (v : pyval) : bool :=
  match v with
  | PNone => false
  | PBool b => b
  | PInt z => negb (Z.eqb z 0)
  | PFloat f => float_nonzero f
  | PStr x => match x with [] => false | _ => true end
  | PList l => match l with [] => false | _ => true end
  | PDict d => match d with [] => false | _ => true end
  end.

(** [isinstance(v, dict)] *)
Definition is_dict (v : pyval) : bool :=
  match v with PDict _ => true | _ => false end.

(** [type(v).__name__] *)
Definition type_name (v : pyval) : str :=
  match v with
  | PNone => py "NoneType"
  | PBool _ => py "bool"
  | PInt _ => py "int"
  | PFloat _ => py "float"
  | PStr _ => py "str"
  | PList _ => py "list"
  | PDict _ => py "dict"
  end.

(** Exceptions, all of them instances of [Exception].  [KeyError] carries
    the [repr] of the missing key, the others their message.  The wording
    of the interpreter's own messages is CPython 3.12's; nothing below
    depends on it. *)
Inductive exn :=
| KeyError (key_repr : str)
| TypeError (msg : str)
| IndexError (msg : str)
| AttributeError (msg : str)
| ValueError (msg : str)
| UnicodeEncodeError (msg : str)
| TimeoutError
| HTTPException (status_code : Z) (detail : str)
| OtherError (cls : str) (msg : str).

(** [str(e)] *)
Definition exn_str (e : exn) : str :=
  match e with
  | KeyError r => r
  | TypeError m | IndexError m | AttributeError m | ValueError m => m
  | UnicodeEncodeError m => m
  | TimeoutError => []
  | HTTPException c d => d
  | OtherError _ m => m
  end.

Inductive result (A : Type) :=
| Ok (a : A)
| Raise (e : exn).
Arguments Ok {A} a.
Arguments Raise {A} e.

(** [repr] of a key that is a plain ASCII word *)
Definition repr_word (k : str) : str := SQ :: k ++ [SQ].

(** [v[k]] for a text key [k] *)
Definition getitem_str (v : pyval) (k : str) : result pyval :=
  match v with
  | PDict d =>
      match dict_get d k with
      | Some x => Ok x
      | None => Raise (KeyError (repr_word k))
      end
  | PList _ =>
      Raise (TypeError (py "list indices must be integers or slices, not str"))
  | PStr _ =>
      Raise (TypeError (py "string indices must be integers, not 'str'"))
  | _ =>
      Raise (TypeError (SQ :: type_name v ++ py "' object is not subscriptable"))
  end.

(** [v[0]].  The keys of a parsed JSON object are text, so [0] is never
    one of them. *)
Definition getitem_0 (v : pyval) : result pyval :=
  match v with
  | PList (x :: _) => Ok x
  | PList [] => Raise (IndexError (py "list index out of range"))
  | PStr (c :: _) => Ok (PStr [c])
  | PStr [] => Raise (IndexError (py "string index out of range"))
  | PDict _ => Raise (KeyError (py "0"))
  | _ =>
      Raise (TypeError (SQ :: type_name v ++ py "' object is not subscriptable"))
  end.

(** [k in v] for a text [k] *)
Definition contains_key (k : str) (v : pyval) : result bool :=
  match v with
  | PDict d => Ok (dict_has d k)
  | PList l =>
      Ok (existsb (fun x => match x with PStr y => str_eqb y k | _ => false end) l)
  | PStr x => Ok (contains k x)
  | _ =>
      Raise (TypeError (py "argument of type '" ++ type_name v ++ py "' is not iterable"))
  end.

End Py.

(* ================================================================== *)
(** * Regular expressions, as the [re] module matches them *)
(* ================================================================== *)

Module Re.
Import Py.

(** The constructs the program's patterns use.  [Group n r] is the
    [n]-th parenthesis. *)
Inductive regex :=
| Eps
| Chr (c : char)
| Cls (p : char -> bool)
| Cat (r1 r2 : regex)
| Alt (r1 r2 : regex)
| Star (r : regex)
| LazyStar (r : regex)
| Group (n : nat) (r : regex).

(** [r+] *)
Definition Plus (r : regex) : regex := Cat r (Star r).

(** The characters of a word, one after the other. *)
Fixpoint Word (w : str) : regex :=
  match w with
  | [] => Eps
  | c :: w' => Cat (Chr c) (Word w')
  end.

(** What the groups have captured so far, the latest first. *)
Definition caps := list (nat * str).

Fixpoint group (c : caps) (n : nat) : str :=
  match c with
  | [] => []
  | (m, x) :: c' => if Nat.eqb m n then x else group c' n
  end.

(** A continuation receives what is left of the text and the captures,
    and answers [None] to ask for the next alternative. *)
Definition cont (R : Type) := str -> caps -> option R.

(** A repetition of [step].  A greedy one tries another iteration before
    it goes on, a lazy one goes on first.  It is unrolled at most [n]
    times, and an iteration must consume text. *)
Fixpoint repeat_loop {R} (greedy : bool) (step : str -> caps -> cont R -> option R)
    (k : cont R) (n : nat) (x : str) (c : caps) {struct n} : option R :=
  match n with
  | O => k x c
  | S n' =>
      let again x' c' :=
        if Nat.ltb (length x') (length x)
        then repeat_loop greedy step k n' x' c'
        else None in
      if greedy then
        match step x c again with
        | Some r => Some r
        | None => k x c
        end
      else
        match k x c with
        | Some r => Some r
        | None => step x c again
        end
  end.

(** The backtracking matcher, in continuation-passing style.
    Alternatives are tried in the order of the [re] module: the left
    branch first, a greedy repetition longest first, a lazy one shortest
    first.  A repetition never needs more iterations than there are
    characters left. *)
Fixpoint rmatch {R} (r : regex) (x : str) (c : caps) (k : cont R)
    {struct r} : option R :=
  match r with
  | Eps => k x c
  | Chr a =>
      match x with
      | b :: x' => if N.eqb a b then k x' c else None
      | [] => None
      end
  | Cls p =>
      match x with
      | b :: x' => if p b then k x' c else None
      | [] => None
      end
  | Cat r1 r2 => rmatch r1 x c (fun x' c' => rmatch r2 x' c' k)
  | Alt r1 r2 =>
      match rmatch r1 x c k with
      | Some r => Some r
      | None => rmatch r2 x c k
      end
  | Star r1 => repeat_loop true (rmatch r1) k (S (length x)) x c
  | LazyStar r1 => repeat_loop false (rmatch r1) k (S (length x)) x c
  | Group n r1 =>
      rmatch r1 x c
        (fun x' c' => k x' ((n, firstn (length x - length x') x) :: c'))
  end.

(** [re.match]'s core: the text matched at the start of [x], the
    captures, and the rest of [x]. *)
Definition match_at (r : regex) (x : str) : option (str * caps * str) :=
  rmatch r x [] (fun x' c => Some (firstn (length x - length x') x, c, x')).

(** [re.search(r, x)]: the leftmost match. *)
Fixpoint search (r : regex) (x : str) : option (str * caps) :=
  match match_at r x with
  | Some (m, c, _) => Some (m, c)
  | None =>
      match x with
      | [] => None
      | _ :: x' => search r x'
      end
  end.

(** The non-overlapping matches from left to right ([re.finditer]).
    [skip] counts the characters still covered by the previous match. *)
Fixpoint finditer_from (r : regex) (x : str) (skip : nat) : list (str * caps) :=
  match skip with
  | S n =>
      match x with
      | [] => []
      | _ :: x' => finditer_from r x' n
      end
  | O =>
      match match_at r x with
      | Some (m, c, _) =>
          (m, c) ::
          match x with
          | [] => []
          | _ :: x' => finditer_from r x' (Nat.pred (length m))
          end
      | None =>
          match x with
          | [] => []
          | _ :: x' => finditer_from r x' 0
          end
      end
  end.

Definition finditer (r : regex) (x : str) : list (str * caps) :=
  finditer_from r x 0.

(** [re.findall(r, x)] for a pattern with exactly one group: the text of
    that group in every match. *)
Definition findall1 (r : regex) (x : str) : list str :=
  map (fun m => group (snd m) 1) (finditer r x).

(** A replacement template: literal text and group references. *)
Inductive piece :=
| Lit (x : str)
| Ref (n : nat).

Definition expand (t : list piece) (c : caps) : str :=
  flat_map (fun p => match p with Lit x => x | Ref n => group c n end) t.

(** [re.sub(r, t, x)] *)
Fixpoint sub_from (r : regex) (t : list piece) (x : str) (skip : nat) : str :=
  match skip with
  | S n =>
      match x with
      | [] => []
      | _ :: x' => sub_from r t x' n
      end
  | O =>
      match match_at r x with
      | Some (m, c, _) =>
          expand t c ++
          match x with
          | [] => []
          | a :: x' =>
              match m with
              | [] => a :: sub_from r t x' 0
              | _ :: m' => sub_from r t x' (length m')
              end
          end
      | None =>
          match x with
          | [] => []
          | a :: x' => a :: sub_from r t x' 0
          end
      end
  end.

Definition sub (r : regex) (t : list piece) (x : str) : str :=
  sub_from r t x 0.

(** What is left of [x] after its longest prefix in the class [p]. *)
Fixpoint skip_class (p : char -> bool) (x : str) : str :=
  match x with
  | c :: x' => if p c then skip_class p x' else x
  | [] => []
  end.

(** Character classes of the program's patterns. *)
Local Open Scope N_scope.
Definition any_char (c : char) : bool := true.
Definition dot (c : char) : bool := negb (N.eqb c 10).
Definition control (c : char) : bool := in_range 0 31 c.
Definition word_char (c : char) : bool :=
  (in_range 65 90 c || in_range 97 122 c || in_range 48 57 c || N.eqb c 95)%bool.
Definition quote_char (c : char) : bool :=
  (N.eqb c DQ || N.eqb c SQ)%bool.
Definition url_char (c : char) : bool :=
  (in_range 65 90 c || in_range 97 122 c || in_range 48 57 c
   || existsb (N.eqb c) (py ".-:/?&_=%"))%bool.
Definition not_space_or_quote (c : char) : bool :=
  negb (isspace c || quote_char c).

End Re.

(* ================================================================== *)
(** * [json.loads] *)
(* ================================================================== *)

Module Json.
Import Py.
Local Open Scope N_scope.

(** JSON white space: space, tab, line feed, carriage return. *)
Definition is_ws (c : char) : bool :=
  (N.eqb c 32 || N.eqb c 9 || N.eqb c 10 || N.eqb c 13)%bool.

Fixpoint skip_ws (x : str) : str :=
  match x with
  | c :: x' => if is_ws c then skip_ws x' else x
  | [] => []
  end.

Definition is_digit (c : char) : bool := in_range 48 57 c.

(** The longest run of digits at the start of [x], and what follows. *)
Fixpoint span_digits (x : str) : str * str :=
  match x with
  | c :: x' =>
      if is_digit c then let (ds, r) := span_digits x' in (c :: ds, r)
      else ([], x)
  | [] => ([], [])
  end.

Definition digits_value (ds : str) : N :=
  fold_left (fun acc d => 10 * acc + (d - 48)) ds 0.

Definition hex_value (c : char) : option N :=
  if in_range 48 57 c then Some (c - 48)
  else if in_range 97 102 c then Some (c - 87)
  else if in_range 65 70 c then Some (c - 55)
  else None.

Definition hex4 (a b c d : char) : option N :=
  match hex_value a, hex_value b, hex_value c, hex_value d with
  | Some x, Some y, Some z, Some w => Some (((x * 16 + y) * 16 + z) * 16 + w)
  | _, _, _, _ => None
  end.

Definition is_high_surrogate (c : N) : bool := in_range 55296 56319 c.
Definition is_low_surrogate (c : N) : bool := in_range 56320 57343 c.
Definition join_surrogates (hi lo : N) : N :=
  65536 + (hi - 55296) * 1024 + (lo - 56320).

(** The character a one-letter escape stands for. *)
Definition unescape (e : char) : option char :=
  if N.eqb e 34 then Some 34          (* double quote *)
  else if N.eqb e 92 then Some 92     (* backslash *)
  else if N.eqb e 47 then Some 47     (* slash *)
  else if N.eqb e 98 then Some 8      (* b *)
  else if N.eqb e 102 then Some 12    (* f *)
  else if N.eqb e 110 then Some 10    (* n *)
  else if N.eqb e 114 then Some 13    (* r *)
  else if N.eqb e 116 then Some 9     (* t *)
  else None.

(** The body of a string literal, after its opening quote, in strict
    mode: the decoded text and what follows the closing quote.  [acc] is
    the text decoded so far, reversed. *)
Fixpoint scanstring (x : str) (acc : str) : option (str * str) :=
  match x with
  | [] => None
  | c :: rest =>
      if N.eqb c 34 then Some (rev acc, rest)
      else if N.eqb c 92 then
        match rest with
        | [] => None
        | e :: rest1 =>
            if N.eqb e 117 then
              match rest1 with
              | h1 :: h2 :: h3 :: h4 :: rest2 =>
                  match hex4 h1 h2 h3 h4 with
                  | None => None
                  | Some cp =>
                      if is_high_surrogate cp then
                        match rest2 with
                        | b :: u :: l1 :: l2 :: l3 :: l4 :: rest3 =>
                            if (N.eqb b 92 && N.eqb u 117)%bool then
                              match hex4 l1 l2 l3 l4 with
                              | None => None
                              | Some cp2 =>
                                  if is_low_surrogate cp2
                                  then scanstring rest3 (join_surrogates cp cp2 :: acc)
                                  else scanstring rest2 (cp :: acc)
                              end
                            else scanstring rest2 (cp :: acc)
                        | _ => scanstring rest2 (cp :: acc)
                        end
                      else scanstring rest2 (cp :: acc)
                  end
              | _ => None
              end
            else
              match unescape e with
              | Some c' => scanstring rest1 (c' :: acc)
              | None => None
              end
        end
      else if N.leb c 31 then None
      else scanstring rest (c :: acc)
  end.

(** A number: an optional minus sign; then a zero, or a digit from 1 to 9
    and any digits; then optionally a dot and one digit or more; then
    optionally [e] or [E], an optional sign and one digit or more.
    Without fraction and exponent it is an [int], otherwise a [float].
    An [int] of more than 4300 digits is refused (the interpreter's
    limit on the conversion of integers, [sys.int_max_str_digits]); the
    callers take that like any other failure. *)
Definition int_max_str_digits : nat := 4300.

Definition match_number (x : str) : option (pyval * str) :=
  let (neg, x1) :=
    match x with
    | c :: x' => if N.eqb c 45 then (true, x') else (false, x)
    | [] => (false, x)
    end in
  let int_part :=
    match x1 with
    | c :: x' =>
        if N.eqb c 48 then Some ([c], x')
        else if in_range 49 57 c then Some (span_digits x1)
        else None
    | [] => None
    end in
  match int_part with
  | None => None
  | Some (ids, x2) =>
      let '(frac, x3) :=
        match x2 with
        | c :: x' =>
            if N.eqb c 46 then
              match span_digits x' with
              | ([], _) => (None, x2)
              | (fds, r) => (Some fds, r)
              end
            else (None, x2)
        | [] => (None, x2)
        end in
      let '(expo, x4) :=
        match x3 with
        | c :: x' =>
            if (N.eqb c 101 || N.eqb c 69)%bool then
              let (eneg, x'') :=
                match x' with
                | s :: r =>
                    if N.eqb s 45 then (true, r)
                    else if N.eqb s 43 then (false, r)
                    else (false, x')
                | [] => (false, x')
                end in
              match span_digits x'' with
              | ([], _) => (None, x3)
              | (eds, r) =>
                  (Some (if eneg then (- Z.of_N (digits_value eds))%Z
                         else Z.of_N (digits_value eds)), r)
              end
            else (None, x3)
        | [] => (None, x3)
        end in
      match frac, expo with
      | None, None =>
          if Nat.ltb int_max_str_digits (length ids) then None
          else
            Some (PInt (if neg then (- Z.of_N (digits_value ids))%Z
                        else Z.of_N (digits_value ids)), x4)
      | _, _ =>
          let fds := match frac with Some f => f | None => [] end in
          let e := match expo with Some e => e | None => 0%Z end in
          Some (PFloat (FDec neg (digits_value (ids ++ fds))
                          (e - Z.of_nat (length fds))%Z), x4)
      end
  end.

(** The elements of an array after the first white space, up to the
    closing bracket.  [scan] reads one value; the loop runs at most [n]
    times; [acc] holds the elements read so far, the latest first. *)
Fixpoint parse_elems (scan : str -> option (pyval * str)) (n : nat) (x : str)
    (acc : list pyval) {struct n} : option (pyval * str) :=
  match n with
  | O => None
  | S n' =>
      match scan x with
      | None => None
      | Some (v, x2) =>
          match skip_ws x2 with
          | [] => None
          | e :: x3 =>
              if N.eqb e 93 then Some (PList (rev (v :: acc)), x3)
              else if N.eqb e 44 then parse_elems scan n' (skip_ws x3) (v :: acc)
              else None
          end
      end
  end.

(** The members of an object, up to the closing brace.  A key that comes
    again replaces the value and keeps the place of the first. *)
Fixpoint parse_members (scan : str -> option (pyval * str)) (n : nat) (x : str)
    (acc : dict) {struct n} : option (pyval * str) :=
  match n with
  | O => None
  | S n' =>
      match x with
      | [] => None
      | q :: xs =>
          if N.eqb q 34 then
            match scanstring xs [] with
            | None => None
            | Some (key, x2) =>
                match skip_ws x2 with
                | [] => None
                | col :: x3 =>
                    if N.eqb col 58 then
                      match scan (skip_ws x3) with
                      | None => None
                      | Some (v, x4) =>
                          let acc' := dict_set acc key v in
                          match skip_ws x4 with
                          | [] => None
                          | e :: x5 =>
                              if N.eqb e 125 then Some (PDict acc', x5)
                              else if N.eqb e 44
                              then parse_members scan n' (skip_ws x5) acc'
                              else None
                          end
                      end
                    else None
                end
            end
          else None
      end
  end.

(** One JSON value at the start of [x], and what follows it.  [depth]
    bounds the nesting of arrays and objects; the loops over the elements
    of an array and the members of an object run at most once per
    remaining character. *)
Fixpoint scan_once (depth : nat) (x : str) {struct depth} : option (pyval * str) :=
  match depth with
  | O => None
  | S d =>
      match x with
      | [] => None
      | c :: rest =>
          if N.eqb c 34 then
            match scanstring rest [] with
            | Some (s, r) => Some (PStr s, r)
            | None => None
            end
          else if N.eqb c 123 then
            match skip_ws rest with
            | [] => None
            | c1 :: r1 =>
                if N.eqb c1 125 then Some (PDict [], r1)
                else parse_members (scan_once d) (S (length rest)) (c1 :: r1) []
            end
          else if N.eqb c 91 then
            match skip_ws rest with
            | [] => None
            | c1 :: r1 =>
                if N.eqb c1 93 then Some (PList [], r1)
                else parse_elems (scan_once d) (S (length rest)) (c1 :: r1) []
            end
          else if startswith (py "null") x then Some (PNone, skipn 4 x)
          else if startswith (py "true") x then Some (PBool true, skipn 4 x)
          else if startswith (py "false") x then Some (PBool false, skipn 5 x)
          else if startswith (py "NaN") x then Some (PFloat FNan, skipn 3 x)
          else if startswith (py "Infinity") x then Some (PFloat (FInf false), skipn 8 x)
          else if startswith (py "-Infinity") x then Some (PFloat (FInf true), skipn 9 x)
          else match_number x
      end
  end.

(** [json.loads(x)]; [None] stands for the [JSONDecodeError] it raises.
    Every caller catches whatever is raised and looks no further.  No
    nesting is deeper than the text is long, so [depth] never runs out.
    The interpreter's recursion limit is not modelled: where the nesting
    of a text goes beyond it, [json.loads] raises and this returns a
    value. *)
Definition loads (x : str) : option pyval :=
  if startswith [65279] x then None
  else
    match scan_once (S (length x)) (skip_ws x) with
    | Some (v, rest) =>
        match skip_ws rest with
        | [] => Some v
        | _ :: _ => None
        end
    | None => None
    end.

End Json.

(* ================================================================== *)
(** * The outside world *)
(* ================================================================== *)

Module World.
Import Py.

(** The lines the program prints, by format and arguments. *)
Inductive line :=
| LlmError (e : exn)                    (* [LLM Error] e *)
| SolvingQuiz (quiz_url : pyval)
| CallingPlanner
| Plan (plan_info : pyval)
| CallingExecutor
| ExecutorResult (answer : pyval)
| StepBanner (number : nat) (current : pyval)   (* --- STEP number: current --- *)
| StepFailed (e : exn)                  (* [ERROR] Step failed: e *)
| StopIncorrect.                        (* [STOP] Answer incorrect and ... *)

(** What has happened so far, the oldest first. *)
Inductive event :=
| Printed (l : line)
| AipipePost (payload : pyval)
| Slept
| Rendered (url : pyval)
| Gathered (url : pyval) (links : list str)
| SubmitPost (url : str) (payload : pyval)
| WaitedFor.

Definition world := list event.

(** The reply to a POST: the outcome of [r.json()] and [r.text]. *)
Record http_response := {
  resp_json : result pyval;
  resp_text : str
}.

(** The collaborators.  An oracle that stands for an interaction is given
    the history, so its answer may change from one call to the next. *)
Record env := {
  (** one network attempt of [call_aipipe_api]: the POST, its status
      check and [r.json()] *)
  aipipe_post : world -> pyval -> result pyval;
  (** [json.dumps] *)
  json_dumps : pyval -> str;
  (** [urllib.parse.urljoin] *)
  urljoin : pyval -> str -> result str;
  (** [render_page]: the page's HTML, its visible text and the [href]s of
      its anchors *)
  render_page : world -> pyval -> result (str * str * list str);
  (** the text of the linked files and PDFs of a page *)
  gather_context : world -> pyval -> list str -> result str;
  (** the two prompt templates *)
  planner_prompt : str -> list str -> str;
  executor_prompt : pyval -> str -> str -> str -> str -> pyval -> str;
  (** the POST of a payload to the submit URL *)
  submit_post : world -> str -> pyval -> result http_response;
  (** stdout: whether its encoding takes the text [str(v)], and the
      message of the [UnicodeEncodeError] that a line raises when it
      does not; the encoding is the same during a run *)
  stdout_takes : pyval -> bool;
  print_error : line -> str;
  (** the message of the [UnicodeEncodeError] of a response body that
      UTF-8 cannot encode *)
  render_error : pyval -> str;
  (** [asyncio.wait_for]: from the history at the start and the events
      the solver goes through when it is left alone, [None] when it is
      done in time and [Some k] when the deadline passes after [k] of
      them *)
  deadline : world -> world -> option nat;
  (** what the request model makes of a field that is neither a text
      nor [null] (it depends on the version of pydantic) *)
  coerce_str : pyval -> option str;
  (** configuration *)
  QUIZ_SECRET : option str;
  QUIZ_EMAIL : option str
}.

(** Computations: they read and extend the history, and return or raise. *)
Definition M (A : Type) := world -> result A * world.

Definition ret {A} (a : A) : M A := fun w => (Ok a, w).
Definition raise {A} (e : exn) : M A := fun w => (Raise e, w).

Definition bind {A B} (m : M A) (f : A -> M B) : M B :=
  fun w =>
    match m w with
    | (Ok a, w') => f a w'
    | (Raise e, w') => (Raise e, w')
    end.

(** [try: m  except Exception as e: h e] *)
Definition try_catch {A} (m : M A) (h : exn -> M A) : M A :=
  fun w =>
    match m w with
    | (Ok a, w') => (Ok a, w')
    | (Raise e, w') => h e w'
    end.

(** A pure step that may raise. *)
Definition lift {A} (r : result A) : M A := fun w => (r, w).

(** An interaction: it is recorded, and the oracle answers from the
    history before it. *)
Definition interact {A} (ev : event) (oracle : world -> result A) : M A :=
  fun w => (oracle w, w ++ [ev]).

(** ** [print]

    [print] encodes the line for stdout and raises [UnicodeEncodeError]
    where the encoding does not take a character of it; nothing is
    written then.  The fixed words of a line are ASCII, which every
    encoding of stdout takes, so a line can be written when the value
    it quotes can. *)

Definition ascii_text (x : str) : bool := forallb (fun c => N.ltb c 128%N) x.

(** UTF-8 takes every code point but the surrogates. *)
Definition surrogate (c : char) : bool := in_range 55296%N 57343%N c.
Definition utf8_text (x : str) : bool := forallb (fun c => negb (surrogate c)) x.

(** Whether [str(v)] can be written.  A text is written as it is; a
    number, a truth value and [None] are written in ASCII; a list or a
    mapping is written as the [repr] of its members, which keeps some
    characters and escapes others. *)
Definition writes (E : env) (v : pyval) : bool :=
  match v with
  | PStr x => (ascii_text x || stdout_takes E v)%bool
  | PList _ | PDict _ => stdout_takes E v
  | PNone | PBool _ | PInt _ | PFloat _ => true
  end.

(** The lines that quote a value from outside can fail: the URL of a
    step, the executor's answer, the message of a failed step.  [Plan]
    quotes [json.dumps(plan_info)], which is ASCII.  [LlmError] quotes
    the exception of a call of the completion endpoint or of the
    look-ups on its answer; its message is made of the configured
    endpoint, a status line and fixed words, and is taken to be
    writable. *)
Definition printable (E : env) (l : line) : bool :=
  match l with
  | SolvingQuiz v | StepBanner _ v | ExecutorResult v => writes E v
  | StepFailed e => writes E (PStr (exn_str e))
  | LlmError _ | CallingPlanner | Plan _ | CallingExecutor | StopIncorrect => true
  end.

Definition print (E : env) (l : line) : M unit :=
  fun w =>
    if printable E l then (Ok tt, w ++ [Printed l])
    else (Raise (UnicodeEncodeError (print_error E l)), w).

(** [asyncio.sleep]; the time it takes is not modelled. *)
Definition sleep : M unit := fun w => (Ok tt, w ++ [Slept]).

Declare Scope py_scope.
Delimit Scope py_scope with py.
Notation "x <- m ;; k" := (bind m (fun x => k))
  (at level 61, m at next level, right associativity) : py_scope.
Notation "m ;; k" := (bind m (fun _ => k))
  (at level 61, right associativity) : py_scope.

(** The same for pure steps. *)
Definition rbind {A B} (r : result A) (f : A -> result B) : result B :=
  match r with
  | Ok a => f a
  | Raise e => Raise e
  end.

(** Unfolds the operations of [M]. *)
Ltac run :=
  unfold bind, try_catch, ret, raise, lift, interact, print, sleep in *;
  cbn [printable] in *.

End World.

(* ================================================================== *)
(** * [app/llm.py] *)
(* ================================================================== *)

Module Llm.
Import Py Re World.
Local Open Scope py_scope.

(** ** JSON repair utilities *)

(** The pattern of [try_extract_json]: an opening brace, anything, a
    closing brace. *)
Definition brace_span : regex :=
  Cat (Chr (ch "{")) (Cat (Star (Cls any_char)) (Chr (ch "}"))).

(** [try_extract_json(text)]; [PNone] is Python's [None]. *)
Definition try_extract_json (text : str) : pyval :=
  match search brace_span text with
  | Some (m, _) =>
      match Json.loads m with
      | Some v => v
      | None => PNone
      end
  | None => PNone
  end.

(** The four patterns of [repair_json_string] and the template of the
    last substitution. *)
Definition control_run : regex := Plus (Cls control).
Definition comma_brace : regex :=
  Cat (Chr (ch ",")) (Cat (Star (Cls isspace)) (Chr (ch "}"))).
Definition comma_bracket : regex :=
  Cat (Chr (ch ",")) (Cat (Star (Cls isspace)) (Chr (ch "]"))).
Definition bare_key : regex :=
  Cat (Group 1 (Alt (Chr (ch "{")) (Chr (ch ","))))
    (Cat (Star (Cls isspace))
       (Cat (Group 2 (Plus (Cls word_char)))
          (Cat (Star (Cls isspace)) (Chr (ch ":"))))).
Definition quoted_key : list piece :=
  [Ref 1; Lit (ch " " :: [DQ]); Ref 2; Lit (DQ :: [ch ":"])].

(** The text [repair_json_string] hands to the parser. *)
Definition repaired_text (text : str) : str :=
  let fixed := strip text in
  let fixed := sub control_run [] fixed in
  let fixed := sub comma_brace [Lit (py "}")] fixed in
  let fixed := sub comma_bracket [Lit (py "]")] fixed in
  sub bare_key quoted_key fixed.

(** [repair_json_string(text)] *)
Definition repair_json_string (text : str) : pyval :=
  match Json.loads (repaired_text text) with
  | Some v => v
  | None => PNone
  end.

Section WithEnv.
Variable E : env.

(** ** The completion endpoint *)

(** [call_aipipe_api(payload)]: the loop over [range(3)].  The result of
    an iteration is [Some v] when it returns [v]. *)
Fixpoint call_aipipe_loop (attempts : list nat) (payload : pyval) : M pyval :=
  match attempts with
  | [] => ret PNone
  | attempt :: rest =>
      r <- try_catch
             (v <- interact (AipipePost payload)
                     (fun w => aipipe_post E w payload) ;;
              ret (Some v))
             (fun e =>
                if Nat.eqb attempt 2 then raise e
                else sleep ;; ret None) ;;
      match r with
      | Some v => ret v
      | None => call_aipipe_loop rest payload
      end
  end.

Definition call_aipipe_api (payload : pyval) : M pyval :=
  call_aipipe_loop (seq 0 3) payload.

(** ** [ask_llm_for_answer] *)

Definition message (role content : str) : pyval :=
  PDict [(py "role", PStr role); (py "content", PStr content)].

Definition system_message : pyval :=
  message (py "system")
    (py "When asked for JSON, ALWAYS return valid JSON only.").

Definition nudge : pyval := message (py "user") (py "Return JSON now.").

(** The request body for the messages sent so far. *)
Definition body (messages : list pyval) : pyval :=
  PDict [(py "model", PStr (py "gpt-4o"));
         (py "messages", PList messages);
         (py "max_tokens", PInt 1500);
         (py "temperature", PInt 0)].

(** The candidate text [out] of a response. *)
Definition candidate (resp : pyval) : result pyval :=
  rbind (contains_key (py "choices") resp) (fun has_choices =>
  if has_choices then
    rbind (getitem_str resp (py "choices")) (fun choices =>
    rbind (getitem_0 choices) (fun first =>
    rbind (getitem_str first (py "message")) (fun msg =>
    getitem_str msg (py "content"))))
  else Ok (PStr (json_dumps E resp))).

(** [out.strip()] *)
Definition method_strip (out : pyval) : result str :=
  match out with
  | PStr x => Ok (strip x)
  | _ =>
      Raise (AttributeError
               (SQ :: type_name out ++ py "' object has no attribute 'strip'"))
  end.

(** The [try] statement of one iteration: [Some out] when it returns
    [out], [None] when the loop goes on. *)
Definition attempt (messages : list pyval) : M (option str) :=
  try_catch
    (resp <- call_aipipe_api (body messages) ;;
     out <- lift (candidate resp) ;;
     stripped <- lift (method_strip out) ;;
     match out, stripped with
     | PStr x, _ :: _ => ret (Some x)
     | _, _ => ret None
     end)
    (fun e => print E (LlmError e) ;; ret None).

(** The loop over [range(3)]; [messages] is [body["messages"]]. *)
Fixpoint ask_loop (attempts : list nat) (messages : list pyval) : M str :=
  match attempts with
  | [] => ret (py "{}")
  | _ :: rest =>
      r <- attempt messages ;;
      match r with
      | Some out => ret out
      | None => ask_loop rest (messages ++ [nudge])
      end
  end.

Definition ask_llm_for_answer (prompt : str) : M str :=
  ask_loop (seq 0 3) [system_message; message (py "user") prompt].

(** ** [llm_json] *)

Definition llm_json (prompt : str) : M pyval :=
  text <- ask_llm_for_answer prompt ;;
  match Json.loads text with
  | Some v => ret v
  | None =>
      let extracted := try_extract_json text in
      if truthy extracted then ret extracted
      else
        let repaired := repair_json_string text in
        if truthy repaired then ret repaired
        else ret (PDict [])
  end.

End WithEnv.

End Llm.

(* ================================================================== *)
(** * [app/solver.py] *)
(* ================================================================== *)

Module Solver.
Import Py Re World.
Local Open Scope py_scope.

(** The two patterns of [find_submit]: a quoted [action=] attribute with
    its value as group 1, and a run of URL characters, the word [submit]
    and whatever follows up to white space or a quote. *)
Definition action_attr : regex :=
  Cat (Word (py "action="))
    (Cat (Cls quote_char)
       (Cat (Group 1 (LazyStar (Cls dot))) (Cls quote_char))).

Definition url_token : regex :=
  Group 1
    (Cat (Plus (Cls url_char))
       (Cat (Word (py "submit")) (Star (Cls not_space_or_quote)))).

(** [d.get(k)] on a dict *)
Definition dict_get_or_none (d : dict) (k : str) : pyval :=
  match dict_get d k with
  | Some v => v
  | None => PNone
  end.

(** [v.get(k)] on any value *)
Definition method_get (v : pyval) (k : str) : result pyval :=
  match v with
  | PDict d => Ok (dict_get_or_none d k)
  | _ =>
      Raise (AttributeError
               (SQ :: type_name v ++ py "' object has no attribute 'get'"))
  end.

(** [v is False] *)
Definition is_False (v : pyval) : bool :=
  match v with
  | PBool false => true
  | _ => false
  end.

(** The truth value of an optional text. *)
Definition found (u : option str) : bool :=
  match u with
  | Some (_ :: _) => true
  | _ => false
  end.

Section WithEnv.
Variable E : env.

(** ** URL normalization *)

Definition normalize_url (base : pyval) (raw : str) : option str :=
  match raw with
  | [] => None
  | _ :: _ =>
      let raw := strip raw in
      if (startswith (py "http://") raw || startswith (py "https://") raw)%bool
      then Some raw
      else
        match urljoin E base raw with
        | Ok u => Some u
        | Raise _ => None
        end
  end.

Definition mentions_submit (x : str) : bool := contains (py "submit") x.

Definition find_submit (html : str) (links : list str) (base_url : pyval)
  : option str :=
  match find (fun link => mentions_submit (lower link)) links with
  | Some link => normalize_url base_url link
  | None =>
      match find mentions_submit (findall1 action_attr html) with
      | Some m => normalize_url base_url m
      | None =>
          match findall1 url_token html with
          | m :: _ => normalize_url base_url m
          | [] => None
          end
      end
  end.

(** ** Solving one task *)

(** Everything [solve_single] does before it submits: render the page,
    gather the linked files, ask the planner and then the executor.  It
    hands over the page's HTML, its links and the executor's result. *)
Definition prepare (email secret : str) (quiz_url : pyval)
  : M (str * list str * pyval) :=
  print E (SolvingQuiz quiz_url) ;;
  page <- interact (Rendered quiz_url) (fun w => render_page E w quiz_url) ;;
  let '(html, text, links) := page in
  context_data <- interact (Gathered quiz_url links)
                    (fun w => gather_context E w quiz_url links) ;;
  print E CallingPlanner ;;
  plan_info <- Llm.llm_json E (planner_prompt E html links) ;;
  print E (Plan plan_info) ;;
  print E CallingExecutor ;;
  result <- Llm.llm_json E
              (executor_prompt E plan_info html context_data email secret quiz_url) ;;
  answer <- lift (method_get result (py "answer")) ;;
  print E (ExecutorResult answer) ;;
  ret (html, links, result).

(** The submission: from [find_submit] to the end of [solve_single]. *)
Definition submit_answer (html : str) (links : list str) (quiz_url : pyval)
    (result : pyval) : M dict :=
  let submit_url := find_submit html links quiz_url in
  has_payload <- (if found submit_url
                  then lift (contains_key (py "submit_payload") result)
                  else ret false) ;;
  match submit_url, has_payload with
  | Some url, true =>
      try_catch
        (payload <- lift (getitem_str result (py "submit_payload")) ;;
         r <- interact (SubmitPost url payload)
                (fun w => submit_post E w url payload) ;;
         try_catch
           (resp <- lift (resp_json r) ;;
            answer <- lift (getitem_str result (py "answer")) ;;
            ret [(py "submitted", PBool true);
                 (py "response", resp);
                 (py "answer", answer)])
           (fun _ =>
              answer <- lift (getitem_str result (py "answer")) ;;
              ret [(py "submitted", PBool true);
                   (py "response", PStr (resp_text r));
                   (py "answer", answer)]))
        (fun e =>
           answer <- lift (getitem_str result (py "answer")) ;;
           ret [(py "submitted", PBool true);
                (py "error", PStr (exn_str e));
                (py "answer", answer)])
  | _, _ =>
      ret [(py "submitted", PBool false); (py "result", result)]
  end.

Definition solve_single (email secret : str) (quiz_url : pyval) : M dict :=
  got <- prepare email secret quiz_url ;;
  let '(html, links, result) := got in
  submit_answer html links quiz_url result.

End WithEnv.

(** ** The quiz chain runner *)

(** An entry of the trace. *)
Definition quiz_step (current : pyval) (step : dict) : pyval :=
  PDict [(py "url", current); (py "result", PDict step)].

(** The [try] statement of one iteration: the step's result, or the
    record of its failure.  The handler prints before it makes the
    record; where that line cannot be written, the exception of [print]
    leaves the handler. *)
Definition attempt_step (E : env) (solve : pyval -> M dict) (current : pyval)
  : M dict :=
  try_catch (solve current)
    (fun e => print E (StepFailed e) ;; ret [(py "error", PStr (exn_str e))]).

(** [next_url] as the iteration computes it from the step. *)
Definition next_url_of (step : dict) : pyval :=
  match dict_get step (py "response") with
  | Some (PDict response) => dict_get_or_none response (py "url")
  | _ => PNone
  end.

(** Whether the iteration takes the [break] under [STOP]. *)
Definition stops_incorrect (step : dict) : bool :=
  match dict_get step (py "response") with
  | Some (PDict response) =>
      (is_False (dict_get_or_none response (py "correct"))
       && negb (truthy (next_url_of step)))%bool
  | _ => false
  end.

(** The loop over [range(12)]: [iterations] is what is left of the range,
    [steps] the trace so far.  The banner is printed before the [try]
    statement: where it cannot be written the loop raises, and the
    trace is lost. *)
Fixpoint chain_loop (E : env) (solve : pyval -> M dict) (iterations : list nat)
    (current : pyval) (steps : list pyval) : M (list pyval) :=
  match iterations with
  | [] => ret steps
  | i :: rest =>
      print E (StepBanner (i + 1) current) ;;
      step <- attempt_step E solve current ;;
      let steps := steps ++ [quiz_step current step] in
      let next_url := next_url_of step in
      if stops_incorrect step then print E StopIncorrect ;; ret steps
      else if negb (truthy next_url) then ret steps
      else chain_loop E solve rest next_url steps
  end.

Definition solve_quiz_chain (E : env) (email secret : str) (url : pyval)
    (owner_email : pyval) : M (list pyval) :=
  chain_loop E (solve_single E email secret) (seq 0 12) url [].

End Solver.

(* ================================================================== *)
(** * [app/main.py] *)
(* ================================================================== *)

Module Main.
Import Py World.
Local Open Scope py_scope.

Record QuizPayload := {
  email : str;
  secret : str;
  url : str
}.

(** A [JSONResponse] as it is sent. *)
Record response := {
  status_code : Z;
  content : pyval
}.

Definition opt_str_eqb (a : option str) (b : str) : bool :=
  match a with
  | Some x => str_eqb x b
  | None => false
  end.

Definition opt_str_val (a : option str) : pyval :=
  match a with
  | Some x => PStr x
  | None => PNone
  end.

(** ** The request model

    The framework reads the body of the request as a [QuizPayload]
    before it calls the handler.  A field that is a text is taken as it
    is; a field that is missing or [null] fails. *)
Definition str_field (E : env) (body : dict) (k : str) : option str :=
  match dict_get body k with
  | Some (PStr x) => Some x
  | Some PNone | None => None
  | Some v => coerce_str E v
  end.

Definition validate (E : env) (body : pyval) : option QuizPayload :=
  match body with
  | PDict d =>
      match str_field E d (py "email"), str_field E d (py "secret"),
            str_field E d (py "url") with
      | Some e, Some s, Some u => Some {| email := e; secret := s; url := u |}
      | _, _, _ => None
      end
  | _ => None
  end.

(** ** Rendering a response

    [JSONResponse(content)] renders its content when it is built, with
    [json.dumps(..., ensure_ascii=False, allow_nan=False)] and then
    [.encode("utf-8")]: a float that is not finite raises [ValueError],
    a surrogate in a text or a key raises [UnicodeEncodeError]. *)

(** A decimal literal denotes a finite double when it is below the
    midpoint of the largest double and [2 ^ 1024]. *)
Definition float_finite (f : pyfloat) : bool :=
  match f with
  | FNan | FInf _ => false
  | FDec _ c e =>
      if (0 <=? e)%Z then (Z.of_N c * 10 ^ e <? 2 ^ 1024 - 2 ^ 970)%Z
      else (Z.of_N c <? (2 ^ 1024 - 2 ^ 970) * 10 ^ (- e))%Z
  end.

Fixpoint finite_floats (v : pyval) : bool :=
  match v with
  | PFloat f => float_finite f
  | PList l => forallb finite_floats l
  | PDict d => forallb (fun kv => finite_floats (snd kv)) d
  | PNone | PBool _ | PInt _ | PStr _ => true
  end.

Fixpoint utf8_value (v : pyval) : bool :=
  match v with
  | PStr x => utf8_text x
  | PList l => forallb utf8_value l
  | PDict d => forallb (fun kv => (utf8_text (fst kv) && utf8_value (snd kv))%bool) d
  | PNone | PBool _ | PInt _ | PFloat _ => true
  end.

Definition renderable (v : pyval) : bool :=
  (finite_floats v && utf8_value v)%bool.

Section WithEnv.
Variable E : env.

Definition json_response (status : Z) (body : pyval) : result response :=
  if negb (finite_floats body)
  then Raise (ValueError (py "Out of range float values are not JSON compliant"))
  else if negb (utf8_value body)
  then Raise (UnicodeEncodeError (render_error E body))
  else Ok {| status_code := status; content := body |}.

(** [asyncio.wait_for(m, timeout)]: the solver runs until it is done or
    the deadline passes; what it did until then has happened.  Then it
    is cancelled and [TimeoutError] is raised. *)
Definition wait_for {A} (m : M A) : M A :=
  fun w =>
    let (r, w') := m w in
    let evs := skipn (length w) w' in
    match deadline E w evs with
    | None => (r, w')
    | Some k => (Raise TimeoutError, w ++ firstn k evs ++ [WaitedFor])
    end.

(** The bodies the handler answers with. *)
Definition ok_body (trace : list pyval) : pyval :=
  PDict [(py "status", PStr (py "ok")); (py "result", PList trace)].
Definition timeout_body : pyval :=
  PDict [(py "status", PStr (py "timeout"));
         (py "detail", PStr (py "Solver timed out"))].
Definition error_body (detail : str) : pyval :=
  PDict [(py "status", PStr (py "error")); (py "detail", PStr detail)].

(** The handler.  The two responses of the [except] clauses and the last
    response are built outside the [try] statement. *)
Definition quiz_endpoint (payload : QuizPayload) : M response :=
  if negb (opt_str_eqb (QUIZ_SECRET E) (secret payload))
  then raise (HTTPException 403 (py "Invalid secret"))
  else
    match url payload with
    | [] => raise (HTTPException 400 (py "Missing url field"))
    | _ :: _ =>
        r <- try_catch
               (result <- wait_for
                            (Solver.solve_quiz_chain E (email payload)
                               (secret payload) (PStr (url payload))
                               (opt_str_val (QUIZ_EMAIL E))) ;;
                ret (inr result))
               (fun e =>
                  match e with
                  | TimeoutError =>
                      early <- lift (json_response 200 timeout_body) ;;
                      ret (inl early)
                  | _ =>
                      early <- lift (json_response 200 (error_body (exn_str e))) ;;
                      ret (inl early)
                  end) ;;
        match r with
        | inl early => ret early
        | inr result => lift (json_response 200 (ok_body result))
        end
    end.

(** What the caller gets: a response, the refusal of a body that is not
    a [QuizPayload] (status 422), or the framework's answer to an
    exception that is not an [HTTPException] (status 500). *)
Inductive reply :=
| Sent (r : response)
| Unprocessable
| ServerError.

Definition status (r : reply) : Z :=
  match r with
  | Sent r => status_code r
  | Unprocessable => 422
  | ServerError => 500
  end.

Definition post_quiz (body : pyval) (w : world) : reply * world :=
  match validate E body with
  | None => (Unprocessable, w)
  | Some payload =>
      match quiz_endpoint payload w with
      | (Ok r, w') => (Sent r, w')
      | (Raise (HTTPException code detail), w') =>
          (Sent {| status_code := code;
                   content := PDict [(py "detail", PStr detail)] |}, w')
      | (Raise _, w') => (ServerError, w')
      end
  end.

End WithEnv.

End Main.

(* ================================================================== *)
(** * What the statements below talk about *)
(* ================================================================== *)

Module Observe.
Import Py World.

(** The payloads posted to the completion endpoint, the oldest first. *)
Fixpoint aipipe_posts (w : world) : list pyval :=
  match w with
  | [] => []
  | AipipePost payload :: w' => payload :: aipipe_posts w'
  | _ :: w' => aipipe_posts w'
  end.

(** A text with a character that is not white space. *)
Definition nonblank (x : str) : bool :=
  match strip x with
  | [] => false
  | _ :: _ => true
  end.

(** An entry of a trace, written out. *)
Definition trace_entry (url : pyval) (step : dict) : pyval :=
  PDict [(py "url", url); (py "result", PDict step)].

(** The [url] of an entry of the trace. *)
Definition entry_url (e : pyval) : pyval :=
  match e with
  | PDict d => Solver.dict_get_or_none d (py "url")
  | _ => PNone
  end.

(** The next URL an entry leads to: what its result holds under [url]
    in a [response] that is a mapping. *)
Definition entry_next (e : pyval) : pyval :=
  match e with
  | PDict d =>
      match dict_get d (py "result") with
      | Some (PDict step) =>
          match dict_get step (py "response") with
          | Some (PDict response) => Solver.dict_get_or_none response (py "url")
          | _ => PNone
          end
      | _ => PNone
      end
  | _ => PNone
  end.

(** Whether the response of an entry is a mapping with the key [url],
    whatever is under it. *)
Definition entry_has_url (e : pyval) : bool :=
  match e with
  | PDict d =>
      match dict_get d (py "result") with
      | Some (PDict step) =>
          match dict_get step (py "response") with
          | Some (PDict response) => dict_has response (py "url")
          | _ => false
          end
      | _ => false
      end
  | _ => false
  end.

(** [attempted E solve current w step w']: from the history [w],
    solving [current] came to the record [step] and left the history
    [w']: the record [solve] returned, or the record of the exception
    it raised, after the line that reports it. *)
Inductive attempted (E : env) (solve : pyval -> M dict) (current : pyval)
    (w : world) : dict -> world -> Prop :=
| attempted_ok step w' :
    solve current w = (Ok step, w') ->
    attempted E solve current w step w'
| attempted_failed e w' :
    solve current w = (Raise e, w') ->
    printable E (StepFailed e) = true ->
    attempted E solve current w [(py "error", PStr (exn_str e))]
      (w' ++ [Printed (StepFailed e)]).

(** [visits E solve numbers current w trace w']: [trace] lists, entry
    by entry, a run of steps numbered from the head of [numbers] on:
    the first is the attempt on [current] from the history [w], after
    its banner; every later one is the attempt on the next URL of the
    step before it, which counts as true, from the history that step
    left. *)
Inductive visits (E : env) (solve : pyval -> M dict)
  : list nat -> pyval -> world -> list pyval -> world -> Prop :=
| visits_last i numbers current w step w' :
    attempted E solve current (w ++ [Printed (StepBanner (i + 1) current)])
      step w' ->
    visits E solve (i :: numbers) current w [trace_entry current step] w'
| visits_next i numbers current w step w1 rest w' :
    attempted E solve current (w ++ [Printed (StepBanner (i + 1) current)])
      step w1 ->
    truthy (Solver.next_url_of step) = true ->
    visits E solve numbers (Solver.next_url_of step) w1 rest w' ->
    visits E solve (i :: numbers) current w (trace_entry current step :: rest) w'.

(** The pages handed to [render_page], the oldest first. *)
Fixpoint rendered (w : world) : list pyval :=
  match w with
  | [] => []
  | Rendered url :: w' => url :: rendered w'
  | _ :: w' => rendered w'
  end.

(** The POSTs to a submit URL: the URL and the payload. *)
Fixpoint submit_posts (w : world) : list (str * pyval) :=
  match w with
  | [] => []
  | SubmitPost url payload :: w' => (url, payload) :: submit_posts w'
  | _ :: w' => submit_posts w'
  end.

End Observe.

(* ================================================================== *)
(** * Environments to run the program in *)
(* ================================================================== *)

Module Examples.
Import Py World Observe.

(** A stdout in UTF-8: it takes every text without surrogates, and the
    [repr] of every list and mapping. *)
Definition utf8_stdout (v : pyval) : bool :=
  match v with
  | PStr x => utf8_text x
  | _ => true
  end.

(** A completion in the OpenAI format. *)
Definition chat_reply (content : str) : pyval :=
  PDict [(py "choices",
          PList [PDict [(py "message",
                         PDict [(py "role", PStr (py "assistant"));
                                (py "content", PStr content)])]])].

(** A page with a form and no anchors. *)
Definition form_html : str :=
  py "<form action=" ++ quoted (py "/submit") ++ py ">".
Definition form_page : result (str * str * list str) :=
  Ok (form_html, py "What is 6 times 7?", []).

(** An environment from a model, a page and a quiz server.  Relative
    URLs are joined onto one host; the models below answer in the OpenAI
    format, so [json_dumps] is not reached in their runs. *)
Definition quiz_env (model : world -> result pyval)
    (page : result (str * str * list str))
    (server : world -> result http_response) : env := {|
  aipipe_post := fun w _ => model w;
  json_dumps := fun _ => py "null";
  urljoin := fun _ raw => Ok (py "http://quiz.test" ++ raw);
  render_page := fun _ _ => page;
  gather_context := fun _ _ _ => Ok [];
  planner_prompt := fun _ _ => py "PLANNER";
  executor_prompt := fun _ _ _ _ _ _ => py "EXECUTOR";
  submit_post := fun w _ _ => server w;
  stdout_takes := utf8_stdout;
  print_error := fun _ => py "surrogates not allowed";
  render_error := fun _ => py "surrogates not allowed";
  deadline := fun _ _ => None;
  coerce_str := fun _ => None;
  QUIZ_SECRET := Some (py "s3cret");
  QUIZ_EMAIL := Some (py "owner@quiz.test")
|}.

(** An environment whose deadline passes after the first three events
    of the solver. *)
Definition slow_env : env := {|
  aipipe_post := fun _ _ => Raise (OtherError (py "ConnectError") (py "down"));
  json_dumps := fun _ => py "null";
  urljoin := fun _ raw => Ok (py "http://quiz.test" ++ raw);
  render_page := fun _ _ => form_page;
  gather_context := fun _ _ _ => Ok [];
  planner_prompt := fun _ _ => py "PLANNER";
  executor_prompt := fun _ _ _ _ _ _ => py "EXECUTOR";
  submit_post := fun _ _ _ => Raise (OtherError (py "ConnectError") (py "down"));
  stdout_takes := utf8_stdout;
  print_error := fun _ => py "surrogates not allowed";
  render_error := fun _ => py "surrogates not allowed";
  deadline := fun _ _ => Some 3;
  coerce_str := fun _ => None;
  QUIZ_SECRET := Some (py "s3cret");
  QUIZ_EMAIL := None
|}.

(** An executor answer with a payload, and one without [answer]. *)
Definition full_answer : str :=
  py "{" ++ quoted (py "answer") ++ py ": 42, "
  ++ quoted (py "submit_payload") ++ py ": {"
  ++ quoted (py "answer") ++ py ": 42}}".

Definition json_reply (v : pyval) : result http_response :=
  Ok {| resp_json := Ok v; resp_text := [] |}.

Definition next_page : str := py "http://quiz.test/next".

(** The model answers with a JSON array. *)
Definition array_env : env :=
  quiz_env (fun _ => Ok (chat_reply (py "[1, 2]"))) form_page
    (fun _ => json_reply (PDict [])).

(** The model first answers with one space, then with a word. *)
Definition blank_env : env :=
  quiz_env (fun w => match aipipe_posts w with
                     | [] => Ok (chat_reply (py " "))
                     | _ :: _ => Ok (chat_reply (py "ok"))
                     end)
    form_page (fun _ => json_reply (PDict [])).

(** The endpoint is down at the first call and answers afterwards. *)
Definition flaky_env : env :=
  quiz_env (fun w => match aipipe_posts w with
                     | [] | [_] | [_; _] =>
                         Raise (OtherError (py "ConnectError") (py "down"))
                     | _ => Ok (chat_reply full_answer)
                     end)
    form_page (fun _ => json_reply (PDict [])).

(** The model answers in prose. *)
Definition prose_env : env :=
  quiz_env (fun _ => Ok (chat_reply (py "I cannot answer that.")))
    form_page (fun _ => json_reply (PDict [])).

(** The model's response has an empty list of choices. *)
Definition no_choice_env : env :=
  quiz_env (fun _ => Ok (PDict [(py "choices", PList [])])) form_page
    (fun _ => json_reply (PDict [])).

(** The endpoint is always down. *)
Definition down_env : env :=
  quiz_env (fun _ => Raise (OtherError (py "ConnectError") (py "down")))
    form_page (fun _ => json_reply (PDict [])).

(** The quiz server marks the answer wrong and names no next page. *)
Definition wrong_env : env :=
  quiz_env (fun _ => Ok (chat_reply full_answer)) form_page
    (fun _ => json_reply (PDict [(py "correct", PBool false)])).

(** The quiz server marks the answer wrong and names a next page. *)
Definition retry_env : env :=
  quiz_env (fun _ => Ok (chat_reply full_answer)) form_page
    (fun _ => json_reply (PDict [(py "correct", PBool false);
                                 (py "url", PStr next_page)])).

(** The quiz server answers with an empty text under [url]. *)
Definition empty_url_env : env :=
  quiz_env (fun _ => Ok (chat_reply full_answer)) form_page
    (fun _ => json_reply (PDict [(py "url", PStr [])])).

(** The quiz server answers with text that is not JSON. *)
Definition text_env : env :=
  quiz_env (fun _ => Ok (chat_reply full_answer)) form_page
    (fun _ => Ok {| resp_json := Raise (ValueError (py "Expecting value"));
                    resp_text := py "<html>Bad Gateway</html>" |}).

(** The browser cannot be started. *)
Definition broken_env : env :=
  quiz_env (fun _ => Ok (chat_reply full_answer))
    (Raise (OtherError (py "Error") (py "Executable doesn't exist")))
    (fun _ => json_reply (PDict [])).


Definition start : pyval := PStr (py "http://quiz.test/start").

(** The result of a step that submitted 42 and got [response] back. *)
Definition submitted_step (response : pyval) : dict :=
  [(py "submitted", PBool true); (py "response", response);
   (py "answer", PInt 42)].

Definition wrong_response : dict := [(py "correct", PBool false)].
Definition retry_response : dict :=
  [(py "correct", PBool false); (py "url", PStr next_page)].

(** A text that UTF-8 cannot encode: one lone surrogate, U+D800, as
    [json.loads] reads it from the escape [\ud800]. *)
Definition lone_surrogate : str := [55296%N].

(** The quiz server names a next page that stdout cannot write. *)
Definition lost_env : env :=
  quiz_env (fun _ => Ok (chat_reply full_answer)) form_page
    (fun _ => json_reply (PDict [(py "correct", PBool true);
                                 (py "url", PStr lone_surrogate)])).

(** The page makes the browser fail with a message that stdout cannot
    write. *)
Definition garbled_env : env :=
  quiz_env (fun _ => Ok (chat_reply full_answer))
    (Raise (OtherError (py "Error") (py "Page.evaluate: Error: " ++ lone_surrogate)))
    (fun _ => json_reply (PDict [])).

(** The executor answers with [NaN], which [json.loads] accepts. *)
Definition nan_answer : str :=
  py "{" ++ quoted (py "answer") ++ py ": NaN, "
  ++ quoted (py "submit_payload") ++ py ": {"
  ++ quoted (py "answer") ++ py ": 0}}".
Definition nan_env : env :=
  quiz_env (fun _ => Ok (chat_reply nan_answer)) form_page
    (fun _ => json_reply (PDict [(py "correct", PBool true)])).

(** Request bodies. *)
Definition request (email secret url : pyval) : pyval :=
  PDict [(py "email", email); (py "secret", secret); (py "url", url)].
Definition good_request : pyval :=
  request (PStr (py "a@b.c")) (PStr (py "s3cret"))
    (PStr (py "http://quiz.test/start")).
Definition bad_secret_request : pyval :=
  request (PStr (py "a@b.c")) (PStr (py "guess"))
    (PStr (py "http://quiz.test/start")).
Definition empty_url_request : pyval :=
  request (PStr (py "a@b.c")) (PStr (py "s3cret")) (PStr []).
Definition no_url_request : pyval :=
  PDict [(py "email", PStr (py "a@b.c")); (py "secret", PStr (py "s3cret"))].

End Examples.

(* ================================================================== *)
(** * Reading patterns and texts *)
(* ================================================================== *)

Module Text.
Import Py Re.

(** The numbers of the groups of a pattern. *)
Fixpoint groups (r : regex) : list nat :=
  match r with
  | Eps | Chr _ | Cls _ => []
  | Cat r1 r2 | Alt r1 r2 => groups r1 ++ groups r2
  | Star r1 | LazyStar r1 => groups r1
  | Group n r1 => n :: groups r1
  end.

(** What follows the last [a] of [x], if [x] has one. *)
Fixpoint after_last (a : char) (x : str) : option str :=
  match x with
  | [] => None
  | b :: x' =>
      match after_last a x' with
      | Some r => Some r
      | None => if N.eqb a b then Some x' else None
      end
  end.

(** No character of [x] is [a]. *)
Definition lacks (a : char) (x : str) : bool :=
  forallb (fun b => negb (N.eqb a b)) x.

(** What a successful match does with its continuation: it calls it on
    a suffix of the text, with captures that differ from the ones before
    only in the groups [gs]. *)
Definition called {R} (x : str) (c : caps) (gs : list nat) (k : cont R)
    (res : R) : Prop :=
  exists u x' c',
    x = u ++ x'
    /\ (forall n, ~ In n gs -> group c' n = group c n)
    /\ k x' c' = Some res.

End Text.

(* ================================================================== *)
(** * Reading the history *)
(* ================================================================== *)

Module Account.
Import Py World Observe.

(** The calls of [asyncio.sleep]. *)
Fixpoint sleeps (w : world) : nat :=
  match w with
  | [] => 0
  | Slept :: w' => S (sleeps w')
  | _ :: w' => sleeps w'
  end.

(** What a computation adds to the history: which pages it renders, and
    at most how many requests it posts to the completion endpoint and to
    submit URLs. *)
Definition footprint (pages : list pyval) (posts submits : nat) (evs : world)
  : Prop :=
  rendered evs = pages
  /\ length (aipipe_posts evs) <= posts
  /\ length (submit_posts evs) <= submits.

Definition adds {A} (m : M A) (P : world -> Prop) : Prop :=
  forall w, exists evs, snd (m w) = w ++ evs /\ P evs.

(** The history after [failed] failed attempts of [call_aipipe_api],
    each followed by a sleep. *)
Fixpoint after_failures (payload : pyval) (w : world) (failed : nat) : world :=
  match failed with
  | O => w
  | S n => after_failures payload w n ++ [AipipePost payload; Slept]
  end.

End Account.

(* ================================================================== *)
(** * [app/solver.py]: the linked files *)
(* ================================================================== *)

Module Fetch.
Import Py World Solver.

(** What [fetch_linked_resources] does to the outside: the requests of
    [download], and the warnings it prints.  Both lines quote the URL of
    the file, which comes from the links the browser reports; they are
    taken to be written, so that a line that stdout cannot encode is
    outside this model of the function. *)
Inductive fetch_event :=
| Downloading (url : str)
| FetchWarning (url : str) (e : exn).

(** The network and the interpreter.  [download] answers from what this
    call has done so far; [decode] is [bytes.decode] with replacement,
    which never raises; [set_order] is the order in which a [set] hands
    out its elements, which changes from one process to the next. *)
Record net := {
  download : list fetch_event -> str -> result (list N);
  decode : list N -> str;
  set_order : list str -> list str
}.

Definition str_eq_dec : forall x y : str, {x = y} + {x <> y} :=
  list_eq_dec N.eq_dec.

(** A [set] hands out every element once. *)
Definition set_order_ok (n : net) : Prop :=
  forall ts, Permutation (set_order n ts) (nodup str_eq_dec ts).

Definition nl : char := 10%N.

Definition extensions : list str :=
  [py ".csv"; py ".txt"; py ".json"; py ".log"; py ".xml"; py ".md"].

(** [x.split(a)[0]] *)
Fixpoint before (a : char) (x : str) : str :=
  match x with
  | [] => []
  | b :: x' => if N.eqb b a then [] else b :: before a x'
  end.

(** [x.endswith(s)] *)
Definition endswith (s x : str) : bool := startswith (rev s) (rev x).

(** The test on [full_url].  [lower] lowers the ASCII capitals only;
    Python lowers two characters outside ASCII to letters of ASCII, to
    [i] and to [k], and no extension has either, so the test is the
    same. *)
Definition has_extension (full_url : str) : bool :=
  let path := lower (before (ch "?") full_url) in
  existsb (fun ext => endswith ext path) extensions.

(** The first loop: the URLs to download, in the order of the links. *)
Definition target (E : env) (base_url : pyval) (link : str) : list str :=
  match normalize_url E base_url link with
  | Some (c :: u) => if has_extension (c :: u) then [c :: u] else []
  | _ => []
  end.

Definition targets (E : env) (base_url : pyval) (links : list str) : list str :=
  flat_map (target E base_url) links.

Definition snippet_limit : nat := 15 * 1000.

(** What a downloaded file adds to the text. *)
Definition entry (url text : str) : str :=
  [nl; nl] ++ py "--- CONTENT OF LINKED FILE: " ++ url ++ py " ---" ++ [nl]
  ++ firstn snippet_limit text ++ [nl]
  ++ (if Nat.ltb snippet_limit (length text)
      then py "... [Content Truncated] ..." ++ [nl]
      else []).

(** The second loop. *)
Fixpoint fetch_loop (n : net) (urls : list str) (resource_text : str)
    (h : list fetch_event) : str * list fetch_event :=
  match urls with
  | [] => (resource_text, h)
  | url :: rest =>
      match download n h url with
      | Ok content =>
          fetch_loop n rest (resource_text ++ entry url (decode n content))
            (h ++ [Downloading url])
      | Raise e =>
          fetch_loop n rest resource_text
            (h ++ [Downloading url; FetchWarning url e])
      end
  end.

Definition fetch_linked_resources (E : env) (n : net) (base_url : pyval)
    (links : list str) (h : list fetch_event) : str * list fetch_event :=
  fetch_loop n (set_order n (targets E base_url links)) [] h.


(** The most a file named [url] adds to the text. *)
Definition entry_budget (url : str) : nat := length url + (snippet_limit + 64).

(** A network where one file is missing, with sets in the order of first
    insertion. *)
Definition sample_net : net := {|
  download := fun _ url =>
    if str_eqb url (py "http://quiz.test/data.csv")
    then Ok [97; 44; 98; 10; 49; 44; 50]%N
    else Raise (OtherError (py "HTTPStatusError") (py "404 Not Found"));
  decode := fun bytes => bytes;
  set_order := fun ts => nodup str_eq_dec ts
|}.

Definition sample_links : list str :=
  [py "/data.csv"; py "/notes.TXT?v=2"; py "/data.csv"; py "/paper.pdf"].

End Fetch.

(* ================================================================== *)
(** * More environments *)
(* ================================================================== *)

Module MoreExamples.
Import Py World Observe Examples.

(** An answer between spaces, with a bare key and a trailing comma. *)
Definition sloppy_answer : str := py " {answer: 42,} ".

Definition sloppy_env : env :=
  quiz_env (fun _ => Ok (chat_reply sloppy_answer)) form_page
    (fun _ => json_reply (PDict [])).

End MoreExamples.

(* ================================================================== *)
(** * The bounds of the JSON decoder are never reached *)
(* ================================================================== *)

Module JsonFacts.
Import Py Json.

Lemma skip_ws_length (x : str) : length (skip_ws x) <= length x.
Proof.
  induction x as [|c x IH]; simpl; [lia|].
  destruct (is_ws c); simpl; lia.
Qed.

Lemma span_digits_length (x : str) : length (snd (span_digits x)) <= length x.
Proof.
  induction x as [|c x IH]; simpl; [lia|].
  destruct (is_digit c); [|simpl; lia].
  destruct (span_digits x) as [ds r]. simpl in *. lia.
Qed.

Lemma skipn_shorter (n : nat) (x : str) :
  0 < n -> x <> [] -> length (skipn n x) < length x.
Proof.
  intros Hn Hx. rewrite length_skipn.
  destruct x; [congruence|cbn [length]; lia].
Qed.

(** What follows a string literal is shorter than its body. *)
Lemma scanstring_shorter (n : nat) :
  forall x acc s r,
    length x <= n ->
    scanstring x acc = Some (s, r) ->
    length r < length x.
Proof.
  induction n as [|n IH]; intros x acc s r Hn H.
  - destruct x; [discriminate|simpl in Hn; lia].
  - destruct x as [|c rest]; [discriminate|].
    cbn [scanstring] in H. cbn [length] in *.
    destruct (N.eqb c 34).
    { injection H as _ <-. lia. }
    destruct (N.eqb c 92).
    + destruct rest as [|e rest1]; [discriminate|].
      cbn [length] in *.
      destruct (N.eqb e 117).
      * destruct rest1 as [|h1 [|h2 [|h3 [|h4 rest2]]]]; try discriminate.
        cbn [length] in *.
        destruct (hex4 h1 h2 h3 h4) as [cp|]; [|discriminate].
        assert (Hplain : forall a, scanstring rest2 a = Some (s, r) ->
                                   length r < S (S (S (S (S (S (length rest2))))))).
        { intros a Ha. apply IH in Ha; lia. }
        destruct (is_high_surrogate cp); [|now apply Hplain in H].
        destruct rest2 as [|b [|u [|l1 [|l2 [|l3 [|l4 rest3]]]]]];
          try (now apply Hplain in H).
        destruct (N.eqb b 92 && N.eqb u 117)%bool; [|now apply Hplain in H].
        destruct (hex4 l1 l2 l3 l4) as [cp2|]; [|discriminate].
        destruct (is_low_surrogate cp2); [|now apply Hplain in H].
        apply IH in H; cbn [length] in *; lia.
      * destruct (unescape e); [|discriminate].
        apply IH in H; lia.
    + destruct (N.leb c 31); [discriminate|].
      apply IH in H; lia.
Qed.

Lemma match_number_shorter (x : str) (v : pyval) (r : str) :
  match_number x = Some (v, r) -> length r < length x.
Proof.
  unfold match_number.
  set (sign := match x with
               | c :: x' => if N.eqb c 45%N then (true, x') else (false, x)
               | [] => (false, x)
               end).
  assert (Hsign : length (snd sign) <= length x).
  { subst sign. destruct x as [|c x']; [simpl; lia|].
    destruct (N.eqb c 45%N); simpl; lia. }
  destruct sign as [neg x1]. cbn [snd] in Hsign.
  set (int_part := match x1 with
                   | c :: x' =>
                       if N.eqb c 48%N then Some ([c], x')
                       else if in_range 49%N 57%N c then Some (span_digits x1)
                       else None
                   | [] => None
                   end).
  assert (Hint : forall ids x2, int_part = Some (ids, x2) -> length x2 < length x1).
  { subst int_part. intros ids x2. destruct x1 as [|c x']; [discriminate|].
    destruct (N.eqb c 48%N).
    - intros H. injection H as _ <-. simpl. lia.
    - destruct (in_range 49%N 57%N c) eqn:Hr; [|discriminate].
      intros H. injection H as H.
      pose proof (span_digits_length x') as Hl.
      cbn [span_digits] in H.
      assert (Hd : is_digit c = true).
      { unfold is_digit, in_range in *.
        apply andb_true_iff in Hr as [Hlo Hhi].
        apply N.leb_le in Hlo. apply andb_true_iff. split; [|exact Hhi].
        apply N.leb_le. lia. }
      rewrite Hd in H. destruct (span_digits x') as [ds r']. cbn [snd] in Hl.
      injection H as _ <-. simpl. lia. }
  destruct int_part as [[ids x2]|]; [|discriminate].
  specialize (Hint ids x2 eq_refl).
  set (frac := match x2 with
               | c :: x' =>
                   if N.eqb c 46%N then
                     match span_digits x' with
                     | ([], _) => (None, x2)
                     | (fds, r) => (Some fds, r)
                     end
                   else (None, x2)
               | [] => (None, x2)
               end).
  assert (Hfrac : length (snd frac) <= length x2).
  { subst frac. destruct x2 as [|c x']; [simpl; lia|].
    destruct (N.eqb c 46%N); [|simpl; lia].
    pose proof (span_digits_length x') as Hl.
    destruct (span_digits x') as [[|d ds] r']; simpl in *; lia. }
  destruct frac as [fr x3]. cbn [snd] in Hfrac.
  set (expo := match x3 with
               | c :: x' =>
                   if (N.eqb c 101%N || N.eqb c 69%N)%bool then
                     let (eneg, x'') :=
                       match x' with
                       | s :: r =>
                           if N.eqb s 45%N then (true, r)
                           else if N.eqb s 43%N then (false, r)
                           else (false, x')
                       | [] => (false, x')
                       end in
                     match span_digits x'' with
                     | ([], _) => (None, x3)
                     | (eds, r) =>
                         (Some (if eneg then (- Z.of_N (digits_value eds))%Z
                                else Z.of_N (digits_value eds)), r)
                     end
                   else (None, x3)
               | [] => (None, x3)
               end).
  assert (Hexp : length (snd expo) <= length x3).
  { subst expo. destruct x3 as [|c x']; [simpl; lia|].
    destruct (N.eqb c 101%N || N.eqb c 69%N)%bool; [|simpl; lia].
    set (sg := match x' with
               | s :: r =>
                   if N.eqb s 45%N then (true, r)
                   else if N.eqb s 43%N then (false, r)
                   else (false, x')
               | [] => (false, x')
               end).
    assert (Hsg : length (snd sg) <= length x').
    { subst sg. destruct x' as [|s0 r0]; [simpl; lia|].
      destruct (N.eqb s0 45%N); [simpl; lia|].
      destruct (N.eqb s0 43%N); simpl; lia. }
    destruct sg as [eneg x'']. cbn [snd] in Hsg.
    pose proof (span_digits_length x'') as Hl.
    destruct (span_digits x'') as [[|d ds] r']; simpl in *; lia. }
  destruct expo as [ex x4]. cbn [snd] in Hexp.
  intros H.
  assert (r = x4) as ->.
  { destruct fr, ex; try (injection H as _ <-; reflexivity).
    destruct (Nat.ltb int_max_str_digits (length ids)); [discriminate|].
    injection H as _ <-. reflexivity. }
  lia.
Qed.

Lemma parse_elems_shorter (scan : str -> option (pyval * str)) (n : nat) :
  forall x acc v r,
    (forall y v' r', length y <= length x -> scan y = Some (v', r') ->
                     length r' < length y) ->
    parse_elems scan n x acc = Some (v, r) ->
    length r < length x.
Proof.
  induction n as [|n IH]; intros x acc v r Hscan H; [discriminate|].
  cbn [parse_elems] in H.
  destruct (scan x) as [[v1 x2]|] eqn:Hs; [|discriminate].
  apply Hscan in Hs; [|lia].
  pose proof (skip_ws_length x2) as Hw.
  destruct (skip_ws x2) as [|e x3]; [discriminate|]. cbn [length] in Hw.
  destruct (N.eqb e 93).
  { injection H as _ <-. lia. }
  destruct (N.eqb e 44); [|discriminate].
  pose proof (skip_ws_length x3) as Hw3.
  apply IH in H; [lia|].
  intros y v' r' Hy. apply Hscan. lia.
Qed.

Lemma parse_members_shorter (scan : str -> option (pyval * str)) (n : nat) :
  forall x acc v r,
    (forall y v' r', length y <= length x -> scan y = Some (v', r') ->
                     length r' < length y) ->
    parse_members scan n x acc = Some (v, r) ->
    length r < length x.
Proof.
  induction n as [|n IH]; intros x acc v r Hscan H; [discriminate|].
  cbn [parse_members] in H.
  destruct x as [|q xs]; [discriminate|].
  destruct (N.eqb q 34); [|discriminate].
  destruct (scanstring xs []) as [[key x2]|] eqn:Hk; [|discriminate].
  apply (scanstring_shorter (length xs)) in Hk; [|lia].
  pose proof (skip_ws_length x2) as Hw2.
  destruct (skip_ws x2) as [|col x3]; [discriminate|]. cbn [length] in *.
  destruct (N.eqb col 58); [|discriminate].
  pose proof (skip_ws_length x3) as Hw3.
  destruct (scan (skip_ws x3)) as [[v1 x4]|] eqn:Hs; [|discriminate].
  apply Hscan in Hs; [|cbn [length]; lia].
  pose proof (skip_ws_length x4) as Hw4.
  destruct (skip_ws x4) as [|e x5]; [discriminate|]. cbn [length] in *.
  destruct (N.eqb e 125).
  { injection H as _ <-. lia. }
  destruct (N.eqb e 44); [|discriminate].
  pose proof (skip_ws_length x5) as Hw5.
  apply IH in H; [lia|].
  intros y v' r' Hy. apply Hscan. cbn [length]. lia.
Qed.

(** A value is never empty: what follows it is shorter than the text. *)
Lemma scan_once_shorter (depth : nat) :
  forall x v r, scan_once depth x = Some (v, r) -> length r < length x.
Proof.
  induction depth as [|d IH]; intros x v r H; [discriminate|].
  cbn [scan_once] in H.
  destruct x as [|c rest]; [discriminate|].
  destruct (N.eqb c 34).
  { destruct (scanstring rest []) as [[s r']|] eqn:Hs; [|discriminate].
    injection H as _ <-.
    apply (scanstring_shorter (length rest)) in Hs; cbn [length]; lia. }
  destruct (N.eqb c 123).
  { pose proof (skip_ws_length rest) as Hw.
    destruct (skip_ws rest) as [|c1 r1]; [discriminate|].
    destruct (N.eqb c1 125).
    - injection H as _ <-. cbn [length] in *. lia.
    - apply parse_members_shorter in H; [cbn [length] in *; lia|].
      intros y v' r' _. apply IH. }
  destruct (N.eqb c 91).
  { pose proof (skip_ws_length rest) as Hw.
    destruct (skip_ws rest) as [|c1 r1]; [discriminate|].
    destruct (N.eqb c1 93).
    - injection H as _ <-. cbn [length] in *. lia.
    - apply parse_elems_shorter in H; [cbn [length] in *; lia|].
      intros y v' r' _. apply IH. }
  repeat match type of H with
         | (if startswith ?p ?y then Some (_, skipn ?n _) else _) = _ =>
             destruct (startswith p y);
             [replace r with (skipn n y) by congruence;
              apply skipn_shorter; [lia|discriminate]|]
         end.
  exact (match_number_shorter _ _ _ H).
Qed.

(** The loops have enough iterations: more of them change nothing. *)
Lemma parse_elems_enough (scan1 scan2 : str -> option (pyval * str)) (n m : nat) :
  forall x acc,
    length x < n -> length x < m ->
    (forall y, length y <= length x -> scan1 y = scan2 y) ->
    (forall y v r, scan1 y = Some (v, r) -> length r < length y) ->
    parse_elems scan1 n x acc = parse_elems scan2 m x acc.
Proof.
  revert m. induction n as [|n IH]; intros m x acc Hn Hm Heq Hsh; [lia|].
  destruct m as [|m]; [lia|].
  cbn [parse_elems]. rewrite <- Heq by lia.
  destruct (scan1 x) as [[v1 x2]|] eqn:Hs; [|reflexivity].
  apply Hsh in Hs.
  pose proof (skip_ws_length x2) as Hw.
  destruct (skip_ws x2) as [|e x3]; [reflexivity|]. cbn [length] in Hw.
  destruct (N.eqb e 93); [reflexivity|].
  destruct (N.eqb e 44); [|reflexivity].
  pose proof (skip_ws_length x3) as Hw3.
  apply IH; try lia; [|exact Hsh].
  intros y Hy. apply Heq. lia.
Qed.

Lemma parse_members_enough (scan1 scan2 : str -> option (pyval * str)) (n m : nat) :
  forall x acc,
    length x < n -> length x < m ->
    (forall y, length y < length x -> scan1 y = scan2 y) ->
    (forall y v r, scan1 y = Some (v, r) -> length r < length y) ->
    parse_members scan1 n x acc = parse_members scan2 m x acc.
Proof.
  revert m. induction n as [|n IH]; intros m x acc Hn Hm Heq Hsh; [lia|].
  destruct m as [|m]; [lia|].
  cbn [parse_members].
  destruct x as [|q xs]; [reflexivity|].
  destruct (N.eqb q 34); [|reflexivity].
  destruct (scanstring xs []) as [[key x2]|] eqn:Hk; [|reflexivity].
  apply (scanstring_shorter (length xs)) in Hk; [|lia].
  pose proof (skip_ws_length x2) as Hw2.
  destruct (skip_ws x2) as [|col x3]; [reflexivity|]. cbn [length] in *.
  destruct (N.eqb col 58); [|reflexivity].
  pose proof (skip_ws_length x3) as Hw3.
  rewrite <- Heq by lia.
  destruct (scan1 (skip_ws x3)) as [[v1 x4]|] eqn:Hs; [|reflexivity].
  apply Hsh in Hs.
  pose proof (skip_ws_length x4) as Hw4.
  destruct (skip_ws x4) as [|e x5]; [reflexivity|]. cbn [length] in *.
  destruct (N.eqb e 125); [reflexivity|].
  destruct (N.eqb e 44); [|reflexivity].
  pose proof (skip_ws_length x5) as Hw5.
  apply IH; try lia; [|exact Hsh].
  intros y Hy. apply Heq. lia.
Qed.

(** The depth given to [scan_once] by [loads] is never used up: any two
    depths beyond the length of the text give the same answer. *)
Lemma scan_once_depth_enough (d1 : nat) :
  forall d2 x,
    length x < d1 -> length x < d2 ->
    scan_once d1 x = scan_once d2 x.
Proof.
  induction d1 as [|d1 IH]; intros d2 x H1 H2; [lia|].
  destruct d2 as [|d2]; [lia|].
  cbn [scan_once].
  destruct x as [|c rest]; [reflexivity|]. cbn [length] in *.
  destruct (N.eqb c 34); [reflexivity|].
  pose proof (skip_ws_length rest) as Hw.
  destruct (N.eqb c 123).
  { destruct (skip_ws rest) as [|c1 r1]; [reflexivity|].
    destruct (N.eqb c1 125); [reflexivity|].
    apply parse_members_enough; try lia.
    - intros y Hy. apply IH; lia.
    - intros y v r. apply scan_once_shorter. }
  destruct (N.eqb c 91).
  { destruct (skip_ws rest) as [|c1 r1]; [reflexivity|].
    destruct (N.eqb c1 93); [reflexivity|].
    apply parse_elems_enough; try lia.
    - intros y Hy. apply IH; lia.
    - intros y v r. apply scan_once_shorter. }
  reflexivity.
Qed.

(** So [loads] reads the text as it would with any greater depth. *)
Lemma loads_any_depth (x : str) (d : nat) :
  length x < d ->
  loads x
  = if startswith [65279%N] x then None
    else
      match scan_once d (skip_ws x) with
      | Some (v, rest) =>
          match skip_ws rest with
          | [] => Some v
          | _ :: _ => None
          end
      | None => None
      end.
Proof.
  intros Hd. unfold loads.
  pose proof (skip_ws_length x) as Hw.
  now rewrite (scan_once_depth_enough (S (length x)) d (skip_ws x)) by lia.
Qed.

End JsonFacts.
(* ================================================================== *)
(** * Facts about the matcher *)
(* ================================================================== *)

Module ReFacts.
Import Py Re.

Lemma skip_class_length (p : char -> bool) (x : str) :
  length (skip_class p x) <= length x.
Proof.
  induction x as [|a x IH]; simpl; [lia|].
  destruct (p a); simpl; lia.
Qed.

Lemma skip_class_prefix (p : char -> bool) (x : str) :
  forallb p (firstn (length x - length (skip_class p x)) x) = true.
Proof.
  induction x as [|a x IH]; simpl; [reflexivity|].
  destruct (p a) eqn:Ha; simpl.
  - pose proof (skip_class_length p x) as Hl.
    replace (match length (skip_class p x) with
             | 0 => S (length x)
             | S l => length x - l
             end) with (S (length x - length (skip_class p x))).
    + simpl. now rewrite Ha, IH.
    + destruct (length (skip_class p x)) eqn:E; lia.
  - now rewrite Nat.sub_diag.
Qed.

(** The matcher only looks at the answers of its continuation. *)
Lemma repeat_loop_ext {R} (greedy : bool)
    (step : str -> caps -> cont R -> option R) :
  (forall x c (k1 k2 : cont R),
      (forall x' c', k1 x' c' = k2 x' c') -> step x c k1 = step x c k2) ->
  forall n x c (k1 k2 : cont R),
    (forall x' c', k1 x' c' = k2 x' c') ->
    repeat_loop greedy step k1 n x c = repeat_loop greedy step k2 n x c.
Proof.
  intros Hstep n. induction n as [|n IH]; intros x c k1 k2 Hk; cbn [repeat_loop].
  - apply Hk.
  - rewrite (Hk x c).
    rewrite (Hstep x c _
               (fun x' c' =>
                  if Nat.ltb (length x') (length x)
                  then repeat_loop greedy step k2 n x' c' else None)).
    + reflexivity.
    + intros x' c'. destruct (Nat.ltb (length x') (length x)); [|reflexivity].
      now apply IH.
Qed.

Lemma rmatch_ext {R} (r : regex) :
  forall x c (k1 k2 : cont R),
    (forall x' c', k1 x' c' = k2 x' c') ->
    rmatch r x c k1 = rmatch r x c k2.
Proof.
  induction r as [|a|p|r1 IH1 r2 IH2|r1 IH1 r2 IH2|r1 IH1|r1 IH1|n r1 IH1];
    intros x c k1 k2 Hk; cbn [rmatch].
  - apply Hk.
  - destruct x as [|b x']; [reflexivity|]. now rewrite Hk.
  - destruct x as [|b x']; [reflexivity|]. now rewrite Hk.
  - apply IH1. intros x' c'. now apply IH2.
  - rewrite (IH1 x c k1 k2 Hk). now rewrite (IH2 x c k1 k2 Hk).
  - apply repeat_loop_ext; [exact IH1|exact Hk].
  - apply repeat_loop_ext; [exact IH1|exact Hk].
  - apply IH1. intros x' c'. apply Hk.
Qed.

(** A repetition has iterations enough: beyond one per character left,
    more of them change nothing. *)
Lemma repeat_loop_enough {R} (greedy : bool) (r : regex) (k : cont R) (n : nat) :
  forall m x c,
    length x < n -> length x < m ->
    repeat_loop greedy (rmatch r) k n x c
    = repeat_loop greedy (rmatch r) k m x c.
Proof.
  induction n as [|n IH]; intros m x c Hn Hm; [lia|].
  destruct m as [|m]; [lia|].
  cbn [repeat_loop].
  rewrite (rmatch_ext r x c _
             (fun x' c' =>
                if Nat.ltb (length x') (length x)
                then repeat_loop greedy (rmatch r) k m x' c' else None)).
  - reflexivity.
  - intros x' c'. destruct (Nat.ltb (length x') (length x)) eqn:Hlt; [|reflexivity].
    apply Nat.ltb_lt in Hlt. apply IH; lia.
Qed.

(** So a starred pattern matches as it would with any greater bound. *)
Lemma star_any_bound {R} (r : regex) (k : cont R) (n : nat) (x : str) (c : caps) :
  length x < n ->
  rmatch (Star r) x c k = repeat_loop true (rmatch r) k n x c
  /\ rmatch (LazyStar r) x c k = repeat_loop false (rmatch r) k n x c.
Proof.
  intros Hn. cbn [rmatch]. split; apply repeat_loop_enough; lia.
Qed.

(** A greedy repetition of a class, followed by something that cannot
    fail, takes the longest run. *)
Lemma repeat_class_greedy {R} (p : char -> bool) (k : cont R) :
  (forall x c, k x c <> None) ->
  forall n x c,
    length x < n ->
    repeat_loop true (rmatch (Cls p)) k n x c = k (skip_class p x) c.
Proof.
  intros Hk n. induction n as [|n IH]; intros x c Hn; [lia|].
  destruct x as [|a x]; simpl.
  - reflexivity.
  - destruct (p a) eqn:Ha.
    + replace (Nat.ltb (length x) (S (length x))) with true
        by (symmetry; apply Nat.ltb_lt; lia).
      simpl in Hn. rewrite IH by lia.
      destruct (k (skip_class p x) c) eqn:Ek; [reflexivity|].
      now apply Hk in Ek.
    + reflexivity.
Qed.

(** Where a control character starts the text, [control_run] matches the
    whole run of them. *)
Lemma match_control_run (a : char) (x : str) :
  control a = true ->
  match_at Llm.control_run (a :: x)
  = Some (a :: firstn (length x - length (skip_class control x)) x, [],
          skip_class control x).
Proof.
  intros Ha. unfold match_at, Llm.control_run, Plus.
  cbn [rmatch]. rewrite Ha.
  etransitivity.
  { apply (repeat_class_greedy control); [intros; discriminate | lia]. }
  pose proof (skip_class_length control x) as Hl.
  cbv beta.
  replace (length (a :: x) - length (skip_class control x))
    with (S (length x - length (skip_class control x)))
    by (change (length (a :: x)) with (S (length x)); lia).
  reflexivity.
Qed.

Lemma match_control_run_none (x : str) :
  match x with a :: _ => control a = false | [] => True end ->
  match_at Llm.control_run x = None.
Proof.
  destruct x as [|a x]; intros H; unfold match_at, Llm.control_run, Plus;
    cbn [rmatch]; [reflexivity|now rewrite H].
Qed.

Lemma sub_control_run_from (x : str) :
  forall skip,
    skip <= length x ->
    forallb control (firstn skip x) = true ->
    sub_from Llm.control_run [] x skip
    = filter (fun c => negb (control c)) x.
Proof.
  induction x as [|a x IH]; intros skip Hs Hc.
  - destruct skip; reflexivity.
  - destruct skip as [|n].
    + cbn [sub_from]. destruct (control a) eqn:Ha.
      * rewrite match_control_run by assumption.
        cbn [expand flat_map app filter]. rewrite Ha. cbn [negb].
        rewrite length_firstn.
        apply IH.
        -- lia.
        -- rewrite Nat.min_l by lia. apply skip_class_prefix.
      * rewrite match_control_run_none by assumption.
        cbn [filter]. rewrite Ha. cbn [negb]. f_equal.
        apply IH; [lia|reflexivity].
    + cbn [sub_from]. simpl in Hs, Hc.
      apply andb_true_iff in Hc as [Ha Hc].
      cbn [filter]. rewrite Ha. cbn [negb].
      apply IH; [lia|assumption].
Qed.

(** Substituting nothing for every run of control characters removes
    exactly the control characters. *)
Lemma sub_control_run (x : str) :
  sub Llm.control_run [] x = filter (fun c => negb (control c)) x.
Proof.
  apply sub_control_run_from; [lia|reflexivity].
Qed.

(** ** The matcher, construct by construct *)

Lemma rmatch_cat {R} r1 r2 x c (k : cont R) :
  rmatch (Cat r1 r2) x c k = rmatch r1 x c (fun x' c' => rmatch r2 x' c' k).
Proof. reflexivity. Qed.

Lemma rmatch_chr {R} a b x c (k : cont R) :
  rmatch (Chr a) (b :: x) c k = if N.eqb a b then k x c else None.
Proof. reflexivity. Qed.

Lemma rmatch_chr_nil {R} a c (k : cont R) : rmatch (Chr a) [] c k = None.
Proof. reflexivity. Qed.

Lemma rmatch_star {R} r x c (k : cont R) :
  rmatch (Star r) x c k = repeat_loop true (rmatch r) k (S (length x)) x c.
Proof. reflexivity. Qed.

Lemma rmatch_group {R} n r x c (k : cont R) :
  rmatch (Group n r) x c k
  = rmatch r x c (fun x' c' => k x' ((n, firstn (length x - length x') x) :: c')).
Proof. reflexivity. Qed.

Lemma rmatch_alt {R} r1 r2 x c (k : cont R) :
  rmatch (Alt r1 r2) x c k
  = match rmatch r1 x c k with
    | Some r => Some r
    | None => rmatch r2 x c k
    end.
Proof. reflexivity. Qed.

(** What a group captures is the text its pattern went over. *)
Lemma firstn_consumed (u x' : str) :
  firstn (length (u ++ x') - length x') (u ++ x') = u.
Proof.
  rewrite length_app, Nat.add_sub. rewrite firstn_app, Nat.sub_diag.
  cbn [firstn]. now rewrite firstn_all, app_nil_r.
Qed.

(** White space is below the characters that can open a JSON value, or
    above them. *)
Lemma isspace_range (c : char) :
  isspace c = true -> (c <= 32 \/ 133 <= c)%N.
Proof.
  unfold isspace, in_range.
  rewrite !orb_true_iff, !andb_true_iff, !N.leb_le, !N.eqb_eq. lia.
Qed.

Lemma word_char_range (c : char) :
  word_char c = true -> (48 <= c <= 122)%N.
Proof.
  unfold word_char, in_range.
  rewrite !orb_true_iff, !andb_true_iff, !N.leb_le, !N.eqb_eq. lia.
Qed.

Lemma word_char_not_space (c : char) : word_char c = true -> isspace c = false.
Proof.
  intros H. apply word_char_range in H.
  destruct (isspace c) eqn:Hs; [|reflexivity].
  apply isspace_range in Hs. lia.
Qed.

Lemma space_not_word_char (c : char) : isspace c = true -> word_char c = false.
Proof.
  intros H. destruct (word_char c) eqn:Hw; [|reflexivity].
  apply word_char_not_space in Hw. congruence.
Qed.

(** A greedy repetition of a class, over a run of the class that ends
    where the class does: where what comes next matches after the whole
    run, the repetition takes the whole run. *)
Lemma rmatch_cls {R} p b x c (k : cont R) :
  rmatch (Cls p) (b :: x) c k = if p b then k x c else None.
Proof. reflexivity. Qed.

Lemma rmatch_cls_nil {R} p c (k : cont R) : rmatch (Cls p) [] c k = None.
Proof. reflexivity. Qed.

Lemma repeat_loop_greedy {R} (step : str -> caps -> cont R -> option R)
    (k : cont R) (n : nat) (x : str) (c : caps) :
  repeat_loop true step k (S n) x c
  = match step x c (fun x' c' =>
                      if Nat.ltb (length x') (length x)
                      then repeat_loop true step k n x' c' else None) with
    | Some r => Some r
    | None => k x c
    end.
Proof. reflexivity. Qed.

Lemma repeat_class_run {R} (p : char -> bool) (k : cont R) (res : R)
    (ws rest : str) (c : caps) :
  forallb p ws = true ->
  match rest with b :: _ => p b = false | [] => True end ->
  k rest c = Some res ->
  forall n, length (ws ++ rest) < n ->
    repeat_loop true (rmatch (Cls p)) k n (ws ++ rest) c = Some res.
Proof.
  intros Hws Hrest Hk. induction ws as [|a ws IH]; intros n Hn.
  - destruct n as [|n]; [lia|]. cbn [app]. rewrite repeat_loop_greedy.
    destruct rest as [|b rest'].
    + now rewrite rmatch_cls_nil, Hk.
    + now rewrite rmatch_cls, Hrest, Hk.
  - destruct n as [|n]; [lia|].
    cbn [forallb] in Hws. apply andb_true_iff in Hws as [Ha Hws].
    cbn [app]. rewrite repeat_loop_greedy, rmatch_cls, Ha.
    replace (Nat.ltb (length (ws ++ rest)) (length (a :: ws ++ rest)))
      with true by (symmetry; apply Nat.ltb_lt; cbn [length]; lia).
    rewrite (IH Hws n) by (cbn [app length] in Hn; lia).
    reflexivity.
Qed.

(** ** [re.sub], match by match *)

Lemma sub_from_skip (r : regex) (t : list piece) (u post : str) :
  sub_from r t (u ++ post) (length u) = sub_from r t post 0.
Proof.
  induction u as [|a u IH]; [reflexivity|]. exact IH.
Qed.

Lemma sub_miss (r : regex) (t : list piece) (a : char) (x : str) :
  match_at r (a :: x) = None -> sub r t (a :: x) = a :: sub r t x.
Proof. intros H. unfold sub. cbn [sub_from]. now rewrite H. Qed.

Lemma sub_hit (r : regex) (t : list piece) (a : char) (m post : str) (c : caps) :
  match_at r (a :: m ++ post) = Some (a :: m, c, post) ->
  sub r t (a :: m ++ post) = expand t c ++ sub r t post.
Proof.
  intros H. unfold sub. cbn [sub_from]. rewrite H.
  now rewrite sub_from_skip.
Qed.

(** Before the first place where a match can start, the text is kept. *)
Lemma sub_keeps_prefix (r : regex) (t : list piece) (pre x : str) :
  Forall (fun b => forall y, match_at r (b :: y) = None) pre ->
  sub r t (pre ++ x) = pre ++ sub r t x.
Proof.
  induction 1 as [|b pre Hb _ IH]; [reflexivity|].
  cbn [app]. rewrite sub_miss by apply Hb. now rewrite IH.
Qed.

End ReFacts.

(* ================================================================== *)
(** * [app/llm.py]: repair, retries, JSON acquisition *)
(* ================================================================== *)

Module LlmFacts.
Import Py Re World Llm Observe Text ReFacts.

Lemma repaired_text_stages (text : str) :
  repaired_text text
  = sub bare_key quoted_key
      (sub comma_bracket [Lit (py "]")]
         (sub comma_brace [Lit (py "}")]
            (filter (fun c => negb (control c)) (strip text)))).
Proof.
  unfold repaired_text. now rewrite ReFacts.sub_control_run.
Qed.

(** ** The three substitutions, match by match *)

Lemma lacks_in (a b : char) (x : str) :
  lacks a x = true -> In b x -> N.eqb a b = false.
Proof.
  unfold lacks. rewrite forallb_forall. intros H Hb.
  apply negb_true_iff. now apply H.
Qed.

(** A comma, white space and the closing character. *)
Lemma match_at_comma_close (close : char) (ws post : str) :
  forallb isspace ws = true ->
  isspace close = false ->
  match_at (Cat (Chr (ch ",")) (Cat (Star (Cls isspace)) (Chr close)))
    (ch "," :: (ws ++ [close]) ++ post)
  = Some (ch "," :: ws ++ [close], [], post).
Proof.
  intros Hws Hc. unfold match_at.
  rewrite rmatch_cat, rmatch_chr, N.eqb_refl, rmatch_cat, rmatch_star.
  rewrite <- app_assoc. cbn [app].
  etransitivity.
  { eapply (repeat_class_run isspace _ _ ws (close :: post));
      [exact Hws|exact Hc| |lia].
    cbv beta. rewrite rmatch_chr, N.eqb_refl. reflexivity. }
  replace (ch "," :: ws ++ close :: post)
    with ((ch "," :: ws ++ [close]) ++ post)
    by (cbn [app]; now rewrite <- app_assoc).
  now rewrite firstn_consumed.
Qed.

(** [re.sub] of such a pattern: the text before the first comma is kept,
    and a comma that stands before the closing character, white space
    apart, goes with the white space. *)
Lemma sub_comma_close (close : char) (t pre ws post : str) :
  lacks (ch ",") pre = true ->
  forallb isspace ws = true ->
  isspace close = false ->
  sub (Cat (Chr (ch ",")) (Cat (Star (Cls isspace)) (Chr close))) [Lit t]
    (pre ++ ch "," :: ws ++ close :: post)
  = pre ++ t
    ++ sub (Cat (Chr (ch ",")) (Cat (Star (Cls isspace)) (Chr close))) [Lit t]
         post.
Proof.
  intros Hpre Hws Hc.
  rewrite sub_keeps_prefix.
  2:{ apply Forall_forall. intros b Hb y. unfold match_at.
      now rewrite rmatch_cat, rmatch_chr, (lacks_in _ _ _ Hpre Hb). }
  f_equal.
  replace (ws ++ close :: post) with ((ws ++ [close]) ++ post)
    by (now rewrite <- app_assoc).
  rewrite (sub_hit _ [Lit t] (ch ",") (ws ++ [close]) post []).
  - unfold expand. cbn [flat_map]. now rewrite app_nil_r.
  - now apply match_at_comma_close.
Qed.

(** What follows the opening character of a bare key: white space, the
    key, white space and the colon.  The key is what group 2 takes. *)
Lemma rmatch_key_colon {R} (k : cont R) (res : R) (c0 : caps)
    (ws1 key ws2 post : str) :
  forallb isspace ws1 = true ->
  key <> [] ->
  forallb word_char key = true ->
  forallb isspace ws2 = true ->
  k post ((2, key) :: c0) = Some res ->
  rmatch (Cat (Star (Cls isspace))
            (Cat (Group 2 (Plus (Cls word_char)))
               (Cat (Star (Cls isspace)) (Chr (ch ":")))))
    (ws1 ++ key ++ ws2 ++ ch ":" :: post) c0 k
  = Some res.
Proof.
  intros Hws1 Hkey Hword Hws2 Hk.
  destruct key as [|a key]; [congruence|].
  cbn [forallb] in Hword. apply andb_true_iff in Hword as [Ha Hword].
  rewrite rmatch_cat, rmatch_star.
  apply repeat_class_run; [exact Hws1|now apply word_char_not_space| |lia].
  cbv beta. rewrite rmatch_cat, rmatch_group. unfold Plus.
  rewrite rmatch_cat. cbn [app]. rewrite rmatch_cls, Ha, rmatch_star.
  apply repeat_class_run; [exact Hword| | |lia].
  { destruct ws2 as [|s ws2]; [reflexivity|].
    cbn [forallb] in Hws2. apply andb_true_iff in Hws2 as [Hs _].
    now apply space_not_word_char. }
  cbv beta. rewrite rmatch_cat, rmatch_star.
  apply repeat_class_run; [exact Hws2|reflexivity| |lia].
  cbv beta. rewrite rmatch_chr, N.eqb_refl.
  replace (a :: key ++ ws2 ++ ch ":" :: post)
    with ((a :: key) ++ ws2 ++ ch ":" :: post) by reflexivity.
  now rewrite firstn_consumed.
Qed.

Lemma match_at_bare_key (opening : char) (ws1 key ws2 post : str) :
  opening = ch "{" \/ opening = ch "," ->
  forallb isspace ws1 = true ->
  key <> [] ->
  forallb word_char key = true ->
  forallb isspace ws2 = true ->
  match_at bare_key (opening :: (ws1 ++ key ++ ws2 ++ [ch ":"]) ++ post)
  = Some (opening :: ws1 ++ key ++ ws2 ++ [ch ":"],
          [(2, key); (1, [opening])], post).
Proof.
  intros Hopen Hws1 Hkey Hword Hws2.
  assert (Hrest : forall x,
             x = opening :: (ws1 ++ key ++ ws2 ++ [ch ":"]) ++ post ->
             rmatch (Cat (Star (Cls isspace))
                       (Cat (Group 2 (Plus (Cls word_char)))
                          (Cat (Star (Cls isspace)) (Chr (ch ":")))))
               ((ws1 ++ key ++ ws2 ++ [ch ":"]) ++ post)
               [(1, firstn (length x - length ((ws1 ++ key ++ ws2 ++ [ch ":"]) ++ post)) x)]
               (fun x' c => Some (firstn (length x - length x') x, c, x'))
             = Some (opening :: ws1 ++ key ++ ws2 ++ [ch ":"],
                     [(2, key); (1, [opening])], post)).
  { intros x ->.
    replace ((ws1 ++ key ++ ws2 ++ [ch ":"]) ++ post)
      with (ws1 ++ key ++ ws2 ++ ch ":" :: post)
      by (now rewrite <- !app_assoc).
    apply rmatch_key_colon; try assumption.
    assert (H1 : firstn
                   (length (opening :: ws1 ++ key ++ ws2 ++ ch ":" :: post)
                    - length (ws1 ++ key ++ ws2 ++ ch ":" :: post))
                   (opening :: ws1 ++ key ++ ws2 ++ ch ":" :: post)
                 = [opening]).
    { apply (firstn_consumed [opening]). }
    assert (H2 : firstn
                   (length (opening :: ws1 ++ key ++ ws2 ++ ch ":" :: post)
                    - length post)
                   (opening :: ws1 ++ key ++ ws2 ++ ch ":" :: post)
                 = opening :: ws1 ++ key ++ ws2 ++ [ch ":"]).
    { replace (opening :: ws1 ++ key ++ ws2 ++ ch ":" :: post)
        with ((opening :: ws1 ++ key ++ ws2 ++ [ch ":"]) ++ post)
        by (cbn [app]; now rewrite <- !app_assoc).
      apply firstn_consumed. }
    now rewrite H1, H2. }
  unfold match_at, bare_key.
  rewrite rmatch_cat, rmatch_group, rmatch_alt, !rmatch_chr.
  destruct Hopen as [->| ->].
  - rewrite N.eqb_refl. cbv beta.
    match goal with
    | |- match ?t with Some r => _ | None => _ end = Some ?v =>
        replace t with (Some v) by (symmetry; exact (Hrest _ eq_refl))
    end.
    reflexivity.
  - change (N.eqb (ch "{") (ch ",")) with false. rewrite N.eqb_refl.
    cbv beta iota. exact (Hrest _ eq_refl).
Qed.

(** [re.sub] of the pattern of bare keys: the text before the first
    brace or comma is kept; a key of letters, digits and underscores
    that follows one, white space apart, and is followed by a colon,
    white space apart, is put in quotes after one space, and the white
    space around it goes. *)
Lemma sub_bare_key (opening : char) (pre ws1 key ws2 post : str) :
  lacks (ch "{") pre = true ->
  lacks (ch ",") pre = true ->
  opening = ch "{" \/ opening = ch "," ->
  forallb isspace ws1 = true ->
  key <> [] ->
  forallb word_char key = true ->
  forallb isspace ws2 = true ->
  sub bare_key quoted_key (pre ++ opening :: ws1 ++ key ++ ws2 ++ ch ":" :: post)
  = pre ++ opening :: ch " " :: quoted key ++ ch ":" :: sub bare_key quoted_key post.
Proof.
  intros Hb Hc Hopen Hws1 Hkey Hword Hws2.
  rewrite sub_keeps_prefix.
  2:{ apply Forall_forall. intros b Hin y. unfold match_at, bare_key.
      now rewrite rmatch_cat, rmatch_group, rmatch_alt, !rmatch_chr,
        (lacks_in _ _ _ Hb Hin), (lacks_in _ _ _ Hc Hin). }
  f_equal.
  replace (ws1 ++ key ++ ws2 ++ ch ":" :: post)
    with ((ws1 ++ key ++ ws2 ++ [ch ":"]) ++ post)
    by (now rewrite <- !app_assoc).
  rewrite (sub_hit _ quoted_key opening (ws1 ++ key ++ ws2 ++ [ch ":"]) post
             [(2, key); (1, [opening])]).
  - unfold expand, quoted_key, quoted. cbn [flat_map group Nat.eqb app].
    rewrite <- !app_assoc. reflexivity.
  - now apply match_at_bare_key.
Qed.

(** C8.  [repair_json_string] strips the text, drops every control
    character, removes a comma that stands (white space apart) before a
    closing brace or bracket, puts quotes around a bare key (letters,
    digits, underscore) that follows an opening brace or a comma and is
    followed by a colon, and parses the outcome.  So a text that, once
    stripped and freed of its control characters, reads
    [{"a":1,}] is recovered as the mapping of [a] to 1, and one that
    reads [{a: 1, b: "x"}], with or without a comma before the closing
    brace, as the mapping of [a] to 1 and [b] to ["x"]; commas before
    closing brackets and keys with digits and underscores are repaired
    in the same text. *)
Theorem repair_json_string_recovers :
  (forall text,
      repair_json_string text
      = match Json.loads
                (sub bare_key quoted_key
                   (sub comma_bracket [Lit (py "]")]
                      (sub comma_brace [Lit (py "}")]
                         (filter (fun c => negb (control c)) (strip text)))))
        with
        | Some v => v
        | None => PNone
        end)
  /\ (forall x, sub control_run [] x = filter (fun c => negb (control c)) x)
  /\ (forall pre ws post,
         lacks (ch ",") pre = true ->
         forallb isspace ws = true ->
         sub comma_brace [Lit (py "}")] (pre ++ ch "," :: ws ++ ch "}" :: post)
         = pre ++ ch "}" :: sub comma_brace [Lit (py "}")] post)
  /\ (forall pre ws post,
         lacks (ch ",") pre = true ->
         forallb isspace ws = true ->
         sub comma_bracket [Lit (py "]")] (pre ++ ch "," :: ws ++ ch "]" :: post)
         = pre ++ ch "]" :: sub comma_bracket [Lit (py "]")] post)
  /\ (forall opening pre ws1 key ws2 post,
         lacks (ch "{") pre = true ->
         lacks (ch ",") pre = true ->
         opening = ch "{" \/ opening = ch "," ->
         forallb isspace ws1 = true ->
         key <> [] ->
         forallb word_char key = true ->
         forallb isspace ws2 = true ->
         sub bare_key quoted_key
           (pre ++ opening :: ws1 ++ key ++ ws2 ++ ch ":" :: post)
         = pre ++ opening :: ch " " :: quoted key ++ ch ":"
           :: sub bare_key quoted_key post)
  /\ forallb word_char (py "azAZ09_") = true
  /\ repair_json_string (py "{" ++ quoted (py "a") ++ py ":1,}")
     = PDict [(py "a", PInt 1)]
  /\ repair_json_string (py "{a: 1, b: " ++ quoted (py "x") ++ py "}")
     = PDict [(py "a", PInt 1); (py "b", PStr (py "x"))]
  /\ repair_json_string (py "[1, 2 ,]") = PList [PInt 1; PInt 2]
  /\ repair_json_string (py "{a_1: {b2: [1, 2,],},}")
     = PDict [(py "a_1", PDict [(py "b2", PList [PInt 1; PInt 2])])]
  /\ (forall text,
         filter (fun c => negb (control c)) (strip text)
         = py "{" ++ quoted (py "a") ++ py ":1,}" ->
         repair_json_string text = PDict [(py "a", PInt 1)])
  /\ (forall text,
         filter (fun c => negb (control c)) (strip text)
         = py "{a: 1, b: " ++ quoted (py "x") ++ py "}" ->
         repair_json_string text
         = PDict [(py "a", PInt 1); (py "b", PStr (py "x"))])
  /\ (forall text,
         filter (fun c => negb (control c)) (strip text)
         = py "{a: 1, b: " ++ quoted (py "x") ++ py ",}" ->
         repair_json_string text
         = PDict [(py "a", PInt 1); (py "b", PStr (py "x"))])
  /\ (forall text,
         filter (fun c => negb (control c)) (strip text)
         = py "{key_2: [1, 2 , ], _k: " ++ quoted (py "x") ++ py " , }" ->
         repair_json_string text
         = PDict [(py "key_2", PList [PInt 1; PInt 2]);
                  (py "_k", PStr (py "x"))]).
Proof.
  assert (stages : forall text,
             repair_json_string text
             = match Json.loads
                       (sub bare_key quoted_key
                          (sub comma_bracket [Lit (py "]")]
                             (sub comma_brace [Lit (py "}")]
                                (filter (fun c => negb (control c)) (strip text)))))
               with
               | Some v => v
               | None => PNone
               end).
  { intros text. unfold repair_json_string.
    now rewrite repaired_text_stages. }
  split; [exact stages|].
  split; [exact ReFacts.sub_control_run|].
  split.
  { intros pre ws post Hpre Hws. unfold comma_brace.
    now rewrite (sub_comma_close (ch "}") (py "}") pre ws post). }
  split.
  { intros pre ws post Hpre Hws. unfold comma_bracket.
    now rewrite (sub_comma_close (ch "]") (py "]") pre ws post). }
  split; [exact sub_bare_key|].
  split; [reflexivity|].
  split; [vm_compute; reflexivity|].
  split; [vm_compute; reflexivity|].
  split; [vm_compute; reflexivity|].
  split; [vm_compute; reflexivity|].
  repeat split; intros text H; rewrite stages, H; vm_compute; reflexivity.
Qed.

(** Texts with a comma before a closing brace and before a closing
    bracket, bare keys with digits and underscores, and control
    characters in the middle and at the ends. *)
Lemma repair_json_string_recovers_witness :
  repair_json_string
    (1%N :: py "{" ++ quoted (py "a") ++ [7%N] ++ py ":1," ++ [10%N; 31%N] ++ py "}")
  = PDict [(py "a", PInt 1)]
  /\ repair_json_string
       (py " {a: 1," ++ [0%N; 9%N] ++ py " b: " ++ quoted (py "x") ++ py "}" ++ [13%N; 10%N])
     = PDict [(py "a", PInt 1); (py "b", PStr (py "x"))]
  /\ repair_json_string
       (py "{a: 1, b: " ++ [27%N] ++ quoted (py "x") ++ py "," ++ [2%N] ++ py "}")
     = PDict [(py "a", PInt 1); (py "b", PStr (py "x"))]
  /\ repair_json_string
       (py "{key_2: [1, 2 ," ++ [11%N] ++ py " ], _k: " ++ [3%N]
        ++ quoted (py "x") ++ py " , }" ++ [10%N])
     = PDict [(py "key_2", PList [PInt 1; PInt 2]); (py "_k", PStr (py "x"))]
  /\ sub comma_bracket [Lit (py "]")] (py "[1 ,  ], [3,]")
     = py "[1 ], [3]"
  /\ sub bare_key quoted_key (py "{ key_2 : 1, _k9:2}")
     = py "{ " ++ quoted (py "key_2") ++ py ": 1, " ++ quoted (py "_k9") ++ py ":2}".
Proof.
  destruct repair_json_string_recovers
    as (_ & _ & _ & Hbracket & Hkey & _ & _ & _ & _ & _ & H1 & H2 & H3 & H4).
  split; [apply H1; reflexivity|].
  split; [apply H2; reflexivity|].
  split; [apply H3; reflexivity|].
  split; [apply H4; reflexivity|].
  split.
  - etransitivity.
    { apply (Hbracket (py "[1 ") (py "  ") (py ", [3,]")); reflexivity. }
    reflexivity.
  - etransitivity.
    { apply (Hkey (ch "{") [] (py " ") (py "key_2") (py " ") (py " 1, _k9:2}"));
        try reflexivity; [now left|discriminate]. }
    reflexivity.
Defined.

(** ** The retry loops *)

Lemma aipipe_posts_app (w1 w2 : world) :
  aipipe_posts (w1 ++ w2) = aipipe_posts w1 ++ aipipe_posts w2.
Proof.
  induction w1 as [|ev w1 IH]; [reflexivity|].
  destruct ev; simpl; now rewrite IH.
Qed.

Section WithEnv.
Variable E : env.

(** [call_aipipe_api] posts the same payload once, twice or three times. *)
Lemma call_aipipe_api_posts (payload : pyval) (w : world) :
  exists n,
    1 <= n <= 3
    /\ aipipe_posts (snd (call_aipipe_api E payload w))
       = aipipe_posts w ++ repeat payload n.
Proof.
  unfold call_aipipe_api. cbn [seq call_aipipe_loop Nat.eqb]. run.
  destruct (aipipe_post E w payload) as [v|e]; cbn [snd].
  { exists 1. rewrite aipipe_posts_app. split; [lia|reflexivity]. }
  destruct (aipipe_post E _ payload) as [v|e'] in |- *; cbn [snd].
  { exists 2. rewrite !aipipe_posts_app. cbn. rewrite <- !app_assoc.
    split; [lia|reflexivity]. }
  destruct (aipipe_post E _ payload) as [v|e''] in |- *; cbn [snd];
    exists 3; rewrite !aipipe_posts_app; cbn; rewrite <- !app_assoc;
    (split; [lia|reflexivity]).
Qed.

(** An attempt never raises: whatever goes wrong is printed. *)
Lemma attempt_ok (messages : list pyval) (w : world) :
  exists r, fst (attempt E messages w) = Ok r.
Proof.
  unfold attempt. run.
  destruct (call_aipipe_api E (body messages) w) as [[resp|e] w1];
    [|eexists; reflexivity].
  destruct (candidate E resp) as [out|e]; [|eexists; reflexivity].
  destruct out; cbn [method_strip]; try (eexists; reflexivity).
  destruct (strip x); eexists; reflexivity.
Qed.

Lemma attempt_posts (messages : list pyval) (w : world) :
  exists n,
    1 <= n <= 3
    /\ aipipe_posts (snd (attempt E messages w))
       = aipipe_posts w ++ repeat (body messages) n.
Proof.
  destruct (call_aipipe_api_posts (body messages) w) as (n & Hn & Hp).
  exists n. split; [exact Hn|].
  unfold attempt. run.
  destruct (call_aipipe_api E (body messages) w) as [[resp|e] w1];
    cbn [snd] in *.
  - destruct (candidate E resp) as [out|e]; cbn [snd].
    + destruct out; cbn [method_strip snd];
        try (rewrite aipipe_posts_app, Hp; cbn; now rewrite app_nil_r).
      destruct (strip x); exact Hp.
    + rewrite aipipe_posts_app, Hp. cbn. now rewrite app_nil_r.
  - rewrite aipipe_posts_app, Hp. cbn. now rewrite app_nil_r.
Qed.

(** Only a text with a character that is not white space ends the loop. *)
Lemma attempt_some_nonblank (messages : list pyval) (w : world) (x : str) :
  fst (attempt E messages w) = Ok (Some x) -> nonblank x = true.
Proof.
  unfold attempt. run.
  destruct (call_aipipe_api E (body messages) w) as [[resp|e] w1];
    [|discriminate].
  destruct (candidate E resp) as [out|e]; [|discriminate].
  destruct out; cbn [method_strip]; try discriminate.
  unfold nonblank. destruct (strip x0) eqn:Hs; cbn; [discriminate|].
  intros H. injection H as <-. now rewrite Hs.
Qed.

(** The whole loop: a text comes back, from at most three attempts whose
    requests carry the growing conversation. *)
Lemma ask_llm_for_answer_conversation (prompt : str) (w : world) :
  let m0 := [system_message; message (py "user") prompt] in
  exists out w' n0 n1 n2,
    ask_llm_for_answer E prompt w = (Ok out, w')
    /\ aipipe_posts w'
       = aipipe_posts w ++ repeat (body m0) n0
         ++ repeat (body (m0 ++ [nudge])) n1
         ++ repeat (body ((m0 ++ [nudge]) ++ [nudge])) n2
    /\ 1 <= n0 <= 3 /\ n1 <= 3 /\ n2 <= 3 /\ (n1 = 0 -> n2 = 0)
    /\ (out = py "{}" \/ nonblank out = true).
Proof.
  intros m0.
  unfold ask_llm_for_answer. fold m0. cbn [seq ask_loop].
  unfold bind at 1.
  destruct (attempt_ok m0 w) as (r0 & Hr0).
  destruct (attempt_posts m0 w) as (n0 & Hn0 & Hp0).
  pose proof (attempt_some_nonblank m0 w) as Hb0.
  destruct (attempt E m0 w) as [r0' w1]. cbn [fst snd] in *. subst r0'.
  destruct r0 as [x|].
  { exists x, w1, n0, 0, 0. cbn [repeat]. rewrite !app_nil_r.
    unfold ret. repeat split; auto; lia. }
  unfold bind at 1.
  destruct (attempt_ok (m0 ++ [nudge]) w1) as (r1 & Hr1).
  destruct (attempt_posts (m0 ++ [nudge]) w1) as (n1 & Hn1 & Hp1).
  pose proof (attempt_some_nonblank (m0 ++ [nudge]) w1) as Hb1.
  destruct (attempt E (m0 ++ [nudge]) w1) as [r1' w2].
  cbn [fst snd] in *. subst r1'.
  destruct r1 as [x|].
  { exists x, w2, n0, n1, 0. cbn [repeat]. rewrite !app_nil_r.
    unfold ret. rewrite Hp1, Hp0, <- app_assoc.
    repeat split; auto; lia. }
  unfold bind at 1.
  destruct (attempt_ok ((m0 ++ [nudge]) ++ [nudge]) w2) as (r2 & Hr2).
  destruct (attempt_posts ((m0 ++ [nudge]) ++ [nudge]) w2) as (n2 & Hn2 & Hp2).
  pose proof (attempt_some_nonblank ((m0 ++ [nudge]) ++ [nudge]) w2) as Hb2.
  destruct (attempt E ((m0 ++ [nudge]) ++ [nudge]) w2) as [r2' w3].
  cbn [fst snd] in *. subst r2'.
  destruct r2 as [x|].
  + exists x, w3, n0, n1, n2. unfold ret.
    rewrite Hp2, Hp1, Hp0, <- !app_assoc.
    repeat split; auto; lia.
  + exists (py "{}"), w3, n0, n1, n2. unfold ret.
    rewrite Hp2, Hp1, Hp0, <- !app_assoc.
    repeat split; auto; lia.
Qed.

(** C6 (as amended).  [ask_llm_for_answer] always returns a text, after
    at most three attempts; the requests of the second and third attempt
    repeat the conversation with one and two turns [Return JSON now.]
    appended (each attempt posts its request one to three times).  An
    attempt whose candidate text has a character that is not white space
    ends the loop with that text; after a blank candidate the loop goes
    on with the nudge appended; after a failure of the call or of the
    extraction the exception is printed and the loop goes on in the same
    way; when the range is exhausted the text is [{}]. *)
Theorem ask_llm_for_answer_retries (prompt : str) (w : world) :
  let m0 := [system_message; message (py "user") prompt] in
  (exists out w' n0 n1 n2,
      ask_llm_for_answer E prompt w = (Ok out, w')
      /\ aipipe_posts w'
         = aipipe_posts w ++ repeat (body m0) n0
           ++ repeat (body (m0 ++ [nudge])) n1
           ++ repeat (body ((m0 ++ [nudge]) ++ [nudge])) n2
      /\ 1 <= n0 <= 3 /\ n1 <= 3 /\ n2 <= 3 /\ (n1 = 0 -> n2 = 0)
      /\ (out = py "{}" \/ nonblank out = true))
  /\ (forall i rest m w0 resp w1 x,
         call_aipipe_api E (body m) w0 = (Ok resp, w1) ->
         candidate E resp = Ok (PStr x) ->
         nonblank x = true ->
         ask_loop E (i :: rest) m w0 = (Ok x, w1))
  /\ (forall i rest m w0 resp w1 x,
         call_aipipe_api E (body m) w0 = (Ok resp, w1) ->
         candidate E resp = Ok (PStr x) ->
         nonblank x = false ->
         ask_loop E (i :: rest) m w0 = ask_loop E rest (m ++ [nudge]) w1)
  /\ (forall i rest m w0 e w1,
         call_aipipe_api E (body m) w0 = (Raise e, w1) ->
         ask_loop E (i :: rest) m w0
         = ask_loop E rest (m ++ [nudge]) (w1 ++ [Printed (LlmError e)]))
  /\ (forall i rest m w0 resp w1 e,
         call_aipipe_api E (body m) w0 = (Ok resp, w1) ->
         candidate E resp = Raise e ->
         ask_loop E (i :: rest) m w0
         = ask_loop E rest (m ++ [nudge]) (w1 ++ [Printed (LlmError e)]))
  /\ (forall w1 w2 w3,
         attempt E m0 w = (Ok None, w1) ->
         attempt E (m0 ++ [nudge]) w1 = (Ok None, w2) ->
         attempt E ((m0 ++ [nudge]) ++ [nudge]) w2 = (Ok None, w3) ->
         ask_llm_for_answer E prompt w = (Ok (py "{}"), w3)).
Proof.
  intros m0. split; [|split; [|split; [|split; [|split]]]].
  - exact (ask_llm_for_answer_conversation prompt w).
  - intros i rest m w0 resp w1 x Hc Hx Hb.
    cbn [ask_loop]. unfold attempt. run. rewrite Hc, Hx.
    cbn [method_strip]. unfold nonblank in Hb.
    destruct (strip x); [discriminate|reflexivity].
  - intros i rest m w0 resp w1 x Hc Hx Hb.
    cbn [ask_loop]. unfold attempt. run. rewrite Hc, Hx.
    cbn [method_strip]. unfold nonblank in Hb.
    destruct (strip x); [reflexivity|discriminate].
  - intros i rest m w0 e w1 Hc.
    cbn [ask_loop]. unfold attempt. run. now rewrite Hc.
  - intros i rest m w0 resp w1 e Hc Hx.
    cbn [ask_loop]. unfold attempt. run. now rewrite Hc, Hx.
  - intros w1 w2 w3 H1 H2 H3.
    unfold ask_llm_for_answer. fold m0. cbn [seq ask_loop].
    unfold bind. now rewrite H1, H2, H3.
Qed.

(** [llm_json] never raises: the parse and both repairs answer [None]
    where they fail, and the retry loop prints what it catches. *)
Lemma llm_json_never_raises (prompt : str) (w : world) :
  exists v w', llm_json E prompt w = (Ok v, w').
Proof.
  destruct (ask_llm_for_answer_conversation prompt w)
    as (out & w' & _ & _ & _ & Hrun & _).
  unfold llm_json, bind. rewrite Hrun.
  destruct (Json.loads out); [eexists; eexists; reflexivity|].
  destruct (truthy (try_extract_json out)); [eexists; eexists; reflexivity|].
  destruct (truthy (repair_json_string out)); eexists; eexists; reflexivity.
Qed.

End WithEnv.

(** The claim of C6 as the specification words it fails: a candidate of
    one space is not empty, and it is not returned; the loop asks again
    and returns the second answer. *)
Lemma ask_llm_for_answer_skips_blank :
  let m0 := [system_message; message (py "user") (py "PLANNER")] in
  call_aipipe_api Examples.blank_env (body m0) []
  = (Ok (Examples.chat_reply (py " ")), [AipipePost (body m0)])
  /\ candidate Examples.blank_env (Examples.chat_reply (py " "))
     = Ok (PStr (py " "))
  /\ py " " <> []
  /\ ask_llm_for_answer Examples.blank_env (py "PLANNER") []
     = (Ok (py "ok"),
        [AipipePost (body m0); AipipePost (body (m0 ++ [nudge]))]).
Proof.
  repeat split; try reflexivity. discriminate.
Qed.

Lemma ask_llm_for_answer_retries_witness :
  let m0 := [system_message; message (py "user") (py "PLANNER")] in
  ask_loop Examples.wrong_env [0; 1; 2] m0 []
  = (Ok Examples.full_answer, [AipipePost (body m0)])
  /\ ask_loop Examples.blank_env [0; 1; 2] m0 []
     = ask_loop Examples.blank_env [1; 2] (m0 ++ [nudge]) [AipipePost (body m0)]
  /\ ask_loop Examples.down_env [2] m0 []
     = ask_loop Examples.down_env [] (m0 ++ [nudge])
         ([AipipePost (body m0); Slept; AipipePost (body m0); Slept;
           AipipePost (body m0)]
          ++ [Printed (LlmError (OtherError (py "ConnectError") (py "down")))])
  /\ ask_loop Examples.no_choice_env [2] m0 []
     = ask_loop Examples.no_choice_env [] (m0 ++ [nudge])
         ([AipipePost (body m0)]
          ++ [Printed (LlmError (IndexError (py "list index out of range")))])
  /\ fst (ask_llm_for_answer Examples.down_env (py "PLANNER") []) = Ok (py "{}").
Proof.
  intros m0.
  split; [|split; [|split; [|split]]].
  - destruct (ask_llm_for_answer_retries Examples.wrong_env (py "PLANNER") [])
      as (_ & H & _).
    eapply H; reflexivity.
  - destruct (ask_llm_for_answer_retries Examples.blank_env (py "PLANNER") [])
      as (_ & _ & H & _).
    eapply H; reflexivity.
  - destruct (ask_llm_for_answer_retries Examples.down_env (py "PLANNER") [])
      as (_ & _ & _ & H & _).
    eapply H; reflexivity.
  - destruct (ask_llm_for_answer_retries Examples.no_choice_env (py "PLANNER") [])
      as (_ & _ & _ & _ & H & _).
    eapply H; reflexivity.
  - destruct (ask_llm_for_answer_retries Examples.down_env (py "PLANNER") [])
      as (_ & _ & _ & _ & _ & H).
    erewrite H; reflexivity.
Defined.

(** Where the text does not parse and neither repair yields anything,
    [llm_json] returns the empty mapping. *)
Lemma llm_json_empty_when_all_fail (E : env) (prompt : str) (w : world)
    (text : str) (w' : world) :
  ask_llm_for_answer E prompt w = (Ok text, w') ->
  Json.loads text = None ->
  truthy (try_extract_json text) = false ->
  truthy (repair_json_string text) = false ->
  llm_json E prompt w = (Ok (PDict []), w').
Proof.
  intros Hask Hl He Hr. unfold llm_json, bind.
  now rewrite Hask, Hl, He, Hr.
Qed.

(** Prose, and an endpoint that is down at every attempt, both end in
    the empty mapping. *)
Lemma llm_json_falls_back (prompt : str) (w : world) :
  fst (llm_json Examples.prose_env prompt w) = Ok (PDict [])
  /\ fst (llm_json Examples.down_env prompt w) = Ok (PDict []).
Proof.
  split; reflexivity.
Qed.

(** C1 fails on the code.  Where the model answers with the JSON array
    [[1, 2]], the first parse succeeds and [llm_json] returns the list,
    which is not a mapping, though [llm_json] is declared to return a
    [dict]. *)
Theorem llm_json_returns_array (prompt : str) (w : world) :
  fst (llm_json Examples.array_env prompt w) = Ok (PList [PInt 1; PInt 2])
  /\ is_dict (PList [PInt 1; PInt 2]) = false.
Proof.
  split; reflexivity.
Qed.

End LlmFacts.

(* ================================================================== *)
(** * [app/solver.py]: submit discovery, one step, the chain *)
(* ================================================================== *)

Module SolverFacts.
Import Py Re World Solver Observe.



(** ** Lines that can and cannot be written *)

(** Where [prepare] returns, its first line was written, and with it
    the URL of the step. *)
Lemma prepare_ok_writes (E : env) (email secret : str) (quiz_url : pyval)
    (w : world) (r : str * list str * pyval) (w' : world) :
  prepare E email secret quiz_url w = (Ok r, w') -> writes E quiz_url = true.
Proof.
  unfold prepare. unfold bind at 1. unfold print at 1. cbn [printable].
  intros H. destruct (writes E quiz_url); [reflexivity|discriminate H].
Qed.

Lemma solve_single_ok_writes (E : env) (email secret : str) (quiz_url : pyval)
    (w : world) (step : dict) (w' : world) :
  solve_single E email secret quiz_url w = (Ok step, w') ->
  writes E quiz_url = true.
Proof.
  unfold solve_single. unfold bind at 1.
  destruct (prepare E email secret quiz_url w) as [[r|e] w1] eqn:Hp;
    [|discriminate].
  intros _. exact (prepare_ok_writes _ _ _ _ _ _ _ Hp).
Qed.

(** ** One iteration of the chain *)

Lemma attempt_step_returns (E : env) (solve : pyval -> M dict)
    (current : pyval) (w : world) (step : dict) (w' : world) :
  solve current w = (Ok step, w') ->
  attempt_step E solve current w = (Ok step, w').
Proof.
  intros H. unfold attempt_step, try_catch. now rewrite H.
Qed.

Lemma attempt_step_catches (E : env) (solve : pyval -> M dict)
    (current : pyval) (w : world) (e : exn) (w' : world) :
  solve current w = (Raise e, w') ->
  printable E (StepFailed e) = true ->
  attempt_step E solve current w
  = (Ok [(py "error", PStr (exn_str e))], w' ++ [Printed (StepFailed e)]).
Proof.
  intros H Hp. unfold attempt_step, try_catch, bind, print, ret.
  now rewrite H, Hp.
Qed.

(** The handler prints before it makes the record: where its line
    cannot be written, the exception of [print] leaves the handler. *)
Lemma attempt_step_loses (E : env) (solve : pyval -> M dict)
    (current : pyval) (w : world) (e : exn) (w' : world) :
  solve current w = (Raise e, w') ->
  printable E (StepFailed e) = false ->
  attempt_step E solve current w
  = (Raise (UnicodeEncodeError (print_error E (StepFailed e))), w').
Proof.
  intros H Hp. unfold attempt_step, try_catch, bind, print, ret.
  now rewrite H, Hp.
Qed.

Lemma attempt_step_attempted (E : env) (solve : pyval -> M dict)
    (current : pyval) (w : world) (step : dict) (w' : world) :
  attempt_step E solve current w = (Ok step, w') ->
  attempted E solve current w step w'.
Proof.
  unfold attempt_step, try_catch.
  destruct (solve current w) as [[s|e] w1] eqn:Hs.
  - intros H. injection H as <- <-. now apply attempted_ok.
  - unfold bind, print, ret.
    destruct (printable E (StepFailed e)) eqn:Hp; [|discriminate].
    intros H. injection H as <- <-. now apply attempted_failed.
Qed.

Lemma attempt_step_raises (E : env) (solve : pyval -> M dict)
    (current : pyval) (w : world) (e' : exn) (w' : world) :
  attempt_step E solve current w = (Raise e', w') ->
  exists e,
    solve current w = (Raise e, w')
    /\ printable E (StepFailed e) = false
    /\ e' = UnicodeEncodeError (print_error E (StepFailed e)).
Proof.
  unfold attempt_step, try_catch.
  destruct (solve current w) as [[s|e] w1] eqn:Hs; [discriminate|].
  unfold bind, print, ret.
  destruct (printable E (StepFailed e)) eqn:Hp; [discriminate|].
  intros H. injection H as <- <-. exists e. auto.
Qed.

(** The iteration, by what can be written and what the step says. *)
Lemma chain_loop_step (E : env) (solve : pyval -> M dict) (i : nat)
    (rest : list nat) (current : pyval) (steps : list pyval) (w : world) :
  chain_loop E solve (i :: rest) current steps w
  = if writes E current then
      match attempt_step E solve current
              (w ++ [Printed (StepBanner (i + 1) current)]) with
      | (Ok step, w1) =>
          if stops_incorrect step
          then (Ok (steps ++ [quiz_step current step]),
                w1 ++ [Printed StopIncorrect])
          else if truthy (next_url_of step)
          then chain_loop E solve rest (next_url_of step)
                 (steps ++ [quiz_step current step]) w1
          else (Ok (steps ++ [quiz_step current step]), w1)
      | (Raise e, w1) => (Raise e, w1)
      end
    else (Raise (UnicodeEncodeError
                   (print_error E (StepBanner (i + 1) current))), w).
Proof.
  cbn [chain_loop]. unfold bind at 1. unfold print at 1. cbn [printable].
  destruct (writes E current); [|reflexivity].
  unfold bind at 1.
  destruct (attempt_step E solve current
              (w ++ [Printed (StepBanner (i + 1) current)]))
    as [[step|e] w1]; [|reflexivity].
  destruct (stops_incorrect step); [reflexivity|].
  destruct (truthy (next_url_of step)); reflexivity.
Qed.

Lemma stops_incorrect_no_next (step : dict) :
  stops_incorrect step = true -> truthy (next_url_of step) = false.
Proof.
  unfold stops_incorrect.
  destruct (dict_get step (py "response")) as [[]|]; try discriminate.
  intros H. apply andb_true_iff in H as [_ H]. now apply negb_true_iff in H.
Qed.

Lemma chain_loop_stop_incorrect E solve i rest current steps w step w' :
  writes E current = true ->
  attempt_step E solve current (w ++ [Printed (StepBanner (i + 1) current)])
  = (Ok step, w') ->
  stops_incorrect step = true ->
  chain_loop E solve (i :: rest) current steps w
  = (Ok (steps ++ [quiz_step current step]), w' ++ [Printed StopIncorrect]).
Proof.
  intros Hw Hs Hi. now rewrite chain_loop_step, Hw, Hs, Hi.
Qed.

Lemma chain_loop_stop E solve i rest current steps w step w' :
  writes E current = true ->
  attempt_step E solve current (w ++ [Printed (StepBanner (i + 1) current)])
  = (Ok step, w') ->
  stops_incorrect step = false ->
  truthy (next_url_of step) = false ->
  chain_loop E solve (i :: rest) current steps w
  = (Ok (steps ++ [quiz_step current step]), w').
Proof.
  intros Hw Hs Hi Hn. now rewrite chain_loop_step, Hw, Hs, Hi, Hn.
Qed.

Lemma chain_loop_next E solve i rest current steps w step w' :
  writes E current = true ->
  attempt_step E solve current (w ++ [Printed (StepBanner (i + 1) current)])
  = (Ok step, w') ->
  truthy (next_url_of step) = true ->
  chain_loop E solve (i :: rest) current steps w
  = chain_loop E solve rest (next_url_of step)
      (steps ++ [quiz_step current step]) w'.
Proof.
  intros Hw Hs Hn. rewrite chain_loop_step, Hw, Hs, Hn.
  destruct (stops_incorrect step) eqn:Hi; [|reflexivity].
  apply stops_incorrect_no_next in Hi. congruence.
Qed.

(** ** The run as a whole *)

Lemma entry_next_entry (current : pyval) (step : dict) :
  entry_next (trace_entry current step) = next_url_of step.
Proof. reflexivity. Qed.

Lemma visits_head E solve numbers current w trace w' :
  visits E solve numbers current w trace w' ->
  exists step rest, trace = trace_entry current step :: rest.
Proof.
  destruct 1; eexists; eexists; reflexivity.
Qed.

Lemma visits_length E solve numbers current w trace w' :
  visits E solve numbers current w trace w' ->
  1 <= length trace <= length numbers.
Proof.
  induction 1; cbn [length] in *; lia.
Qed.


Lemma last_in {A} (l : list A) (d : A) : l <> [] -> In (last l d) l.
Proof.
  induction l as [|a l IH]; [congruence|]. intros _.
  destruct l as [|b l]; [now left|].
  right. apply IH. discriminate.
Qed.

(** A trace that the loop returns lists a run of steps: the steps before
    it are kept, the history is that of the last step (with the line
    that reports a wrong answer, where the loop stops for one), and the
    run went through every iteration unless its last step names no next
    URL. *)
Lemma chain_loop_visits (E : env) (solve : pyval -> M dict)
    (iterations : list nat) :
  forall current steps w trace w',
    iterations <> [] ->
    chain_loop E solve iterations current steps w = (Ok trace, w') ->
    exists added w1,
      trace = steps ++ added
      /\ visits E solve iterations current w added w1
      /\ (w' = w1 \/ w' = w1 ++ [Printed StopIncorrect])
      /\ (length added = length iterations
          \/ truthy (entry_next (last added PNone)) = false).
Proof.
  induction iterations as [|i rest IH];
    intros current steps w trace w' Hne H; [congruence|].
  rewrite chain_loop_step in H.
  destruct (writes E current) eqn:Hw; [|discriminate].
  destruct (attempt_step E solve current
              (w ++ [Printed (StepBanner (i + 1) current)]))
    as [[step|e] w1] eqn:Hs; [|discriminate].
  apply attempt_step_attempted in Hs.
  destruct (stops_incorrect step) eqn:Hi.
  { injection H as <- <-. exists [trace_entry current step], w1.
    split; [reflexivity|]. split; [now apply visits_last|].
    split; [now right|]. right. cbn [last]. rewrite entry_next_entry.
    now apply stops_incorrect_no_next. }
  destruct (truthy (next_url_of step)) eqn:Hn.
  - destruct rest as [|j rest'].
    + cbn [chain_loop] in H. unfold ret in H. injection H as <- <-.
      exists [trace_entry current step], w1.
      split; [reflexivity|]. split; [now apply visits_last|].
      split; [now left|]. now left.
    + apply IH in H; [|discriminate].
      destruct H as (added & w2 & -> & Hv & Hw' & Hlast).
      exists (trace_entry current step :: added), w2.
      split; [now rewrite <- app_assoc|].
      split; [now apply (visits_next E solve i (j :: rest') current w step w1)|].
      split; [exact Hw'|].
      destruct Hlast as [Hlen|Hlast]; [left; cbn [length] in *; lia|].
      right. destruct (visits_head _ _ _ _ _ _ _ Hv) as (s & r & ->).
      exact Hlast.
  - injection H as <- <-. exists [trace_entry current step], w1.
    split; [reflexivity|]. split; [now apply visits_last|].
    split; [now left|]. right. cbn [last]. now rewrite entry_next_entry.
Qed.

(** The loop returns a trace, or raises the [UnicodeEncodeError] of a
    line it could not write; nothing else leaves it. *)
Lemma chain_loop_outcome (E : env) (solve : pyval -> M dict)
    (iterations : list nat) :
  forall current steps w,
    (exists trace w', chain_loop E solve iterations current steps w = (Ok trace, w'))
    \/ (exists l w',
           chain_loop E solve iterations current steps w
           = (Raise (UnicodeEncodeError (print_error E l)), w')
           /\ printable E l = false).
Proof.
  induction iterations as [|i rest IH]; intros current steps w.
  - left. eexists. eexists. reflexivity.
  - rewrite chain_loop_step.
    destruct (writes E current) eqn:Hw.
    + destruct (attempt_step E solve current
                  (w ++ [Printed (StepBanner (i + 1) current)]))
        as [[step|e] w1] eqn:Hs.
      * destruct (stops_incorrect step); [left; eauto|].
        destruct (truthy (next_url_of step)); [apply IH|left; eauto].
      * apply attempt_step_raises in Hs. destruct Hs as (e0 & _ & Hp & ->).
        right. exists (StepFailed e0), w1. auto.
    + right. exists (StepBanner (i + 1) current), w. auto.
Qed.

(** Where stdout takes every line of the run, the loop returns. *)
Lemma chain_loop_returns (E : env) (solve : pyval -> M dict)
    (iterations : list nat) (current : pyval) (steps : list pyval) (w : world) :
  (forall l, printable E l = true) ->
  exists trace w', chain_loop E solve iterations current steps w = (Ok trace, w').
Proof.
  intros Hall.
  destruct (chain_loop_outcome E solve iterations current steps w)
    as [H|(l & w' & _ & Hl)]; [exact H|].
  rewrite Hall in Hl. discriminate.
Qed.

(** ** The chain driver *)

(** C2.  In any iteration of [solve_quiz_chain]: when the step's
    response is a mapping with [correct] false and no [url] key, the loop
    stops there, so that a chain whose first step answers so has a trace
    of exactly that step; when the response names a URL [X] under [url]
    (be [correct] false or not), the loop goes on with [X] as the current
    URL; and the next URL is read from the [url] key of a response that
    is a mapping, a step without such a response having none and ending
    the chain. *)
Theorem chain_follows_response (E : env) (email secret : str) :
  let solve := solve_single E email secret in
  (forall i rest current steps w step w' response,
      solve current (w ++ [Printed (StepBanner (i + 1) current)]) = (Ok step, w') ->
      dict_get step (py "response") = Some (PDict response) ->
      dict_get response (py "correct") = Some (PBool false) ->
      dict_get response (py "url") = None ->
      chain_loop E solve (i :: rest) current steps w
      = (Ok (steps ++ [quiz_step current step]), w' ++ [Printed StopIncorrect]))
  /\ (forall url owner_email w step w' response,
         solve url (w ++ [Printed (StepBanner 1 url)]) = (Ok step, w') ->
         dict_get step (py "response") = Some (PDict response) ->
         dict_get response (py "correct") = Some (PBool false) ->
         dict_get response (py "url") = None ->
         solve_quiz_chain E email secret url owner_email w
         = (Ok [quiz_step url step], w' ++ [Printed StopIncorrect]))
  /\ (forall i rest current steps w step w' response X,
         solve current (w ++ [Printed (StepBanner (i + 1) current)]) = (Ok step, w') ->
         dict_get step (py "response") = Some (PDict response) ->
         dict_get response (py "url") = Some (PStr X) ->
         X <> [] ->
         chain_loop E solve (i :: rest) current steps w
         = chain_loop E solve rest (PStr X) (steps ++ [quiz_step current step]) w')
  /\ (forall step response,
         dict_get step (py "response") = Some (PDict response) ->
         next_url_of step = dict_get_or_none response (py "url"))
  /\ (forall step,
         match dict_get step (py "response") with
         | Some v => is_dict v = false
         | None => True
         end ->
         next_url_of step = PNone)
  /\ (forall i rest current steps w step w',
         solve current (w ++ [Printed (StepBanner (i + 1) current)]) = (Ok step, w') ->
         next_url_of step = PNone ->
         exists w'',
           chain_loop E solve (i :: rest) current steps w
           = (Ok (steps ++ [quiz_step current step]), w'')).
Proof.
  intros solve.
  assert (stop : forall i rest current steps w step w' response,
             solve current (w ++ [Printed (StepBanner (i + 1) current)]) = (Ok step, w') ->
             dict_get step (py "response") = Some (PDict response) ->
             dict_get response (py "correct") = Some (PBool false) ->
             dict_get response (py "url") = None ->
             chain_loop E solve (i :: rest) current steps w
             = (Ok (steps ++ [quiz_step current step]), w' ++ [Printed StopIncorrect])).
  { intros i rest current steps w step w' response Hs Hr Hc Hu.
    apply chain_loop_stop_incorrect;
      [exact (solve_single_ok_writes _ _ _ _ _ _ _ Hs)
      |now apply attempt_step_returns|].
    unfold stops_incorrect, next_url_of, dict_get_or_none.
    now rewrite Hr, Hc, Hu. }
  split; [exact stop|].
  split.
  { intros url owner_email w step w' response Hs Hr Hc Hu.
    unfold solve_quiz_chain. cbn [seq].
    now rewrite (stop 0 _ url [] w step w' response). }
  split.
  { intros i rest current steps w step w' response X Hs Hr Hu HX.
    assert (Hn : next_url_of step = PStr X).
    { unfold next_url_of, dict_get_or_none. now rewrite Hr, Hu. }
    rewrite <- Hn. apply chain_loop_next;
      [exact (solve_single_ok_writes _ _ _ _ _ _ _ Hs)
      |now apply attempt_step_returns|].
    rewrite Hn. destruct X; [congruence|reflexivity]. }
  split.
  { intros step response Hr. unfold next_url_of. now rewrite Hr. }
  split.
  { intros step H. unfold next_url_of.
    destruct (dict_get step (py "response")) as [[]|]; try reflexivity.
    discriminate. }
  intros i rest current steps w step w' Hs Hn.
  pose proof (solve_single_ok_writes _ _ _ _ _ _ _ Hs) as Hw.
  apply (attempt_step_returns E) in Hs.
  destruct (stops_incorrect step) eqn:Hi.
  - eexists. eapply chain_loop_stop_incorrect; eassumption.
  - eexists. eapply chain_loop_stop; [eassumption|eassumption|assumption|now rewrite Hn].
Qed.

(** C3 (as amended).  A trace that [solve_quiz_chain] returns has at
    least one and at most twelve entries; it has exactly twelve where
    every step of the run named a next URL that counts as true (a text
    that is not empty), and a shorter one ends with a step that names
    none.  The chain returns its trace unless a line of the run could
    not be written to stdout. *)
Theorem chain_stops_at_twelve (E : env) (email secret : str)
    (url owner_email : pyval) (w : world) :
  (forall trace w',
      solve_quiz_chain E email secret url owner_email w = (Ok trace, w') ->
      1 <= length trace <= 12
      /\ ((forall e, In e trace -> truthy (entry_next e) = true) ->
          length trace = 12)
      /\ (length trace < 12 -> truthy (entry_next (last trace PNone)) = false))
  /\ ((exists trace w',
          solve_quiz_chain E email secret url owner_email w = (Ok trace, w'))
      \/ (exists l w',
             solve_quiz_chain E email secret url owner_email w
             = (Raise (UnicodeEncodeError (print_error E l)), w')
             /\ printable E l = false)).
Proof.
  split.
  - intros trace w' Hrun. unfold solve_quiz_chain in Hrun.
    apply chain_loop_visits in Hrun; [|discriminate].
    destruct Hrun as (added & w1 & -> & Hv & _ & Hlast).
    cbn [app]. pose proof (visits_length _ _ _ _ _ _ _ Hv) as Hlen.
    cbn [length seq] in Hlen, Hlast.
    split; [exact Hlen|]. split.
    + intros Hall. destruct Hlast as [Hl|Hl]; [exact Hl|].
      rewrite Hall in Hl; [discriminate|].
      apply last_in. destruct (visits_head _ _ _ _ _ _ _ Hv) as (s & r & ->).
      discriminate.
    + intros Hshort. destruct Hlast as [Hl|Hl]; [lia|exact Hl].
  - apply chain_loop_outcome.
Qed.

(** ** A failed step *)

(** Where [solve_single] raises and the line that reports it can be
    written, the record of the failure is appended under the URL of the
    step, and the loop returns. *)
Lemma chain_loop_records_failure (E : env) (solve : pyval -> M dict)
    i rest current steps w e w' :
  writes E current = true ->
  solve current (w ++ [Printed (StepBanner (i + 1) current)]) = (Raise e, w') ->
  printable E (StepFailed e) = true ->
  chain_loop E solve (i :: rest) current steps w
  = (Ok (steps ++ [PDict [(py "url", current);
                          (py "result", PDict [(py "error", PStr (exn_str e))])]]),
     w' ++ [Printed (StepFailed e)]).
Proof.
  intros Hw Hs Hp.
  apply (attempt_step_catches E) in Hs; [|exact Hp].
  now apply chain_loop_stop.
Qed.

(** Where that line cannot be written, the exception of [print] leaves
    the loop, and no trace is returned. *)
Lemma chain_loop_loses_failure (E : env) (solve : pyval -> M dict)
    i rest current steps w e w' :
  writes E current = true ->
  solve current (w ++ [Printed (StepBanner (i + 1) current)]) = (Raise e, w') ->
  printable E (StepFailed e) = false ->
  chain_loop E solve (i :: rest) current steps w
  = (Raise (UnicodeEncodeError (print_error E (StepFailed e))), w').
Proof.
  intros Hw Hs Hp.
  apply (attempt_step_loses E) in Hs; [|exact Hp].
  now rewrite chain_loop_step, Hw, Hs.
Qed.

(** C4 fails on the code.  The page of the first step makes the browser
    fail with a message that stdout cannot write: [solve_single] raises,
    the chain driver catches the exception, and the line its handler
    prints first raises in turn.  That exception leaves
    [solve_quiz_chain]; the step is not recorded and no trace is
    returned.  With a message that can be written, the same failure is
    recorded under the URL of the step and the chain returns. *)
Theorem chain_loses_failure_report :
  let failure := OtherError (py "Error")
                   (py "Page.evaluate: Error: " ++ Examples.lone_surrogate) in
  solve_single Examples.garbled_env (py "a@b.c") (py "s3cret") Examples.start
    [Printed (StepBanner 1 Examples.start)]
  = (Raise failure,
     [Printed (StepBanner 1 Examples.start);
      Printed (SolvingQuiz Examples.start); Rendered Examples.start])
  /\ solve_quiz_chain Examples.garbled_env (py "a@b.c") (py "s3cret")
       Examples.start PNone []
     = (Raise (UnicodeEncodeError (py "surrogates not allowed")),
        [Printed (StepBanner 1 Examples.start);
         Printed (SolvingQuiz Examples.start); Rendered Examples.start])
  /\ solve_quiz_chain Examples.broken_env (py "a@b.c") (py "s3cret")
       Examples.start PNone []
     = (Ok [PDict [(py "url", Examples.start);
                   (py "result",
                    PDict [(py "error", PStr (py "Executable doesn't exist"))])]],
        [Printed (StepBanner 1 Examples.start);
         Printed (SolvingQuiz Examples.start); Rendered Examples.start;
         Printed (StepFailed (OtherError (py "Error")
                                (py "Executable doesn't exist")))]).
Proof.
  intros failure. split; [reflexivity|]. split.
  - unfold solve_quiz_chain. cbn [seq].
    apply (chain_loop_loses_failure Examples.garbled_env _ 0 _ Examples.start
             [] [] failure); reflexivity.
  - unfold solve_quiz_chain. cbn [seq].
    etransitivity.
    { apply (chain_loop_records_failure Examples.broken_env _ 0 _ Examples.start
               [] [] (OtherError (py "Error") (py "Executable doesn't exist")));
        reflexivity. }
    reflexivity.
Qed.


Lemma chain_follows_response_witness :
  let solve := solve_single Examples.wrong_env (py "a@b.c") (py "s3cret") in
  let again := solve_single Examples.retry_env (py "a@b.c") (py "s3cret") in
  let text := solve_single Examples.text_env (py "a@b.c") (py "s3cret") in
  (exists w',
      chain_loop Examples.wrong_env solve [11] Examples.start [] []
      = (Ok [quiz_step Examples.start
               (Examples.submitted_step (PDict Examples.wrong_response))], w'))
  /\ (exists w',
         solve_quiz_chain Examples.wrong_env (py "a@b.c") (py "s3cret")
           Examples.start PNone []
         = (Ok [quiz_step Examples.start
                  (Examples.submitted_step (PDict Examples.wrong_response))], w'))
  /\ (exists w',
         chain_loop Examples.retry_env again [10; 11] Examples.start [] []
         = chain_loop Examples.retry_env again [11] (PStr Examples.next_page)
             [quiz_step Examples.start
                (Examples.submitted_step (PDict Examples.retry_response))] w')
  /\ next_url_of (Examples.submitted_step (PDict Examples.retry_response))
     = PStr Examples.next_page
  /\ next_url_of (Examples.submitted_step (PStr (py "<html>Bad Gateway</html>")))
     = PNone
  /\ (exists w',
         chain_loop Examples.text_env text [0; 1] Examples.start [] []
         = (Ok [quiz_step Examples.start
                  (Examples.submitted_step (PStr (py "<html>Bad Gateway</html>")))],
            w')).
Proof.
  intros solve again text.
  destruct (chain_follows_response Examples.wrong_env (py "a@b.c") (py "s3cret"))
    as (H1 & H2 & _ & _ & H5 & _).
  destruct (chain_follows_response Examples.retry_env (py "a@b.c") (py "s3cret"))
    as (_ & _ & H3 & H4 & _ & _).
  destruct (chain_follows_response Examples.text_env (py "a@b.c") (py "s3cret"))
    as (_ & _ & _ & _ & _ & H6).
  split; [|split; [|split; [|split; [|split]]]].
  - eexists. eapply (H1 11 [] Examples.start [] [] _ _ Examples.wrong_response);
      reflexivity.
  - eexists. eapply (H2 Examples.start PNone [] _ _ Examples.wrong_response);
      reflexivity.
  - eexists.
    eapply (H3 10 [11] Examples.start [] [] _ _ Examples.retry_response
              Examples.next_page); try reflexivity.
    discriminate.
  - apply (H4 _ Examples.retry_response). reflexivity.
  - apply H5. reflexivity.
  - eapply (H6 0 [1] Examples.start [] []
              (Examples.submitted_step (PStr (py "<html>Bad Gateway</html>"))));
      reflexivity.
Defined.

(** The claim of C3 as the specification words it fails: the response
    of the only step of this run has a [url] key, with the empty text
    under it, and the chain stops after that step. *)
Lemma chain_stops_on_empty_url :
  exists trace w',
    solve_quiz_chain Examples.empty_url_env (py "a@b.c") (py "s3cret")
      Examples.start PNone []
    = (Ok trace, w')
    /\ trace = [PDict [(py "url", Examples.start);
                       (py "result",
                        PDict (Examples.submitted_step
                                 (PDict [(py "url", PStr [])])))]]
    /\ (forall e, In e trace -> entry_has_url e = true)
    /\ length trace = 1
    /\ length trace <> 12.
Proof.
  eexists. eexists. split; [reflexivity|]. split; [reflexivity|].
  split; [|split; [reflexivity|discriminate]].
  intros e [<-|[]]. reflexivity.
Qed.

(** A server that names a next page in each of its answers: the run has
    twelve steps. *)
Lemma chain_stops_at_twelve_witness :
  exists trace w',
    solve_quiz_chain Examples.retry_env (py "a@b.c") (py "s3cret")
      Examples.start PNone [] = (Ok trace, w')
    /\ length trace = 12.
Proof.
  destruct (chain_stops_at_twelve Examples.retry_env (py "a@b.c") (py "s3cret")
              Examples.start PNone []) as (H & _).
  destruct (solve_quiz_chain Examples.retry_env (py "a@b.c") (py "s3cret")
              Examples.start PNone []) as [[trace|e] w'] eqn:Hrun;
    [|vm_compute in Hrun; discriminate].
  exists trace, w'. split; [reflexivity|].
  destruct (H trace w' eq_refl) as (_ & Hfull & _).
  apply Hfull. intros e He.
  vm_compute in Hrun. injection Hrun as <- _.
  repeat (destruct He as [<-|He]; [reflexivity|]). destruct He.
Defined.


(** ** A result without [answer] *)




End SolverFacts.

(* ================================================================== *)
(** * [app/main.py]: the endpoint *)
(* ================================================================== *)

Module MainFacts.
Import Py World Solver Main Observe.

(** [JSONResponse] is built where its content can be rendered. *)
Lemma json_response_cases (E : env) (code : Z) (b : pyval) :
  (renderable b = true
   /\ json_response E code b = Ok {| status_code := code; content := b |})
  \/ (renderable b = false /\ exists e, json_response E code b = Raise e
                                         /\ forall c d, e <> HTTPException c d).
Proof.
  unfold json_response, renderable.
  destruct (finite_floats b); cbn [negb andb].
  - destruct (utf8_value b); cbn [negb].
    + left. split; reflexivity.
    + right. split; [reflexivity|]. eexists. split; [reflexivity|discriminate].
  - right. split; [reflexivity|]. eexists. split; [reflexivity|discriminate].
Qed.

(** What [post_quiz] makes of the body the handler wants to send. *)
Lemma sends_body (E : env) (b : pyval) (w' : world) :
  match json_response E 200 b with
  | Ok r => (Sent r, w')
  | Raise (HTTPException code detail) =>
      (Sent {| status_code := code;
               content := PDict [(py "detail", PStr detail)] |}, w')
  | Raise _ => (ServerError, w')
  end
  = (if renderable b then Sent {| status_code := 200; content := b |}
     else ServerError, w').
Proof.
  destruct (json_response_cases E 200 b) as [(Hr & ->)|(Hr & e & -> & He)];
    rewrite Hr; [reflexivity|].
  destruct e as [| | | | | | |c d|]; try reflexivity. now destruct (He c d).
Qed.

(** The handler on a request it lets in: the timeout notice where the
    deadline passes, the trace where the chain returns in time, the
    message of the exception where it raises in time. *)
Lemma post_quiz_served (E : env) (body : pyval) (p : QuizPayload) (w : world) :
  validate E body = Some p ->
  opt_str_eqb (QUIZ_SECRET E) (secret p) = true ->
  url p <> [] ->
  let run := solve_quiz_chain E (email p) (secret p) (PStr (url p))
               (opt_str_val (QUIZ_EMAIL E)) w in
  let evs := skipn (length w) (snd run) in
  post_quiz E body w
  = match deadline E w evs with
    | Some k =>
        (Sent {| status_code := 200; content := timeout_body |},
         w ++ firstn k evs ++ [WaitedFor])
    | None =>
        let b := match fst run with
                 | Ok trace => ok_body trace
                 | Raise e => error_body (exn_str e)
                 end in
        (if renderable b then Sent {| status_code := 200; content := b |}
         else ServerError, snd run)
    end.
Proof.
  intros Hv Hs Hu run evs. unfold post_quiz. rewrite Hv.
  unfold quiz_endpoint. rewrite Hs. cbn [negb].
  destruct (url p) as [|c u] eqn:Hurl; [congruence|].
  unfold bind at 1, try_catch, bind at 1, wait_for.
  fold run. destruct run as [r w'] eqn:Hrun. cbn [snd fst] in *. fold evs.
  destruct (deadline E w evs) as [k|].
  - reflexivity.
  - destruct r as [trace|e].
    + unfold ret, lift. apply sends_body.
    + assert (He : exists l, e = UnicodeEncodeError (print_error E l)).
      { subst run. unfold solve_quiz_chain in Hrun.
        destruct (SolverFacts.chain_loop_outcome E
                    (solve_single E (email p) (secret p)) (seq 0 12)
                    (PStr (c :: u)) [] w)
          as [(t & w0 & H)|(l & w0 & H & _)];
          rewrite H in Hrun; [discriminate|].
        injection Hrun as <- _. eauto. }
      destruct He as (l & ->).
      unfold bind, lift, ret.
      pose proof (sends_body E (error_body (exn_str (UnicodeEncodeError (print_error E l)))) w') as Hb.
      destruct (json_response E 200
                  (error_body (exn_str (UnicodeEncodeError (print_error E l)))))
        as [r|e']; exact Hb.
Qed.

(** C7 (as amended).  A body that is not a [QuizPayload] (a field is
    missing or [null]) is refused with 422 before the handler runs.
    Otherwise the endpoint answers 403 when the secret is not the
    configured one; otherwise 400 when the URL is the empty text;
    otherwise, where its body can be rendered, 200 with the timeout
    notice when the deadline passes, with the trace of the chain under
    [status: ok] when the chain returns in time, and with the message
    of the chain's exception under [status: error] when it raises in
    time.  Where the body cannot be rendered the answer is 500. *)
Theorem quiz_endpoint_statuses (E : env) (body : pyval) (w : world) :
  let r := fst (post_quiz E body w) in
  (validate E body = None -> r = Unprocessable)
  /\ (forall p,
         validate E body = Some p ->
         opt_str_eqb (QUIZ_SECRET E) (secret p) = false ->
         r = Sent {| status_code := 403;
                     content := PDict [(py "detail", PStr (py "Invalid secret"))] |})
  /\ (forall p,
         validate E body = Some p ->
         opt_str_eqb (QUIZ_SECRET E) (secret p) = true ->
         url p = [] ->
         r = Sent {| status_code := 400;
                     content := PDict [(py "detail",
                                        PStr (py "Missing url field"))] |})
  /\ (forall p,
         validate E body = Some p ->
         opt_str_eqb (QUIZ_SECRET E) (secret p) = true ->
         url p <> [] ->
         let run := solve_quiz_chain E (email p) (secret p) (PStr (url p))
                      (opt_str_val (QUIZ_EMAIL E)) w in
         exists b,
           ((exists k, deadline E w (skipn (length w) (snd run)) = Some k
                       /\ b = timeout_body)
            \/ (exists trace,
                   deadline E w (skipn (length w) (snd run)) = None
                   /\ fst run = Ok trace /\ b = ok_body trace)
            \/ (exists e,
                   deadline E w (skipn (length w) (snd run)) = None
                   /\ fst run = Raise e /\ b = error_body (exn_str e)))
           /\ r = if renderable b
                  then Sent {| status_code := 200; content := b |}
                  else ServerError)
  /\ (status r = 422 \/ status r = 403 \/ status r = 400
      \/ status r = 200 \/ status r = 500)%Z.
Proof.
  intros r.
  assert (H422 : validate E body = None -> r = Unprocessable).
  { intros Hv. subst r. unfold post_quiz. now rewrite Hv. }
  assert (H403 : forall p,
             validate E body = Some p ->
             opt_str_eqb (QUIZ_SECRET E) (secret p) = false ->
             r = Sent {| status_code := 403;
                         content := PDict [(py "detail",
                                            PStr (py "Invalid secret"))] |}).
  { intros p Hv Hs. subst r. unfold post_quiz, quiz_endpoint.
    now rewrite Hv, Hs. }
  assert (H400 : forall p,
             validate E body = Some p ->
             opt_str_eqb (QUIZ_SECRET E) (secret p) = true ->
             url p = [] ->
             r = Sent {| status_code := 400;
                         content := PDict [(py "detail",
                                            PStr (py "Missing url field"))] |}).
  { intros p Hv Hs Hu. subst r. unfold post_quiz, quiz_endpoint.
    now rewrite Hv, Hs, Hu. }
  assert (H200 : forall p,
             validate E body = Some p ->
             opt_str_eqb (QUIZ_SECRET E) (secret p) = true ->
             url p <> [] ->
             let run := solve_quiz_chain E (email p) (secret p) (PStr (url p))
                          (opt_str_val (QUIZ_EMAIL E)) w in
             exists b,
               ((exists k, deadline E w (skipn (length w) (snd run)) = Some k
                           /\ b = timeout_body)
                \/ (exists trace,
                       deadline E w (skipn (length w) (snd run)) = None
                       /\ fst run = Ok trace /\ b = ok_body trace)
                \/ (exists e,
                       deadline E w (skipn (length w) (snd run)) = None
                       /\ fst run = Raise e /\ b = error_body (exn_str e)))
               /\ r = if renderable b
                      then Sent {| status_code := 200; content := b |}
                      else ServerError).
  { intros p Hv Hs Hu run. subst r.
    rewrite (post_quiz_served E body p w Hv Hs Hu). fold run.
    destruct (deadline E w (skipn (length w) (snd run))) as [k|] eqn:Hd.
    - exists timeout_body. split; [left; eauto|reflexivity].
    - destruct (fst run) as [trace|e] eqn:Hr.
      + exists (ok_body trace). split; [right; left; eauto|reflexivity].
      + exists (error_body (exn_str e)).
        split; [right; right; eauto|reflexivity]. }
  split; [exact H422|]. split; [exact H403|]. split; [exact H400|].
  split; [exact H200|].
  destruct (validate E body) as [p|] eqn:Hv.
  - destruct (opt_str_eqb (QUIZ_SECRET E) (secret p)) eqn:Hs.
    + destruct (url p) as [|c u] eqn:Hu.
      * rewrite (H400 p eq_refl Hs Hu). cbn. auto.
      * destruct (H200 p eq_refl Hs ltac:(congruence)) as (b & _ & ->).
        destruct (renderable b); cbn; auto 6.
    + rewrite (H403 p eq_refl Hs). cbn. auto.
  - rewrite (H422 eq_refl). cbn. auto.
Qed.

(** The claim of C7 as the specification words it fails: a request with
    the right secret and no [url] is answered 422, not 400. *)
Lemma missing_url_is_unprocessable :
  Examples.no_url_request
  = PDict [(py "email", PStr (py "a@b.c")); (py "secret", PStr (py "s3cret"))]
  /\ QUIZ_SECRET Examples.wrong_env = Some (py "s3cret")
  /\ fst (post_quiz Examples.wrong_env Examples.no_url_request [])
     = Unprocessable
  /\ status (fst (post_quiz Examples.wrong_env Examples.no_url_request []))
     <> 400%Z.
Proof.
  repeat split. discriminate.
Qed.

Lemma quiz_endpoint_statuses_witness :
  status (fst (post_quiz Examples.wrong_env Examples.no_url_request [])) = 422%Z
  /\ status (fst (post_quiz Examples.wrong_env Examples.bad_secret_request []))
     = 403%Z
  /\ status (fst (post_quiz Examples.wrong_env Examples.empty_url_request []))
     = 400%Z
  /\ (exists trace,
         fst (post_quiz Examples.wrong_env Examples.good_request [])
         = Sent {| status_code := 200; content := ok_body trace |})
  /\ fst (post_quiz Examples.slow_env Examples.good_request [])
     = Sent {| status_code := 200; content := timeout_body |}
  /\ (exists detail,
         fst (post_quiz Examples.lost_env Examples.good_request [])
         = Sent {| status_code := 200; content := error_body detail |}).
Proof.
  destruct (quiz_endpoint_statuses Examples.wrong_env Examples.no_url_request [])
    as (H422 & _).
  destruct (quiz_endpoint_statuses Examples.wrong_env Examples.bad_secret_request [])
    as (_ & H403 & _).
  destruct (quiz_endpoint_statuses Examples.wrong_env Examples.empty_url_request [])
    as (_ & _ & H400 & _).
  destruct (quiz_endpoint_statuses Examples.wrong_env Examples.good_request [])
    as (_ & _ & _ & Hok & _).
  destruct (quiz_endpoint_statuses Examples.slow_env Examples.good_request [])
    as (_ & _ & _ & Hslow & _).
  destruct (quiz_endpoint_statuses Examples.lost_env Examples.good_request [])
    as (_ & _ & _ & Hlost & _).
  split; [rewrite H422; reflexivity|].
  split; [erewrite H403; reflexivity|].
  split; [erewrite H400; reflexivity|].
  split; [|split].
  - edestruct Hok as (b & [(k & Hd & _)|[(trace & _ & Hr & ->)|(e & _ & Hr & _)]] & Hsent);
      [reflexivity|reflexivity|discriminate|discriminate| |discriminate].
    exists trace. rewrite Hsent.
    vm_compute in Hr. injection Hr as <-. reflexivity.
  - edestruct Hslow as (b & [(k & _ & ->)|[(trace & Hd & _)|(e & Hd & _)]] & Hsent);
      [reflexivity|reflexivity|discriminate| |discriminate|discriminate].
    rewrite Hsent. reflexivity.
  - edestruct Hlost as (b & [(k & Hd & _)|[(trace & _ & Hr & _)|(e & _ & Hr & ->)]] & Hsent);
      [reflexivity|reflexivity|discriminate|discriminate|discriminate|].
    exists (exn_str e). rewrite Hsent.
    vm_compute in Hr. injection Hr as <-. reflexivity.
Defined.

End MainFacts.

(* ================================================================== *)
(** * More about the matcher and the decoder *)
(* ================================================================== *)

Module TextFacts.
Import Py Re Json Text ReFacts.

Lemma called_weaken {R} x c gs gs' (k : cont R) res :
  called x c gs k res -> incl gs gs' -> called x c gs' k res.
Proof.
  intros (u & x' & c' & Hx & Hg & Hk) Hi.
  exists u, x', c'. repeat split; auto.
Qed.

Lemma repeat_loop_calls {R} (greedy : bool)
    (step : str -> caps -> cont R -> option R) (gs : list nat) :
  (forall x c (k : cont R) res, step x c k = Some res -> called x c gs k res) ->
  forall n x c (k : cont R) res,
    repeat_loop greedy step k n x c = Some res -> called x c gs k res.
Proof.
  intros Hstep n. induction n as [|n IH]; intros x c k res H; cbn [repeat_loop] in H.
  - exists [], x, c. repeat split; auto.
  - assert (Hmore : forall res',
               step x c (fun x' c' =>
                           if Nat.ltb (length x') (length x)
                           then repeat_loop greedy step k n x' c' else None)
               = Some res' -> called x c gs k res').
    { intros res' Hs. apply Hstep in Hs.
      destruct Hs as (u & x' & c' & Hx & Hg & Hk).
      destruct (Nat.ltb (length x') (length x)); [|discriminate].
      apply IH in Hk. destruct Hk as (u2 & x2 & c2 & Hx2 & Hg2 & Hk2).
      exists (u ++ u2), x2, c2. repeat split.
      - now rewrite <- app_assoc, <- Hx2.
      - intros m Hm. now rewrite Hg2, Hg.
      - exact Hk2. }
    assert (Hnow : forall res', k x c = Some res' -> called x c gs k res').
    { intros res' Hk. exists [], x, c. repeat split; auto. }
    destruct greedy.
    + destruct (step x c _) as [r|] eqn:Hs.
      * injection H as <-. now apply Hmore.
      * now apply Hnow.
    + destruct (k x c) as [r|] eqn:Hk.
      * injection H as <-. now apply Hnow.
      * now apply Hmore.
Qed.

Lemma rmatch_calls {R} (r : regex) :
  forall x c (k : cont R) res,
    rmatch r x c k = Some res -> called x c (groups r) k res.
Proof.
  induction r as [|a|p|r1 IH1 r2 IH2|r1 IH1 r2 IH2|r1 IH1|r1 IH1|n r1 IH1];
    intros x c k res H; cbn [rmatch groups] in *.
  - exists [], x, c. repeat split; auto.
  - destruct x as [|b x']; [discriminate|].
    destruct (N.eqb a b); [|discriminate].
    exists [b], x', c. repeat split; auto.
  - destruct x as [|b x']; [discriminate|].
    destruct (p b); [|discriminate].
    exists [b], x', c. repeat split; auto.
  - apply IH1 in H. destruct H as (u & x' & c' & Hx & Hg & Hk).
    apply IH2 in Hk. destruct Hk as (u2 & x2 & c2 & Hx2 & Hg2 & Hk2).
    exists (u ++ u2), x2, c2. repeat split.
    + now rewrite <- app_assoc, <- Hx2.
    + intros m Hm. rewrite Hg2, Hg; auto; intros Hin; apply Hm, in_or_app; auto.
    + exact Hk2.
  - destruct (rmatch r1 x c k) as [r|] eqn:H1.
    + injection H as <-. apply IH1 in H1.
      eapply called_weaken; [exact H1|]. apply incl_appl, incl_refl.
    + apply IH2 in H.
      eapply called_weaken; [exact H|]. apply incl_appr, incl_refl.
  - eapply repeat_loop_calls; [|exact H]. intros; now apply IH1.
  - eapply repeat_loop_calls; [|exact H]. intros; now apply IH1.
  - apply IH1 in H. destruct H as (u & x' & c' & Hx & Hg & Hk).
    exists u, x', ((n, firstn (length x - length x') x) :: c').
    repeat split; [exact Hx| |exact Hk].
    intros m Hm. cbn [group].
    destruct (Nat.eqb n m) eqn:Hnm.
    + apply Nat.eqb_eq in Hnm. subst m. exfalso. apply Hm. now left.
    + apply Hg. intros Hin. apply Hm. now right.
Qed.

(** A greedy run of any characters before one given character goes up
    to the last such character. *)
Lemma greedy_any_then_char {R} (a : char) (kf : cont R) :
  (forall x c, kf x c <> None) ->
  forall n y c,
    length y < n ->
    repeat_loop true (rmatch (Cls any_char))
      (fun x' c' => rmatch (Chr a) x' c' kf) n y c
    = match after_last a y with
      | Some r => kf r c
      | None => None
      end.
Proof.
  intros Hkf n. induction n as [|n IH]; intros y c Hn; [lia|].
  destruct y as [|b y]; [reflexivity|].
  cbn [repeat_loop rmatch any_char length after_last] in *.
  replace (Nat.ltb (length y) (S (length y))) with true
    by (symmetry; apply Nat.ltb_lt; lia).
  rewrite IH by lia.
  destruct (after_last a y) as [r|].
  - destruct (kf r c) eqn:Hk; [reflexivity|]. now apply Hkf in Hk.
  - destruct (N.eqb a b); reflexivity.
Qed.

Lemma after_last_app (a : char) (body post : str) :
  lacks a post = true -> after_last a (body ++ a :: post) = Some post.
Proof.
  intros Hp.
  assert (Hnone : after_last a post = None).
  { induction post as [|b post IH]; [reflexivity|].
    cbn [lacks forallb] in Hp. apply andb_true_iff in Hp as [Hb Hp].
    cbn [after_last]. rewrite (IH Hp).
    apply negb_true_iff in Hb. now rewrite Hb. }
  induction body as [|b body IH]; cbn [app after_last].
  - now rewrite Hnone, N.eqb_refl.
  - now rewrite IH.
Qed.

(** The elements of an object always come back as a mapping. *)
Lemma parse_members_dict (scan : str -> option (pyval * str)) (n : nat) :
  forall x acc v r,
    parse_members scan n x acc = Some (v, r) -> is_dict v = true.
Proof.
  induction n as [|n IH]; intros x acc v r H; [discriminate|].
  cbn [parse_members] in H.
  destruct x as [|q xs]; [discriminate|].
  destruct (N.eqb q 34); [|discriminate].
  destruct (scanstring xs []) as [[key x2]|]; [|discriminate].
  destruct (skip_ws x2) as [|col x3]; [discriminate|].
  destruct (N.eqb col 58); [|discriminate].
  destruct (scan (skip_ws x3)) as [[v1 x4]|]; [|discriminate].
  destruct (skip_ws x4) as [|e x5]; [discriminate|].
  destruct (N.eqb e 125).
  { injection H as <- _. reflexivity. }
  destruct (N.eqb e 44); [|discriminate].
  now apply IH in H.
Qed.

(** A text that opens with a brace parses to a mapping or not at all. *)
Lemma loads_object_dict (r : str) (v : pyval) :
  loads (ch "{" :: r) = Some v -> is_dict v = true.
Proof.
  unfold loads.
  change (startswith [65279%N] (ch "{" :: r)) with false.
  change (skip_ws (ch "{" :: r)) with (ch "{" :: r).
  cbn [scan_once].
  change (N.eqb (ch "{") 34) with false.
  change (N.eqb (ch "{") 123) with true. cbv iota.
  destruct (skip_ws r) as [|c1 r1]; [discriminate|].
  destruct (N.eqb c1 125).
  - destruct (skip_ws r1); [|discriminate]. intros H. now injection H as <-.
  - destruct (parse_members _ _ _ _) as [[v' rest]|] eqn:Hp; [|discriminate].
    destruct (skip_ws rest); [|discriminate].
    intros H. injection H as <-. now apply parse_members_dict in Hp.
Qed.

Lemma scan_once_object_dict (d : nat) (r : str) (v : pyval) (rest : str) :
  scan_once d (ch "{" :: r) = Some (v, rest) -> is_dict v = true.
Proof.
  destruct d as [|d]; [discriminate|]. cbn [scan_once].
  change (N.eqb (ch "{") 34) with false.
  change (N.eqb (ch "{") 123) with true. cbv iota.
  destruct (skip_ws r) as [|c1 r1]; [discriminate|].
  destruct (N.eqb c1 125).
  - intros H. now injection H as <-.
  - apply parse_members_dict.
Qed.

Lemma scan_once_space (d : nat) (c : char) (rest : str) :
  isspace c = true -> scan_once d (c :: rest) = None.
Proof.
  intros Hc. apply isspace_range in Hc.
  destruct d as [|d]; [reflexivity|]. cbn [scan_once].
  assert (Hne : forall k, (32 < k < 133)%N -> N.eqb c k = false /\ N.eqb k c = false).
  { intros k Hk. split; apply N.eqb_neq; lia. }
  rewrite (proj1 (Hne 34%N ltac:(lia))), (proj1 (Hne 123%N ltac:(lia))),
    (proj1 (Hne 91%N ltac:(lia))).
  cbn [startswith py map list_ascii_of_string].
  change (N_of_ascii "n") with 110%N. change (N_of_ascii "t") with 116%N.
  change (N_of_ascii "f") with 102%N. change (N_of_ascii "N") with 78%N.
  change (N_of_ascii "I") with 73%N. change (N_of_ascii "-") with 45%N.
  rewrite (proj2 (Hne 110%N ltac:(lia))), (proj2 (Hne 116%N ltac:(lia))),
    (proj2 (Hne 102%N ltac:(lia))), (proj2 (Hne 78%N ltac:(lia))),
    (proj2 (Hne 73%N ltac:(lia))), (proj2 (Hne 45%N ltac:(lia))).
  cbn [andb]. unfold match_number.
  rewrite (proj1 (Hne 45%N ltac:(lia))), (proj1 (Hne 48%N ltac:(lia))).
  assert (Hr : in_range 49%N 57%N c = false).
  { unfold in_range. apply andb_false_iff.
    destruct Hc; [left|right]; apply N.leb_gt; lia. }
  now rewrite Hr.
Qed.

(** After white space of any kind, an opening brace leads to a mapping
    or to no value. *)
Lemma loads_spaces_object (sp r : str) (v : pyval) :
  forallb isspace sp = true ->
  loads (sp ++ ch "{" :: r) = Some v -> is_dict v = true.
Proof.
  intros Hsp. unfold loads.
  destruct (startswith [65279%N] (sp ++ ch "{" :: r)); [discriminate|].
  generalize (S (length (sp ++ ch "{" :: r))). intros d.
  induction sp as [|c sp IH].
  - cbn [app]. change (skip_ws (ch "{" :: r)) with (ch "{" :: r).
    destruct (scan_once d (ch "{" :: r)) as [[v' rest]|] eqn:Hs; [|discriminate].
    destruct (skip_ws rest); [|discriminate].
    intros H. injection H as <-. now apply scan_once_object_dict in Hs.
  - cbn [forallb] in Hsp. apply andb_true_iff in Hsp as [Hc Hsp].
    cbn [app skip_ws]. destruct (is_ws c); [now apply IH|].
    now rewrite scan_once_space.
Qed.

(** ** [str.strip] *)

Lemma lstrip_split (x : str) :
  exists sp, forallb isspace sp = true /\ x = sp ++ lstrip x.
Proof.
  induction x as [|c x (sp & Hsp & Hx)]; [exists []; split; reflexivity|].
  cbn [lstrip]. destruct (isspace c) eqn:Hc.
  - exists (c :: sp). cbn [forallb app]. rewrite Hc, Hsp. split; [reflexivity|].
    now rewrite <- Hx.
  - exists []. split; reflexivity.
Qed.

Lemma lstrip_head (x : str) :
  match lstrip x with
  | [] => True
  | c :: _ => isspace c = false
  end.
Proof.
  induction x as [|c x IH]; [exact I|].
  cbn [lstrip]. destruct (isspace c) eqn:Hc; [exact IH|exact Hc].
Qed.

Lemma lstrip_id (x : str) :
  match x with
  | [] => True
  | c :: _ => isspace c = false
  end ->
  lstrip x = x.
Proof.
  destruct x as [|c x]; [reflexivity|]. cbn [lstrip]. now intros ->.
Qed.

Lemma rstrip_split (x : str) :
  exists sp, forallb isspace sp = true /\ x = rstrip x ++ sp.
Proof.
  unfold rstrip. destruct (lstrip_split (rev x)) as (sp & Hsp & Hx).
  exists (rev sp). split.
  - rewrite forallb_forall in *. intros c Hc. apply Hsp. now apply in_rev.
  - rewrite <- rev_app_distr, <- Hx. now rewrite rev_involutive.
Qed.

(** A stripped text has no white space at either end, so stripping it
    again changes nothing. *)
Lemma strip_strip (x : str) : strip (strip x) = strip x.
Proof.
  assert (Hr : forall y, rstrip (rstrip y) = rstrip y).
  { intros y. unfold rstrip. rewrite rev_involutive.
    now rewrite (lstrip_id _ (lstrip_head (rev y))). }
  assert (Hl : lstrip (strip x) = strip x).
  { apply lstrip_id. unfold strip.
    destruct (rstrip_split (lstrip x)) as (sp & Hsp & Hx).
    pose proof (lstrip_head x) as Hh. rewrite Hx in Hh.
    destruct (rstrip (lstrip x)) as [|c y]; [exact I|exact Hh]. }
  unfold strip at 1. rewrite Hl. unfold strip. apply Hr.
Qed.

Lemma strip_split (x : str) :
  exists sp1 sp2,
    forallb isspace sp1 = true /\ forallb isspace sp2 = true
    /\ x = sp1 ++ strip x ++ sp2.
Proof.
  destruct (lstrip_split x) as (sp1 & H1 & Hx1).
  destruct (rstrip_split (lstrip x)) as (sp2 & H2 & Hx2).
  exists sp1, sp2. repeat split; try assumption.
  unfold strip. now rewrite <- Hx2.
Qed.

(** ** Substrings *)

Lemma startswith_app (p x y : str) :
  startswith p x = true -> startswith p (x ++ y) = true.
Proof.
  revert x. induction p as [|a p IH]; intros [|b x]; cbn [startswith app];
    try reflexivity; try discriminate.
  intros H. apply andb_true_iff in H as [H1 H2].
  now rewrite H1, IH.
Qed.

Lemma startswith_prefix (p x : str) : startswith p (p ++ x) = true.
Proof.
  induction p as [|a p IH]; [reflexivity|].
  cbn [startswith app]. now rewrite N.eqb_refl, IH.
Qed.

Lemma contains_startswith (n x : str) :
  startswith n x = true -> contains n x = true.
Proof. destruct x; cbn [contains]; now intros ->. Qed.

Lemma contains_app_l (n x y : str) :
  contains n x = true -> contains n (x ++ y) = true.
Proof.
  induction x as [|b x IH]; cbn [contains app].
  - rewrite orb_false_r. intros H.
    destruct n; [|discriminate]. now destruct y.
  - intros H. apply orb_true_iff in H as [H|H].
    + apply (startswith_app _ _ y) in H. cbn [app] in H. now rewrite H.
    + rewrite (IH H). apply orb_true_r.
Qed.

Lemma contains_app_r (n x y : str) :
  contains n y = true -> contains n (x ++ y) = true.
Proof.
  intros H. induction x as [|b x IH]; [exact H|].
  cbn [contains app]. rewrite IH. apply orb_true_r.
Qed.

Lemma contains_inside (n a u b : str) :
  contains n u = true -> contains n (a ++ u ++ b) = true.
Proof. intros H. now apply contains_app_r, contains_app_l. Qed.

(** ** Matches of a word, of a group, and the matches [finditer] lists *)

Lemma rmatch_word {R} (w x : str) (c : caps) (k : cont R) (res : R) :
  rmatch (Word w) x c k = Some res ->
  exists x', x = w ++ x' /\ k x' c = Some res.
Proof.
  revert x. induction w as [|a w IH]; intros x H; cbn [Word] in H.
  - exists x. split; [reflexivity|exact H].
  - rewrite rmatch_cat in H. destruct x as [|b x]; [discriminate|].
    rewrite rmatch_chr in H.
    destruct (N.eqb_spec a b) as [<-|]; [|discriminate].
    apply IH in H. destruct H as (x' & -> & Hk).
    exists x'. split; [reflexivity|exact Hk].
Qed.

Lemma rmatch_group_text {R} (n : nat) (r : regex) (x : str) (c : caps)
    (k : cont R) (res : R) :
  rmatch (Group n r) x c k = Some res ->
  exists u x' c', x = u ++ x' /\ k x' ((n, u) :: c') = Some res.
Proof.
  rewrite rmatch_group. intros H. apply rmatch_calls in H.
  destruct H as (u & x' & c' & -> & _ & Hk).
  rewrite firstn_consumed in Hk. eauto.
Qed.

Lemma finditer_from_in (r : regex) (m : str) (c : caps) (x : str) :
  forall skip,
    In (m, c) (finditer_from r x skip) ->
    exists pre y rest, x = pre ++ y /\ match_at r y = Some (m, c, rest).
Proof.
  assert (Hshift : forall b x',
             (exists pre y rest, x' = pre ++ y /\ match_at r y = Some (m, c, rest)) ->
             exists pre y rest,
               b :: x' = pre ++ y /\ match_at r y = Some (m, c, rest)).
  { intros b x' (pre & y & rest & -> & Hm). exists (b :: pre), y, rest. auto. }
  induction x as [|b x IH]; intros skip Hin.
  - destruct skip; cbn [finditer_from] in Hin; [|destruct Hin].
    destruct (match_at r []) as [[[m' c'] rest]|] eqn:Hm; [|destruct Hin].
    destruct Hin as [Heq|[]]. injection Heq as -> ->.
    exists [], [], rest. auto.
  - destruct skip; cbn [finditer_from] in Hin; [|apply Hshift; eauto].
    destruct (match_at r (b :: x)) as [[[m' c'] rest]|] eqn:Hm.
    + destruct Hin as [Heq|Hin].
      * injection Heq as -> ->. exists [], (b :: x), rest. auto.
      * apply Hshift; eauto.
    + apply Hshift; eauto.
Qed.

End TextFacts.

(* ================================================================== *)
(** * More about [app/llm.py] *)
(* ================================================================== *)

Module LlmMore.
Import Py Re World Llm Observe Account Text ReFacts TextFacts.

Lemma rendered_app (w1 w2 : world) :
  rendered (w1 ++ w2) = rendered w1 ++ rendered w2.
Proof.
  induction w1 as [|ev w1 IH]; [reflexivity|].
  destruct ev; simpl; now rewrite IH.
Qed.

Lemma submit_posts_app (w1 w2 : world) :
  submit_posts (w1 ++ w2) = submit_posts w1 ++ submit_posts w2.
Proof.
  induction w1 as [|ev w1 IH]; [reflexivity|].
  destruct ev; simpl; now rewrite IH.
Qed.

Lemma sleeps_app (w1 w2 : world) : sleeps (w1 ++ w2) = sleeps w1 + sleeps w2.
Proof.
  induction w1 as [|ev w1 IH]; [reflexivity|].
  destruct ev; simpl; now rewrite IH.
Qed.

(** ** [try_extract_json] *)

Lemma match_at_brace_head (y m : str) (c : caps) (rest : str) :
  match_at brace_span y = Some (m, c, rest) ->
  exists r, y = ch "{" :: r ++ rest /\ m = ch "{" :: r.
Proof.
  unfold match_at, brace_span. rewrite rmatch_cat.
  destruct y as [|b y']; [discriminate|].
  rewrite rmatch_chr.
  destruct (N.eqb_spec (ch "{") b) as [<-|]; [|discriminate].
  intros H. rewrite rmatch_cat in H. apply rmatch_calls in H.
  destruct H as (u & x' & c' & Hx & _ & Hk).
  apply rmatch_calls in Hk.
  destruct Hk as (u2 & x2 & c2 & Hx2 & _ & Hk2).
  injection Hk2 as <- _ <-. subst x' y'.
  exists (u ++ u2). rewrite (app_assoc u u2 x2). split; [reflexivity|].
  apply (firstn_consumed (ch "{" :: u ++ u2) x2).
Qed.

Lemma search_brace_head (text m : str) (c : caps) :
  search brace_span text = Some (m, c) -> exists r, m = ch "{" :: r.
Proof.
  induction text as [|b text IH]; cbn [search].
  - destruct (match_at brace_span []) as [[[m' c'] rest]|] eqn:Hm; [|discriminate].
    apply match_at_brace_head in Hm. destruct Hm as (r & Hy & _). discriminate.
  - destruct (match_at brace_span (b :: text)) as [[[m' c'] rest]|] eqn:Hm.
    + intros H. injection H as <- <-.
      apply match_at_brace_head in Hm. destruct Hm as (r & _ & ->). eauto.
    + exact IH.
Qed.

Lemma search_brace_skip (pre y : str) :
  lacks (ch "{") pre = true ->
  search brace_span (pre ++ y) = search brace_span y.
Proof.
  induction pre as [|b pre IH]; intros Hp; [reflexivity|].
  cbn [lacks forallb] in Hp. apply andb_true_iff in Hp as [Hb Hp].
  apply negb_true_iff in Hb.
  cbn [app search].
  assert (Hnone : match_at brace_span (b :: pre ++ y) = None).
  { unfold match_at, brace_span. now rewrite rmatch_cat, rmatch_chr, Hb. }
  rewrite Hnone. now apply IH.
Qed.

Lemma search_brace_none (text : str) :
  lacks (ch "{") text = true -> search brace_span text = None.
Proof.
  intros H. rewrite <- (app_nil_r text), (search_brace_skip text [] H).
  reflexivity.
Qed.

Lemma match_at_brace_span (body post : str) :
  lacks (ch "}") post = true ->
  match_at brace_span (ch "{" :: body ++ ch "}" :: post)
  = Some (ch "{" :: body ++ [ch "}"], [], post).
Proof.
  intros Hp. unfold match_at, brace_span.
  rewrite rmatch_cat, rmatch_chr, N.eqb_refl, rmatch_cat, rmatch_star.
  etransitivity.
  { apply (greedy_any_then_char (ch "}")); [intros; discriminate|lia]. }
  rewrite after_last_app by assumption.
  change (ch "{" :: body ++ ch "}" :: post)
    with ((ch "{" :: body) ++ [ch "}"] ++ post).
  rewrite app_assoc, firstn_consumed. reflexivity.
Qed.

(** X4.  [try_extract_json] answers [None] or a mapping, never another
    JSON value: what it parses opens with a brace.  It answers [None]
    for every text without an opening brace. *)
Theorem try_extract_json_mapping (text : str) :
  (try_extract_json text = PNone
   \/ exists d, try_extract_json text = PDict d)
  /\ (lacks (ch "{") text = true -> try_extract_json text = PNone).
Proof.
  split.
  - unfold try_extract_json.
    destruct (search brace_span text) as [[m c]|] eqn:Hs; [|now left].
    apply search_brace_head in Hs. destruct Hs as (r & ->).
    destruct (Json.loads (ch "{" :: r)) as [v|] eqn:Hl; [|now left].
    apply loads_object_dict in Hl. destruct v; try discriminate.
    right. eauto.
  - intros H. unfold try_extract_json. now rewrite search_brace_none.
Qed.

Lemma try_extract_json_mapping_witness :
  try_extract_json (py "Sorry, I cannot answer that.") = PNone.
Proof.
  apply (try_extract_json_mapping (py "Sorry, I cannot answer that.")).
  reflexivity.
Defined.

(** X5.  [try_extract_json] parses the text from the first opening brace
    to the last closing brace: around an object [{body}], a prefix
    without opening brace and a suffix without closing brace are left
    out.  So where the whole text does not parse and [{body}] is an
    object with a member, [llm_json] returns that object. *)
Theorem try_extract_json_span (pre body post : str) :
  lacks (ch "{") pre = true ->
  lacks (ch "}") post = true ->
  try_extract_json (pre ++ ch "{" :: body ++ ch "}" :: post)
  = match Json.loads (ch "{" :: body ++ [ch "}"]) with
    | Some v => v
    | None => PNone
    end
  /\ forall E prompt w w' d,
       ask_llm_for_answer E prompt w
       = (Ok (pre ++ ch "{" :: body ++ ch "}" :: post), w') ->
       Json.loads (pre ++ ch "{" :: body ++ ch "}" :: post) = None ->
       Json.loads (ch "{" :: body ++ [ch "}"]) = Some (PDict d) ->
       d <> [] ->
       llm_json E prompt w = (Ok (PDict d), w').
Proof.
  intros Hpre Hpost.
  assert (Hx : try_extract_json (pre ++ ch "{" :: body ++ ch "}" :: post)
               = match Json.loads (ch "{" :: body ++ [ch "}"]) with
                 | Some v => v
                 | None => PNone
                 end).
  { unfold try_extract_json.
    rewrite search_brace_skip by assumption.
    cbn [search]. now rewrite match_at_brace_span. }
  split; [exact Hx|].
  intros E prompt w w' d Hask Hwhole Hobj Hd.
  unfold llm_json, bind. rewrite Hask, Hwhole, Hx, Hobj.
  destruct d; [congruence|reflexivity].
Qed.

Lemma try_extract_json_span_witness :
  try_extract_json
    (py "Here is the answer: " ++ ch "{" :: (quoted (py "answer") ++ py ": 42")
     ++ ch "}" :: py " Hope it helps!")
  = PDict [(py "answer", PInt 42)].
Proof.
  destruct (try_extract_json_span (py "Here is the answer: ")
              (quoted (py "answer") ++ py ": 42") (py " Hope it helps!")
              eq_refl eq_refl) as (H & _).
  rewrite H. reflexivity.
Defined.

(** ** [repair_json_string] keeps an opening brace in front *)

Lemma try_extract_json_cases (text : str) :
  try_extract_json text = PNone \/ exists d, try_extract_json text = PDict d.
Proof.
  unfold try_extract_json.
  destruct (search brace_span text) as [[m c]|] eqn:Hs; [|now left].
  apply search_brace_head in Hs. destruct Hs as (r & ->).
  destruct (Json.loads (ch "{" :: r)) as [v|] eqn:Hl; [|now left].
  apply loads_object_dict in Hl. destruct v; try discriminate.
  right. eauto.
Qed.

Lemma sub_head_miss (r : regex) (t : list piece) (a : char) (x : str) :
  match_at r (a :: x) = None -> sub r t (a :: x) = a :: sub r t x.
Proof. intros H. unfold sub. cbn [sub_from]. now rewrite H. Qed.

Lemma sub_comma_head (close : char) (t : list piece) (x : str) :
  sub (Cat (Chr (ch ",")) (Cat (Star (Cls isspace)) (Chr close))) t
    (ch "{" :: x)
  = ch "{" :: sub (Cat (Chr (ch ",")) (Cat (Star (Cls isspace)) (Chr close))) t x.
Proof.
  apply sub_head_miss. unfold match_at. now rewrite rmatch_cat, rmatch_chr.
Qed.

Lemma match_at_bare_key_brace (x m : str) (c : caps) (rest : str) :
  match_at bare_key (ch "{" :: x) = Some (m, c, rest) ->
  group c 1 = [ch "{"].
Proof.
  unfold match_at, bare_key.
  rewrite rmatch_cat, rmatch_group, rmatch_alt, rmatch_chr, N.eqb_refl.
  match goal with
  | |- match ?a with _ => _ end = _ -> _ => destruct a as [res|] eqn:H1
  end.
  - intros H. injection H as ->.
    apply rmatch_calls in H1. destruct H1 as (u & x' & c' & _ & Hg & Hk).
    injection Hk as _ <- _.
    rewrite Hg.
    + cbn [group Nat.eqb]. apply (firstn_consumed [ch "{"] x).
    + cbn. intros [H|[]]; discriminate.
  - rewrite rmatch_chr. discriminate.
Qed.

Lemma sub_bare_key_head (x : str) :
  exists r, sub bare_key quoted_key (ch "{" :: x) = ch "{" :: r.
Proof.
  unfold sub. cbn [sub_from].
  destruct (match_at bare_key (ch "{" :: x)) as [[[m c] rest]|] eqn:Hm; [|eauto].
  apply match_at_bare_key_brace in Hm.
  unfold expand, quoted_key. cbn [flat_map]. rewrite Hm. cbn [app]. eauto.
Qed.

Lemma repaired_text_head (text r : str) :
  strip text = ch "{" :: r -> exists r', repaired_text text = ch "{" :: r'.
Proof.
  intros H. unfold repaired_text. rewrite H, ReFacts.sub_control_run.
  cbn [filter]. change (negb (control (ch "{"))) with true. cbv iota.
  unfold comma_brace, comma_bracket. rewrite !sub_comma_head.
  apply sub_bare_key_head.
Qed.

(** X6.  A completion that opens with a brace, white space apart, makes
    [llm_json] return a mapping: the whole text, the span between the
    braces and the repaired text all open with that brace, the decoder
    gives for each a mapping or nothing, and the last resort is the
    empty mapping. *)
Theorem llm_json_mapping_for_object_text (E : env) (prompt : str)
    (w w' : world) (text r : str) :
  ask_llm_for_answer E prompt w = (Ok text, w') ->
  strip text = ch "{" :: r ->
  exists d, llm_json E prompt w = (Ok (PDict d), w').
Proof.
  intros Hask Hstrip. unfold llm_json, bind. rewrite Hask.
  destruct (Json.loads text) as [v|] eqn:Hl.
  - destruct (strip_split text) as (sp1 & sp2 & H1 & _ & Hx).
    rewrite Hx, Hstrip in Hl. cbn [app] in Hl.
    apply loads_spaces_object in Hl; [|exact H1].
    destruct v; try discriminate. eexists; reflexivity.
  - destruct (try_extract_json_cases text) as [Hx|(d & Hx)]; rewrite Hx.
    + cbn [truthy].
      destruct (repaired_text_head text r Hstrip) as (r' & Hr).
      unfold repair_json_string. rewrite Hr.
      destruct (Json.loads (ch "{" :: r')) as [v|] eqn:Hl2.
      * apply loads_object_dict in Hl2. destruct v; try discriminate.
        destruct (truthy (PDict d)); eexists; reflexivity.
      * cbn [truthy]. eexists; reflexivity.
    + destruct (truthy (PDict d)) eqn:Ht; [eexists; reflexivity|].
      destruct (repaired_text_head text r Hstrip) as (r' & Hr).
      unfold repair_json_string. rewrite Hr.
      destruct (Json.loads (ch "{" :: r')) as [v|] eqn:Hl2.
      * apply loads_object_dict in Hl2. destruct v; try discriminate.
        destruct (truthy (PDict d0)); eexists; reflexivity.
      * cbn [truthy]. eexists; reflexivity.
Qed.

Lemma llm_json_mapping_for_object_text_witness :
  exists d w',
    llm_json MoreExamples.sloppy_env (py "PLANNER") [] = (Ok (PDict d), w').
Proof.
  edestruct (llm_json_mapping_for_object_text MoreExamples.sloppy_env
               (py "PLANNER") []) as (d & H).
  - lazy. reflexivity.
  - lazy. reflexivity.
  - eauto.
Defined.

(** ** What computations add to the history *)

Lemma footprint_nil : footprint [] 0 0 [].
Proof. repeat split; cbn; lia. Qed.

Lemma footprint_app r1 p1 s1 e1 r2 p2 s2 e2 :
  footprint r1 p1 s1 e1 -> footprint r2 p2 s2 e2 ->
  footprint (r1 ++ r2) (p1 + p2) (s1 + s2) (e1 ++ e2).
Proof.
  intros (Hr1 & Hp1 & Hs1) (Hr2 & Hp2 & Hs2). unfold footprint.
  rewrite rendered_app, LlmFacts.aipipe_posts_app, submit_posts_app, !length_app.
  rewrite Hr1, Hr2. repeat split; lia.
Qed.

Lemma footprint_weaken r p s p' s' e :
  footprint r p s e -> p <= p' -> s <= s' -> footprint r p' s' e.
Proof.
  intros (Hr & Hp & Hs) H1 H2. repeat split; [exact Hr|lia|lia].
Qed.

Lemma adds_weaken {A} (m : M A) r p s p' s' :
  adds m (footprint r p s) -> p <= p' -> s <= s' ->
  adds m (footprint r p' s').
Proof.
  intros H H1 H2 w. destruct (H w) as (evs & Hw & Hf).
  exists evs. split; [exact Hw|]. eapply footprint_weaken; eassumption.
Qed.

Lemma adds_ret {A} (a : A) : adds (ret a) (footprint [] 0 0).
Proof.
  intros w. exists []. rewrite app_nil_r. split; [reflexivity|apply footprint_nil].
Qed.

Lemma adds_raise {A} (e : exn) : adds (@raise A e) (footprint [] 0 0).
Proof.
  intros w. exists []. rewrite app_nil_r. split; [reflexivity|apply footprint_nil].
Qed.

Lemma adds_lift {A} (r : result A) : adds (lift r) (footprint [] 0 0).
Proof.
  intros w. exists []. rewrite app_nil_r. split; [reflexivity|apply footprint_nil].
Qed.

Lemma adds_print (E : env) (l : line) : adds (print E l) (footprint [] 0 0).
Proof.
  intros w. unfold print. destruct (printable E l).
  - exists [Printed l]. split; [reflexivity|]. repeat split; cbn; lia.
  - exists []. rewrite app_nil_r. split; [reflexivity|apply footprint_nil].
Qed.

Lemma adds_sleep : adds sleep (footprint [] 0 0).
Proof.
  intros w. exists [Slept]. split; [reflexivity|]. repeat split; cbn; lia.
Qed.

(** A computation and what follows it, when what follows renders
    nothing. *)
Lemma adds_bind {A B} (m : M A) (f : A -> M B) r p1 s1 p2 s2 :
  adds m (footprint r p1 s1) ->
  (forall a, adds (f a) (footprint [] p2 s2)) ->
  adds (bind m f) (footprint r (p1 + p2) (s1 + s2)).
Proof.
  intros Hm Hf w. unfold bind.
  destruct (Hm w) as (e1 & Hw1 & Hf1).
  destruct (m w) as [[a|e] w1]; cbn [snd] in Hw1; subst w1.
  - destruct (Hf a (w ++ e1)) as (e2 & Hw2 & Hf2).
    exists (e1 ++ e2). rewrite app_assoc. split; [exact Hw2|].
    rewrite <- (app_nil_r r). now apply footprint_app.
  - exists e1. split; [reflexivity|].
    eapply footprint_weaken; [exact Hf1|lia|lia].
Qed.

Lemma adds_try_catch {A} (m : M A) (h : exn -> M A) r p1 s1 p2 s2 :
  adds m (footprint r p1 s1) ->
  (forall e, adds (h e) (footprint [] p2 s2)) ->
  adds (try_catch m h) (footprint r (p1 + p2) (s1 + s2)).
Proof.
  intros Hm Hh w. unfold try_catch.
  destruct (Hm w) as (e1 & Hw1 & Hf1).
  destruct (m w) as [[a|e] w1]; cbn [snd] in Hw1; subst w1.
  - exists e1. split; [reflexivity|].
    eapply footprint_weaken; [exact Hf1|lia|lia].
  - destruct (Hh e (w ++ e1)) as (e2 & Hw2 & Hf2).
    exists (e1 ++ e2). rewrite app_assoc. split; [exact Hw2|].
    rewrite <- (app_nil_r r). now apply footprint_app.
Qed.

Section WithEnv.
Variable E : env.

Lemma adds_aipipe_post (payload : pyval) :
  adds (interact (AipipePost payload) (fun w => aipipe_post E w payload))
    (footprint [] 1 0).
Proof.
  intros w. exists [AipipePost payload]. split; [reflexivity|].
  repeat split; cbn; lia.
Qed.

Lemma adds_call_aipipe_loop (attempts : list nat) (payload : pyval) :
  adds (call_aipipe_loop E attempts payload) (footprint [] (length attempts) 0).
Proof.
  induction attempts as [|a rest IH]; cbn [call_aipipe_loop length].
  - apply adds_ret.
  - apply (adds_weaken _ [] (1 + length rest) (0 + 0)); [|lia|lia].
    apply adds_bind.
    + apply (adds_weaken _ [] (1 + 0) (0 + 0)); [|lia|lia].
      apply adds_try_catch.
      * apply (adds_weaken _ [] (1 + 0) (0 + 0)); [|lia|lia].
        apply adds_bind; [apply adds_aipipe_post|intros v; apply adds_ret].
      * intros e. destruct (Nat.eqb a 2); [apply adds_raise|].
        apply (adds_bind _ _ [] 0 0 0 0); [apply adds_sleep|intros; apply adds_ret].
    + intros [v|]; [|exact IH].
      apply (adds_weaken _ [] 0 0); [apply adds_ret|lia|lia].
Qed.

Lemma adds_attempt (messages : list pyval) :
  adds (attempt E messages) (footprint [] 3 0).
Proof.
  unfold attempt.
  apply (adds_try_catch _ _ [] 3 0 0 0).
  - apply (adds_bind _ _ [] 3 0 0 0);
      [apply (adds_call_aipipe_loop (seq 0 3))|].
    intros resp.
    apply (adds_bind _ _ [] 0 0 0 0); [apply adds_lift|]. intros out.
    apply (adds_bind _ _ [] 0 0 0 0); [apply adds_lift|]. intros stripped.
    destruct out; try apply adds_ret. destruct stripped; apply adds_ret.
  - intros e.
    apply (adds_bind _ _ [] 0 0 0 0); [apply adds_print|intros; apply adds_ret].
Qed.

Lemma adds_ask_loop (attempts : list nat) :
  forall messages,
    adds (ask_loop E attempts messages) (footprint [] (3 * length attempts) 0).
Proof.
  induction attempts as [|a rest IH]; intros messages; cbn [ask_loop length].
  - apply adds_ret.
  - apply (adds_weaken _ [] (3 + 3 * length rest) (0 + 0)); [|lia|lia].
    apply adds_bind; [apply adds_attempt|].
    intros [out|]; [|apply IH].
    apply (adds_weaken _ [] 0 0); [apply adds_ret|lia|lia].
Qed.

Lemma adds_llm_json (prompt : str) :
  adds (llm_json E prompt) (footprint [] 9 0).
Proof.
  unfold llm_json.
  apply (adds_bind _ _ [] 9 0 0 0); [apply (adds_ask_loop (seq 0 3))|].
  intros text. destruct (Json.loads text); [apply adds_ret|].
  destruct (truthy (try_extract_json text)); [apply adds_ret|].
  destruct (truthy (repair_json_string text)); apply adds_ret.
Qed.

(** X1.  [call_aipipe_api] answers with the outcome of its last network
    attempt.  Every attempt before the last one failed and was followed
    by one sleep; there is no sleep after the last; and it gives up only
    at the third attempt: after none or one failure the last attempt is a
    success. *)
Theorem call_aipipe_api_last_attempt (payload : pyval) (w : world) :
  exists failed,
    failed <= 2
    /\ call_aipipe_api E payload w
       = (aipipe_post E (after_failures payload w failed) payload,
          after_failures payload w failed ++ [AipipePost payload])
    /\ (forall j, j < failed ->
          exists e, aipipe_post E (after_failures payload w j) payload = Raise e)
    /\ (failed < 2 ->
        exists v, aipipe_post E (after_failures payload w failed) payload = Ok v).
Proof.
  unfold call_aipipe_api. cbn [seq call_aipipe_loop Nat.eqb]. run.
  destruct (aipipe_post E w payload) as [v|e1] eqn:H1.
  { exists 0. cbn [after_failures]. rewrite H1.
    split; [lia|]. split; [reflexivity|]. split; [intros j Hj; lia|eauto]. }
  rewrite <- app_assoc. cbn [app].
  destruct (aipipe_post E (w ++ [AipipePost payload; Slept]) payload)
    as [v|e2] eqn:H2.
  { exists 1. cbn [after_failures]. rewrite H2.
    split; [lia|]. split; [reflexivity|]. split; [|eauto].
    intros j Hj. assert (j = 0) as -> by lia. cbn [after_failures]. eauto. }
  rewrite <- app_assoc. cbn [app].
  exists 2. cbn [after_failures].
  split; [lia|]. split.
  { destruct (aipipe_post E ((w ++ [AipipePost payload; Slept])
                             ++ [AipipePost payload; Slept]) payload);
      reflexivity. }
  split; [|lia].
  intros j Hj.
  assert (j = 0 \/ j = 1) as [-> | ->] by lia; cbn [after_failures]; eauto.
Qed.

End WithEnv.

End LlmMore.

(* ================================================================== *)
(** * More about [app/solver.py] *)
(* ================================================================== *)

Module SolverMore.
Import Py Re World Solver Observe Account Text ReFacts TextFacts LlmMore SolverFacts.

(** ** [normalize_url] and [find_submit] *)

Lemma action_attr_inside (y m : str) (c : caps) (rest : str) :
  match_at action_attr y = Some (m, c, rest) ->
  exists a b, y = a ++ group c 1 ++ b.
Proof.
  unfold match_at, action_attr. rewrite rmatch_cat. intros H.
  apply rmatch_word in H. destruct H as (x1 & -> & H).
  rewrite rmatch_cat in H. apply rmatch_calls in H.
  destruct H as (q & x2 & c2 & -> & _ & H).
  rewrite rmatch_cat in H. apply rmatch_group_text in H.
  destruct H as (u & x3 & c3 & -> & H).
  apply rmatch_calls in H. destruct H as (q2 & x4 & c4 & _ & Hg & H).
  injection H as _ <- _. rewrite Hg by (intros []).
  cbn [group Nat.eqb]. exists (py "action=" ++ q), x3.
  now rewrite <- !app_assoc.
Qed.

Lemma url_token_mentions (y m : str) (c : caps) (rest : str) :
  match_at url_token y = Some (m, c, rest) -> mentions_submit y = true.
Proof.
  unfold match_at, url_token, Plus. rewrite rmatch_group, !rmatch_cat.
  intros H. apply rmatch_calls in H. destruct H as (q & x1 & c1 & -> & _ & H).
  apply rmatch_calls in H. destruct H as (q2 & x2 & c2 & -> & _ & H).
  apply rmatch_word in H. destruct H as (x3 & -> & _).
  unfold mentions_submit. rewrite app_assoc. apply contains_app_r.
  apply contains_startswith, startswith_prefix.
Qed.

Lemma findall1_action_attr_mentions (html m : str) :
  In m (findall1 action_attr html) -> mentions_submit m = true ->
  mentions_submit html = true.
Proof.
  unfold findall1, finditer. intros Hin Hm.
  apply in_map_iff in Hin. destruct Hin as ([m0 c] & <- & Hin).
  apply finditer_from_in in Hin. destruct Hin as (pre & y & rest & -> & Hy).
  apply action_attr_inside in Hy. destruct Hy as (a & b & ->).
  unfold mentions_submit. apply contains_app_r. now apply contains_inside.
Qed.

Lemma findall1_url_token_mentions (html m : str) :
  In m (findall1 url_token html) -> mentions_submit html = true.
Proof.
  unfold findall1, finditer. intros Hin.
  apply in_map_iff in Hin. destruct Hin as ([m0 c] & _ & Hin).
  apply finditer_from_in in Hin. destruct Hin as (pre & y & rest & -> & Hy).
  apply url_token_mentions in Hy. unfold mentions_submit.
  now apply contains_app_r.
Qed.

(** X7.  [find_submit] finds nothing where the word submit occurs
    nowhere: not in a link, in whatever case, and not in the page's
    HTML.  What the two patterns capture is part of the HTML, and
    neither stage accepts a capture without that word. *)
Theorem find_submit_needs_the_word (E : env) (html : str)
    (links : list str) (base_url : pyval) :
  (forall link, In link links -> mentions_submit (lower link) = false) ->
  mentions_submit html = false ->
  find_submit E html links base_url = None.
Proof.
  intros Hlinks Hhtml. unfold find_submit.
  destruct (find (fun link => mentions_submit (lower link)) links) as [link|] eqn:H1.
  { apply find_some in H1. destruct H1 as (Hin & Hl).
    rewrite (Hlinks link Hin) in Hl. discriminate. }
  destruct (find mentions_submit (findall1 action_attr html)) as [m|] eqn:H2.
  { apply find_some in H2. destruct H2 as (Hin & Hm).
    rewrite (findall1_action_attr_mentions html m Hin Hm) in Hhtml.
    discriminate. }
  destruct (findall1 url_token html) as [|m ms] eqn:H3; [reflexivity|].
  rewrite (findall1_url_token_mentions html m) in Hhtml; [discriminate|].
  rewrite H3. now left.
Qed.

Lemma find_submit_needs_the_word_witness :
  find_submit Examples.array_env
    (py "<a href=/next>Next</a>") [py "/next"] Examples.start = None.
Proof.
  apply (find_submit_needs_the_word Examples.array_env
           (py "<a href=/next>Next</a>") [py "/next"] Examples.start).
  - intros link [<-|[]]. reflexivity.
  - reflexivity.
Defined.

(** X8.  [normalize_url] hands an absolute URL back stripped, whatever
    the base and without joining; and it hands its own answer back
    unchanged, against any base. *)
Theorem normalize_url_absolute (E : env) (base : pyval) (raw : str) :
  (startswith (py "http://") (strip raw)
   || startswith (py "https://") (strip raw))%bool = true ->
  normalize_url E base raw = Some (strip raw)
  /\ forall E' base', normalize_url E' base' (strip raw) = Some (strip raw).
Proof.
  intros H.
  assert (Hgen : forall E0 base0 x,
             (startswith (py "http://") (strip x)
              || startswith (py "https://") (strip x))%bool = true ->
             normalize_url E0 base0 x = Some (strip x)).
  { intros E0 base0 x Hx. unfold normalize_url.
    destruct x as [|b x]; [discriminate|]. now rewrite Hx. }
  split; [now apply Hgen|].
  intros E' base'. rewrite <- (strip_strip raw) at 2.
  apply Hgen. now rewrite strip_strip.
Qed.

Lemma normalize_url_absolute_witness :
  normalize_url Examples.array_env PNone (py "  https://quiz.test/submit ")
  = Some (py "https://quiz.test/submit").
Proof.
  apply (normalize_url_absolute Examples.array_env PNone
           (py "  https://quiz.test/submit ")).
  reflexivity.
Defined.

(** ** The submission *)

(** X9.  The submission posts at most once, and only what it was given:
    the one POST goes to the URL [find_submit] found, which is not
    empty, with [result["submit_payload"]] as its body.  Where that URL
    is found and the result is a mapping with that key, the POST is
    made; nothing else is added to the history, whatever the server
    answers. *)
Theorem submit_answer_posts_what_it_found (E : env) (html : str)
    (links : list str) (quiz_url result : pyval) (w : world) :
  exists evs,
    snd (submit_answer E html links quiz_url result w) = w ++ evs
    /\ (evs = []
        \/ exists url payload,
             evs = [SubmitPost url payload]
             /\ find_submit E html links quiz_url = Some url
             /\ url <> []
             /\ getitem_str result (py "submit_payload") = Ok payload)
    /\ (forall url d payload,
          find_submit E html links quiz_url = Some url ->
          url <> [] ->
          result = PDict d ->
          dict_get d (py "submit_payload") = Some payload ->
          evs = [SubmitPost url payload]).
Proof.
  unfold submit_answer.
  destruct (find_submit E html links quiz_url) as [[|c u]|] eqn:Hf; cbn [found].
  - exists []. run. cbn. split; [now rewrite app_nil_r|]; split; [now left|].
    intros url d payload Hu Hne. congruence.
  - destruct result as [| | | |x|l|d]; cbn [contains_key]; run;
      try (exists []; cbn; split; [now rewrite app_nil_r|]; split;
           [now left|intros; discriminate]).
    + (* a text *)
      destruct (contains (py "submit_payload") x); exists []; cbn;
        (split; [now rewrite app_nil_r|]; split; [now left|intros; discriminate]).
    + (* a list *)
      destruct (existsb _ l); exists []; cbn;
        (split; [now rewrite app_nil_r|]; split; [now left|intros; discriminate]).
    + (* a mapping *)
      unfold dict_has. cbn [getitem_str].
      destruct (dict_get d (py "submit_payload")) as [payload|] eqn:Hp.
      * exists [SubmitPost (c :: u) payload].
        split.
        { destruct (submit_post E w (c :: u) payload) as [r|e];
            [destruct (resp_json r)|];
            destruct (dict_get d (py "answer")); reflexivity. }
        split.
        { right. exists (c :: u), payload.
          split; [reflexivity|]. split; [reflexivity|]. split; [discriminate|].
          reflexivity. }
        intros url d' payload' Hu _ Hd Hp'.
        injection Hu as <-. injection Hd as <-. congruence.
      * exists []. cbn [snd]. split; [now rewrite app_nil_r|]; split; [now left|].
        intros url d' payload' _ _ Hd Hp'. injection Hd as <-. congruence.
  - exists []. run. cbn. split; [now rewrite app_nil_r|]; split; [now left|].
    intros; discriminate.
Qed.

(** ** The shape of a step *)

Lemma prepare_result_mapping (E : env) (email secret : str) (quiz_url : pyval)
    (w w' : world) (html : str) (links : list str) (result : pyval) :
  prepare E email secret quiz_url w = (Ok (html, links, result), w') ->
  exists d, result = PDict d.
Proof.
  unfold prepare. run. intros H.
  repeat match type of H with
         | context [match ?x with _ => _ end] =>
             destruct x eqn:?; try discriminate
         end.
  injection H as _ _ <- _.
  match goal with
  | Hg : method_get ?r _ = Ok _ |- exists d, ?r = _ =>
      destruct r; try discriminate; eauto
  end.
Qed.

Lemma submit_answer_shape (E : env) (html : str) (links : list str)
    (quiz_url result : pyval) (w w' : world) (step : dict) :
  submit_answer E html links quiz_url result w = (Ok step, w') ->
  step = [(py "submitted", PBool false); (py "result", result)]
  \/ (exists response answer,
        step = [(py "submitted", PBool true); (py "response", response);
                (py "answer", answer)])
  \/ (exists detail answer,
        step = [(py "submitted", PBool true); (py "error", PStr detail);
                (py "answer", answer)]).
Proof.
  unfold submit_answer.
  destruct (find_submit E html links quiz_url) as [[|c u]|]; cbn [found]; run;
    try (intros H; injection H as <- _; now left).
  destruct (contains_key (py "submit_payload") result) as [[|]|e];
    [|intros H; injection H as <- _; now left|discriminate].
  destruct (getitem_str result (py "submit_payload")) as [payload|e];
    [destruct (submit_post E w (c :: u) payload) as [r|e];
     [destruct (resp_json r)|]|];
    destruct (getitem_str result (py "answer"));
    intros H; try discriminate; injection H as <- _; eauto 10.
Qed.

(** X14.  A step that [solve_single] returns has one of three shapes:
    not submitted, with the executor's result, which is then a mapping;
    submitted, with the server's response and the answer; or submitted,
    with the text of the error and the answer. *)
Theorem solve_single_step_shape (E : env) (email secret : str)
    (quiz_url : pyval) (w w' : world) (step : dict) :
  solve_single E email secret quiz_url w = (Ok step, w') ->
  (exists d, step = [(py "submitted", PBool false); (py "result", PDict d)])
  \/ (exists response answer,
        step = [(py "submitted", PBool true); (py "response", response);
                (py "answer", answer)])
  \/ (exists detail answer,
        step = [(py "submitted", PBool true); (py "error", PStr detail);
                (py "answer", answer)]).
Proof.
  unfold solve_single, bind at 1. intros H.
  destruct (prepare E email secret quiz_url w) as [[[[html links] result]|e] w1]
    eqn:Hp; [|discriminate].
  apply prepare_result_mapping in Hp. destruct Hp as (d & ->).
  apply submit_answer_shape in H. destruct H as [->|H]; [left; eauto|now right].
Qed.

Lemma solve_single_step_shape_witness :
  exists response answer,
    fst (solve_single Examples.wrong_env (py "a@b.c") (py "s3cret")
           Examples.start [])
    = Ok [(py "submitted", PBool true); (py "response", response);
          (py "answer", answer)].
Proof.
  destruct (solve_single Examples.wrong_env (py "a@b.c") (py "s3cret")
              Examples.start []) as [r w'] eqn:Hrun.
  assert (Hok : r = Ok (Examples.submitted_step (PDict Examples.wrong_response))).
  { apply (f_equal fst) in Hrun. cbn [fst] in Hrun. rewrite <- Hrun.
    vm_compute. reflexivity. }
  subst r.
  destruct (solve_single_step_shape Examples.wrong_env (py "a@b.c")
              (py "s3cret") Examples.start [] w' _ Hrun)
    as [(d & H)|[(response & answer & H)|(detail & answer & H)]];
    [cbv in H; discriminate| |cbv in H; discriminate].
  exists response, answer. cbn [fst]. now rewrite H.
Defined.

(** ** What a step and a run add to the history *)

Lemma adds_after_print {A} (E : env) (l : line) (m : M A) r p s :
  adds m (footprint r p s) ->
  adds (bind (print E l) (fun _ => m))
    (footprint (if printable E l then r else []) p s).
Proof.
  intros Hm w. unfold bind, print. destruct (printable E l).
  - destruct (Hm (w ++ [Printed l])) as (evs & Hw & Hr & Hp & Hs).
    exists (Printed l :: evs). split.
    + rewrite Hw, <- app_assoc. reflexivity.
    + repeat split; assumption.
  - exists []. rewrite app_nil_r. split; [reflexivity|].
    repeat split; cbn; lia.
Qed.

Section WithEnv.
Variable E : env.

(** A step renders its page once, unless its first line cannot be
    written; then it does nothing. *)
Lemma adds_prepare (email secret : str) (quiz_url : pyval) :
  adds (prepare E email secret quiz_url)
    (footprint (if writes E quiz_url then [quiz_url] else []) 18 0).
Proof.
  unfold prepare.
  apply (adds_after_print E (SolvingQuiz quiz_url)).
  apply (adds_bind _ _ [quiz_url] 0 0 18 0).
  { intros w. exists [Rendered quiz_url]. split; [reflexivity|].
    repeat split; cbn; lia. }
  intros [[html text] links].
  apply (adds_bind _ _ [] 0 0 18 0).
  { intros w. exists [Gathered quiz_url links]. split; [reflexivity|].
    repeat split; cbn; lia. }
  intros context_data.
  apply (adds_bind _ _ [] 0 0 18 0); [apply adds_print|]. intros _.
  apply (adds_bind _ _ [] 9 0 9 0); [apply adds_llm_json|]. intros plan_info.
  apply (adds_bind _ _ [] 0 0 9 0); [apply adds_print|]. intros _.
  apply (adds_bind _ _ [] 0 0 9 0); [apply adds_print|]. intros _.
  apply (adds_bind _ _ [] 9 0 0 0); [apply adds_llm_json|]. intros result.
  apply (adds_bind _ _ [] 0 0 0 0); [apply adds_lift|]. intros answer.
  apply (adds_bind _ _ [] 0 0 0 0); [apply adds_print|]. intros _.
  apply adds_ret.
Qed.

Lemma adds_submit_answer (html : str) (links : list str) (quiz_url result : pyval) :
  adds (submit_answer E html links quiz_url result) (footprint [] 0 1).
Proof.
  unfold submit_answer.
  apply (adds_bind _ _ [] 0 0 0 1).
  { destruct (found (find_submit E html links quiz_url));
      [apply adds_lift|apply adds_ret]. }
  intros has_payload.
  destruct (find_submit E html links quiz_url) as [url|];
    [|apply (adds_weaken _ [] 0 0); [apply adds_ret|lia|lia]].
  destruct has_payload;
    [|apply (adds_weaken _ [] 0 0); [apply adds_ret|lia|lia]].
  apply (adds_try_catch _ _ [] 0 1 0 0).
  - apply (adds_bind _ _ [] 0 0 0 1); [apply adds_lift|]. intros payload.
    apply (adds_bind _ _ [] 0 1 0 0).
    { intros w. exists [SubmitPost url payload]. split; [reflexivity|].
      repeat split; cbn; lia. }
    intros r.
    apply (adds_try_catch _ _ [] 0 0 0 0).
    + apply (adds_bind _ _ [] 0 0 0 0); [apply adds_lift|]. intros resp.
      apply (adds_bind _ _ [] 0 0 0 0); [apply adds_lift|]. intros answer.
      apply adds_ret.
    + intros _.
      apply (adds_bind _ _ [] 0 0 0 0); [apply adds_lift|]. intros answer.
      apply adds_ret.
  - intros e.
    apply (adds_bind _ _ [] 0 0 0 0); [apply adds_lift|]. intros answer.
    apply adds_ret.
Qed.

Lemma adds_solve_single (email secret : str) (quiz_url : pyval) :
  adds (solve_single E email secret quiz_url)
    (footprint (if writes E quiz_url then [quiz_url] else []) 18 1).
Proof.
  unfold solve_single.
  apply (adds_bind _ _ _ 18 0 0 1); [apply adds_prepare|].
  intros [[html links] result]. apply adds_submit_answer.
Qed.

Lemma adds_attempt_step (solve : pyval -> M dict) (current : pyval) r :
  adds (solve current) (footprint r 18 1) ->
  adds (attempt_step E solve current) (footprint r 18 1).
Proof.
  intros Hs. unfold attempt_step.
  apply (adds_try_catch _ _ r 18 1 0 0); [exact Hs|].
  intros e.
  apply (adds_bind _ _ [] 0 0 0 0); [apply adds_print|intros; apply adds_ret].
Qed.

End WithEnv.

(** The loop of the chain: an iteration adds at most eighteen requests
    to the completion endpoint and one POST to a submit URL, whether the
    loop returns or raises; and every entry of a trace it returns stands
    for one rendering of the entry's URL. *)
Lemma chain_loop_footprint (E : env) (solve : pyval -> M dict) :
  (forall current,
      adds (solve current)
        (footprint (if writes E current then [current] else []) 18 1)) ->
  forall iterations current steps w,
  exists evs,
    snd (chain_loop E solve iterations current steps w) = w ++ evs
    /\ length (aipipe_posts evs) <= 18 * length iterations
    /\ length (submit_posts evs) <= length iterations
    /\ forall trace,
         fst (chain_loop E solve iterations current steps w) = Ok trace ->
         exists added,
           trace = steps ++ added
           /\ rendered evs = map entry_url added
           /\ length (aipipe_posts evs) <= 18 * length added
           /\ length (submit_posts evs) <= length added.
Proof.
  intros Hsolve iterations.
  induction iterations as [|i rest IH]; intros current steps w.
  - exists []. cbn [chain_loop]. unfold ret. cbn [fst snd].
    rewrite app_nil_r. repeat split; try (cbn; lia).
    intros trace H. injection H as <-. exists []. rewrite app_nil_r.
    repeat split; cbn; lia.
  - rewrite chain_loop_step.
    destruct (writes E current) eqn:Hw.
    2:{ exists []. cbn [fst snd]. rewrite app_nil_r.
        repeat split; try (cbn; lia). intros trace H. discriminate. }
    pose proof (adds_attempt_step E solve current _ (Hsolve current)
                  (w ++ [Printed (StepBanner (i + 1) current)]))
      as (evs1 & Hw1 & Hr1 & Hp1 & Hs1).
    rewrite Hw in Hr1.
    destruct (attempt_step E solve current
                (w ++ [Printed (StepBanner (i + 1) current)]))
      as [[step|e] w1]; cbn [snd] in Hw1; subst w1.
    2:{ exists (Printed (StepBanner (i + 1) current) :: evs1). cbn [fst snd].
        rewrite <- app_assoc. split; [reflexivity|].
        cbn [aipipe_posts submit_posts length].
        repeat split; try lia. intros trace H. discriminate. }
    assert (Hone : forall tail,
               rendered tail = [] -> aipipe_posts tail = [] -> submit_posts tail = [] ->
               let evs := [Printed (StepBanner (i + 1) current)] ++ evs1 ++ tail in
               rendered evs = map entry_url [quiz_step current step]
               /\ length (aipipe_posts evs) <= 18
               /\ length (submit_posts evs) <= 1).
    { intros tail Ht1 Ht2 Ht3. cbn zeta.
      rewrite !rendered_app, !LlmFacts.aipipe_posts_app, !submit_posts_app.
      rewrite Hr1, Ht1, Ht2, Ht3, !app_nil_r. cbn. repeat split; lia. }
    destruct (stops_incorrect step).
    { destruct (Hone [Printed StopIncorrect] eq_refl eq_refl eq_refl)
        as (Hr & Hp & Hs).
      exists ([Printed (StepBanner (i + 1) current)] ++ evs1 ++ [Printed StopIncorrect]).
      cbn [fst snd]. split; [now rewrite <- !app_assoc|].
      cbn [length]. split; [lia|]. split; [lia|].
      intros trace H. injection H as <-. exists [quiz_step current step].
      cbn [length]. repeat split; [exact Hr|lia|lia]. }
    destruct (truthy (next_url_of step)).
    + destruct (IH (next_url_of step) (steps ++ [quiz_step current step])
                  ((w ++ [Printed (StepBanner (i + 1) current)]) ++ evs1))
        as (evs2 & Hw2 & Hp2 & Hs2 & Htrace).
      exists ([Printed (StepBanner (i + 1) current)] ++ evs1 ++ evs2).
      split; [rewrite Hw2, <- !app_assoc; reflexivity|].
      rewrite !LlmFacts.aipipe_posts_app, !submit_posts_app, !length_app.
      cbn [aipipe_posts submit_posts length].
      split; [lia|]. split; [lia|].
      intros trace H. destruct (Htrace trace H) as (added & -> & Hr & Hpa & Hsa).
      exists (quiz_step current step :: added).
      split; [now rewrite <- app_assoc|].
      rewrite !rendered_app, Hr1, Hr. cbn [rendered length map app].
      repeat split; lia.
    + destruct (Hone [] eq_refl eq_refl eq_refl) as (Hr & Hp & Hs).
      exists ([Printed (StepBanner (i + 1) current)] ++ evs1 ++ []).
      cbn [fst snd]. split; [now rewrite app_nil_r, <- app_assoc|].
      cbn [length]. split; [lia|]. split; [lia|].
      intros trace H. injection H as <-. exists [quiz_step current step].
      cbn [length]. repeat split; [exact Hr|lia|lia].
Qed.

(** X2.  A run of [solve_quiz_chain] that returns its trace has
    rendered exactly the URLs of the trace, each once and in the order
    of the trace: what [render_page] was called with during the run is
    the list of the [url] fields of the entries. *)
Theorem chain_renders_its_trace (E : env) (email secret : str)
    (url owner_email : pyval) (w : world) (trace : list pyval) (w' : world) :
  solve_quiz_chain E email secret url owner_email w = (Ok trace, w') ->
  exists evs, w' = w ++ evs /\ rendered evs = map entry_url trace.
Proof.
  intros Hrun.
  destruct (chain_loop_footprint E (solve_single E email secret)
              (adds_solve_single E email secret) (seq 0 12) url [] w)
    as (evs & Hw & _ & _ & Htrace).
  unfold solve_quiz_chain in Hrun. rewrite Hrun in Hw, Htrace.
  cbn [fst snd] in Hw, Htrace.
  destruct (Htrace trace eq_refl) as (added & -> & Hr & _).
  exists evs. split; [exact Hw|exact Hr].
Qed.

Lemma chain_renders_its_trace_witness :
  exists evs,
    snd (solve_quiz_chain Examples.retry_env (py "a@b.c") (py "s3cret")
           Examples.start PNone [])
    = [] ++ evs
    /\ rendered evs
       = Examples.start :: repeat (PStr Examples.next_page) 11.
Proof.
  destruct (solve_quiz_chain Examples.retry_env (py "a@b.c") (py "s3cret")
              Examples.start PNone []) as [[trace|e] w'] eqn:Hrun;
    [|vm_compute in Hrun; discriminate].
  destruct (chain_renders_its_trace Examples.retry_env (py "a@b.c") (py "s3cret")
              Examples.start PNone [] trace w' Hrun) as (evs & Hw & Hr).
  exists evs. split; [exact Hw|]. rewrite Hr.
  vm_compute in Hrun. injection Hrun as <- _. reflexivity.
Defined.

(** X3.  Every call of [solve_single] posts at most eighteen requests
    to the completion endpoint (two model calls of at most three
    attempts of at most three posts) and at most one answer to a submit
    URL, whether it returns or raises.  So a run of [solve_quiz_chain]
    posts at most 216 requests and twelve answers, and a run that
    returns its trace at most eighteen requests and one answer per
    entry. *)
Theorem chain_request_budget (E : env) (email secret : str) :
  (forall current w,
      exists evs,
        snd (solve_single E email secret current w) = w ++ evs
        /\ length (aipipe_posts evs) <= 18
        /\ length (submit_posts evs) <= 1)
  /\ (forall url owner_email w,
         exists evs,
           snd (solve_quiz_chain E email secret url owner_email w) = w ++ evs
           /\ length (aipipe_posts evs) <= 216
           /\ length (submit_posts evs) <= 12
           /\ forall trace,
                fst (solve_quiz_chain E email secret url owner_email w) = Ok trace ->
                length (aipipe_posts evs) <= 18 * length trace
                /\ length (submit_posts evs) <= length trace).
Proof.
  split.
  - intros current w.
    destruct (adds_solve_single E email secret current w) as (evs & Hw & _ & Hp & Hs).
    exists evs. auto.
  - intros url owner_email w.
    destruct (chain_loop_footprint E (solve_single E email secret)
                (adds_solve_single E email secret) (seq 0 12) url [] w)
      as (evs & Hw & Hp & Hs & Htrace).
    cbn [length seq] in Hp, Hs.
    exists evs. split; [exact Hw|]. split; [lia|]. split; [lia|].
    intros trace H. destruct (Htrace trace H) as (added & -> & _ & Hpa & Hsa).
    cbn [app]. split; assumption.
Qed.

End SolverMore.

(* ================================================================== *)
(** * [app/solver.py]: the linked files *)
(* ================================================================== *)

Module FetchFacts.
Import Py World Solver Fetch.



Lemma entry_length (url text : str) :
  length (entry url text) <= entry_budget url.
Proof.
  unfold entry, entry_budget. rewrite !length_app.
  pose proof (firstn_le_length snippet_limit text) as Hf.
  assert (Hm : length (if Nat.ltb snippet_limit (length text)
                       then py "... [Content Truncated] ..." ++ [nl]
                       else []) <= 28).
  { destruct (Nat.ltb snippet_limit (length text)); cbn; lia. }
  change (length [nl; nl]) with 2.
  change (length (py "--- CONTENT OF LINKED FILE: ")) with 28.
  change (length (py " ---")) with 4.
  change (length [nl]) with 1.
  lia.
Qed.

Lemma fetch_loop_length (n : net) (urls : list str) :
  forall t h,
    length (fst (fetch_loop n urls t h))
    <= length t + list_sum (map entry_budget urls).
Proof.
  induction urls as [|url rest IH]; intros t h; cbn [fetch_loop].
  - cbn [fst]. lia.
  - change (list_sum (map entry_budget (url :: rest)))
      with (entry_budget url + list_sum (map entry_budget rest)).
    destruct (download n h url) as [content|e].
    + etransitivity; [apply IH|]. rewrite length_app.
      pose proof (entry_length url (decode n content)). lia.
    + etransitivity; [apply IH|]. lia.
Qed.

Lemma fetch_loop_all_fail (n : net) (urls : list str) :
  (forall h u, exists e, download n h u = Raise e) ->
  forall t h, fst (fetch_loop n urls t h) = t.
Proof.
  intros Hfail. induction urls as [|url rest IH]; intros t h; cbn [fetch_loop].
  - reflexivity.
  - destruct (Hfail h url) as (e & ->). apply IH.
Qed.

Lemma list_sum_permutation (l l' : list nat) :
  Permutation l l' -> list_sum l = list_sum l'.
Proof.
  induction 1; unfold list_sum in *; cbn [fold_right]; lia.
Qed.






(** X12.  The text of the linked files is bounded: a file adds its URL,
    at most fifteen thousand characters of content and 64 characters of
    frame, and a file counts once.  Where every download fails the text
    is empty. *)
Theorem fetch_text_budget (E : env) (n : net) (base_url : pyval)
    (links : list str) (h : list fetch_event) :
  set_order_ok n ->
  length (fst (fetch_linked_resources E n base_url links h))
  <= list_sum (map entry_budget (nodup str_eq_dec (targets E base_url links)))
  /\ ((forall h' u, exists e, download n h' u = Raise e) ->
      fst (fetch_linked_resources E n base_url links h) = []).
Proof.
  intros Hset. split.
  - unfold fetch_linked_resources.
    etransitivity; [apply fetch_loop_length|]. cbn [length plus].
    rewrite (list_sum_permutation _ _
               (Permutation_map entry_budget (Hset (targets E base_url links)))).
    reflexivity.
  - intros Hfail. now apply fetch_loop_all_fail.
Qed.

Lemma fetch_text_budget_witness :
  length (fst (fetch_linked_resources Examples.array_env sample_net
                 Examples.start sample_links []))
  <= list_sum (map entry_budget
                 [py "http://quiz.test/data.csv";
                  py "http://quiz.test/notes.TXT?v=2"]).
Proof.
  destruct (fetch_text_budget Examples.array_env sample_net
              Examples.start sample_links [])
    as (H & _).
  - intros ts. apply Permutation_refl.
  - exact H.
Defined.

(** ** The test for a linked file *)

Lemma before_before (a : char) (x : str) : before a (before a x) = before a x.
Proof.
  induction x as [|b x IH]; [reflexivity|]. cbn [before].
  destruct (N.eqb b a) eqn:Hb; [reflexivity|]. cbn [before].
  now rewrite Hb, IH.
Qed.

Lemma lower_char_question (c : char) :
  N.eqb (lower_char c) (ch "?") = N.eqb c (ch "?").
Proof.
  unfold lower_char, in_range. change (ch "?") with 63%N.
  destruct (N.leb_spec 65%N c); [|reflexivity].
  destruct (N.leb_spec c 90%N); [|reflexivity]. cbn [andb].
  transitivity false; [|symmetry]; apply N.eqb_neq; lia.
Qed.

Lemma lower_char_lower_char (c : char) :
  lower_char (lower_char c) = lower_char c.
Proof.
  unfold lower_char, in_range.
  destruct (N.leb_spec 65%N c) as [H1|H1];
    [destruct (N.leb_spec c 90%N) as [H2|H2]|]; cbn [andb].
  - destruct (N.leb_spec (c + 32)%N 90%N) as [H3|H3]; [lia|].
    now rewrite andb_false_r.
  - destruct (N.leb_spec 65%N c); [|lia].
    destruct (N.leb_spec c 90%N); [lia|]. reflexivity.
  - destruct (N.leb_spec 65%N c); [lia|]. reflexivity.
Qed.

Lemma lower_lower (x : str) : lower (lower x) = lower x.
Proof.
  unfold lower. rewrite map_map. apply map_ext, lower_char_lower_char.
Qed.

Lemma before_lower (x : str) :
  before (ch "?") (lower x) = lower (before (ch "?") x).
Proof.
  induction x as [|b x IH]; [reflexivity|].
  unfold lower in *. cbn [map before]. rewrite lower_char_question.
  destruct (N.eqb b (ch "?")); [reflexivity|]. cbn [map]. now rewrite IH.
Qed.

(** X13.  Whether a URL counts as a linked file is decided by what comes
    before its first question mark, and capitals count as small
    letters. *)
Theorem has_extension_ignores_query_and_case (full_url : str) :
  has_extension (before (ch "?") full_url) = has_extension full_url
  /\ has_extension (lower full_url) = has_extension full_url.
Proof.
  unfold has_extension. split.
  - now rewrite before_before.
  - now rewrite before_lower, lower_lower.
Qed.

End FetchFacts.

(* ================================================================== *)
(** * More about [app/main.py] *)
(* ================================================================== *)

Module MainMore.
Import Py World Solver Main Observe Account SolverMore.

(** X10.  A request that is turned away (422, 403 or 400) starts
    nothing: the history is as before.  A request that is let in runs
    the chain: where the deadline passes, what the chain did until then
    has happened and the rest has not; otherwise all of it has.  Either
    way at most 216 requests go to the completion endpoint and twelve
    answers to submit URLs.  The answer is 500 only where the body the
    handler built could not be rendered; a trace that holds the
    executor's answer [NaN] is such a body. *)
Theorem post_quiz_outcomes (E : env) (body : pyval) (w : world) :
  (validate E body = None -> snd (post_quiz E body w) = w)
  /\ (forall p,
         validate E body = Some p ->
         opt_str_eqb (QUIZ_SECRET E) (secret p) = false \/ url p = [] ->
         snd (post_quiz E body w) = w)
  /\ (forall p,
         validate E body = Some p ->
         opt_str_eqb (QUIZ_SECRET E) (secret p) = true ->
         url p <> [] ->
         let run := solve_quiz_chain E (email p) (secret p) (PStr (url p))
                      (opt_str_val (QUIZ_EMAIL E)) w in
         exists evs,
           snd run = w ++ evs
           /\ snd (post_quiz E body w)
              = match deadline E w evs with
                | Some k => w ++ firstn k evs ++ [WaitedFor]
                | None => w ++ evs
                end
           /\ length (aipipe_posts evs) <= 216
           /\ length (submit_posts evs) <= 12
           /\ (fst (post_quiz E body w) = ServerError ->
               deadline E w evs = None
               /\ exists b,
                    renderable b = false
                    /\ match fst run with
                       | Ok trace => b = ok_body trace
                       | Raise e => b = error_body (exn_str e)
                       end))
  /\ fst (post_quiz Examples.nan_env Examples.good_request []) = ServerError.
Proof.
  split; [|split; [|split]].
  - intros Hv. unfold post_quiz. now rewrite Hv.
  - intros p Hv H. unfold post_quiz, quiz_endpoint. rewrite Hv.
    destruct (opt_str_eqb (QUIZ_SECRET E) (secret p)); [|reflexivity].
    destruct H as [H|H]; [discriminate|]. now rewrite H.
  - intros p Hv Hs Hu run.
    destruct (chain_loop_footprint E (solve_single E (email p) (secret p))
                (adds_solve_single E (email p) (secret p)) (seq 0 12)
                (PStr (url p)) [] w)
      as (evs & Hw & Hp & Hsub & _).
    cbn [length seq] in Hp, Hsub.
    change (chain_loop E (solve_single E (email p) (secret p)) (seq 0 12)
              (PStr (url p)) [] w) with run in Hw.
    exists evs. split; [exact Hw|].
    assert (Hevs : skipn (length w) (snd run) = evs).
    { rewrite Hw, skipn_app, Nat.sub_diag, skipn_all. reflexivity. }
    rewrite (MainFacts.post_quiz_served E body p w Hv Hs Hu).
    fold run. rewrite Hevs.
    destruct (deadline E w evs) as [k|].
    + cbn [fst snd]. split; [reflexivity|]. split; [lia|]. split; [lia|].
      discriminate.
    + cbn [fst snd]. split; [exact Hw|]. split; [lia|]. split; [lia|].
      intros H500. split; [reflexivity|].
      destruct (fst run) as [trace|e].
      * exists (ok_body trace).
        destruct (renderable (ok_body trace)); [discriminate|]. auto.
      * exists (error_body (exn_str e)).
        destruct (renderable (error_body (exn_str e))); [discriminate|]. auto.
  - vm_compute. reflexivity.
Qed.

End MainMore.
